(** * wirklich: the browser pool and its scheduler

    A shallow embedding of the pool of [src/wirklich.js] (the closure built
    by [getBrowserPool]) as a state machine over the turns of the JavaScript
    event loop.  Code that runs without suspension is a Rocq function on the
    pool state, named after the source function it comes from; every
    suspension point ([await chromium.launch], the race between a task and
    its timer, the [.finally] reaction of a dispatch, [await browser.close()],
    a browser emitting ['disconnected']) is an event that the environment
    delivers later, in any order.

    Conventions of the embedding:
    - a browser state object lives in [heap] under its id; the roster
      [browsers] holds references (ids), as do the closures of the source
      ([availableBrowser] in the [.finally] handler, [browserState] in the
      disconnect handler), so an object removed from the roster can still be
      mutated; a browser handle is identified with the id of its object;
    - the [type] of a browser is a string: ["default"], ["adblock"], or any
      other string that a caller of [killBrowser] passed as
      [specificTypeToReplenish];
    - a task is an opaque asynchronous function: calling it returns a
      promise that the environment later resolves with a result, rejects
      with an [Error] (an object with a string [message]), rejects with some
      other value, or never settles.  The task functions built by
      [createScreenshotTask] and [createScreencastTask] only reject with
      [Error] objects, but the queueing facades accept any object that has a
      function as [taskFn]; the retry loop inside the built functions is
      embedded on its own ([retryLoop]), over what each attempt does;
    - the chain [Promise.race(..).then(..).catch(..).finally(..)] takes two
      turns: the [.then] or [.catch] handler runs in the turn of the event
      that settles the race, the [.finally] handler in a later turn
      ([EvFinally]).  In between the source runs the reactions that the
      handler has scheduled, the caller's continuation first of all; the
      embedding lets any events come in between, which covers every order
      the source has.  When the [.catch] handler throws, the chain ends in a
      rejected promise that nobody handles; what the runtime does with it is
      not embedded;
    - Playwright: a browser emits ['disconnected'] once, its handle is no
      longer connected by then, and a successful [close()] resolves only
      after the event was emitted;
    - sizes given in the configuration are natural numbers, priorities and
      the [pagesOpen] counter (which the source increments and decrements)
      are integers;
    - [settlements], [closeCalls], [shutdownsResolved] and the field [d_pre]
      of a dispatch are ghost state: they record what the code did and are
      never read by it; the fields [raceSettled], [execSettled], [timerFired]
      and [released] of a dispatch are the state of the runtime (a promise
      settles once, a timer fires once, a reaction runs once). *)

From stdpp Require Import gmap strings list fin_maps.
From Stdlib Require Import ZArith Lia Sorted.

Local Open Scope Z_scope.

(** ** Data *)

(** The [type] of a browser state object, a JavaScript string.  The pool
    itself only ever asks for ["default"] and ["adblock"]; [killBrowser]
    hands the value of its parameter [specificTypeToReplenish] to
    [_launchBrowser] as it is, so a browser can carry any other string
    ([TOther]). *)
Inductive BrowserType := TDefault | TAdblock | TOther (name : string).

(** The type a string denotes; [TOther] is only built here, from a string
    that is neither ["default"] nor ["adblock"]. *)
Definition type_of_string (name : string) : BrowserType :=
  if String.eqb name "default" then TDefault
  else if String.eqb name "adblock" then TAdblock
  else TOther name.

#[global] Instance BrowserType_eq_dec : EqDecision BrowserType.
Proof. solve_decision. Defined.

Definition type_eqb (a b : BrowserType) : bool := bool_decide (a = b).

(** [{ use_adblock }] *)
Record Requirements := { use_adblock : bool }.

(** The first argument of [queueTaskWithRequirements]: any JavaScript value;
    only [typeof taskFunction === "function"] is inspected. *)
Inductive JsValue :=
| JsFunction (name : string)
| JsNotCallable.

Definition is_function (v : JsValue) : bool :=
  match v with JsFunction _ => true | JsNotCallable => false end.

(** The errors the pool creates, and the one a task rejects with. *)
Inductive PoolError :=
| ErrShuttingDownNoNewTasks      (* "Browser pool is shutting down. No new tasks accepted." *)
| ErrTaskMustBeFunction          (* "Task must be a function." *)
| ErrNoAdblockPath               (* "Task requires adblock, but no adblockExtensionPath ..." *)
| ErrAdblockPoolZero             (* "Task requires adblock, but pool_size_adblock is 0." *)
| ErrTaskCancelled               (* "Browser pool is shutting down. Task cancelled." *)
| ErrTimedOut (taskId : nat)     (* "[Pool] Task N timed out after Ts" *)
| ErrJob (message : string)      (* whatever the task function rejected with *)
| ErrInitializationFailed (message : string).

Definition Result := string.

(** How a caller's promise was settled: [queuedItem.resolve(result)] or
    [queuedItem.reject(error)]. *)
Inductive Outcome :=
| Resolved (result : Result)
| Rejected (error : PoolError).

Record Config := {
  pool_size_default : nat;
  pool_size_adblock : nat;
  adblockExtensionPath : option string;
  maxPagesPerBrowser : nat;
  taskTimeoutMs : Z
}.

(** Truthiness of [adblockExtensionPath]: [undefined] and the empty string
    are falsy. *)
Definition path_truthy (p : option string) : bool :=
  match p with
  | Some s => negb (String.eqb s EmptyString)
  | None => false
  end.

Definition maxOfType (cfg : Config) (t : BrowserType) : nat :=
  match t with
  | TAdblock => pool_size_adblock cfg
  | _ => pool_size_default cfg
  end.

(** ** The priority queue (class [PriorityQueue]) *)

Record QueueItem := {
  q_task : string;
  q_priority : Z;
  q_requirements : Requirements;
  q_id : nat
}.

(** [Array.prototype.sort(cmp)] is stable.  For a comparator that is a
    consistent ordering the stable result is unique, so any stable sort
    defines it; insertion from the right is the executable definition used
    here.  [cmp a b <= 0] keeps [a] in front of [b]. *)
Section JsSort.
Context {A : Type} (cmp : A -> A -> Z).

Fixpoint sort_insert (x : A) (l : list A) : list A :=
  match l with
  | [] => [x]
  | y :: l' => if cmp x y <=? 0 then x :: y :: l' else y :: sort_insert x l'
  end.

Definition js_sort (l : list A) : list A := foldr sort_insert [] l.
End JsSort.

Module PriorityQueue.

Record t := {
  items : list QueueItem;
  taskIdCounter : nat
}.

Definition new : t := {| items := []; taskIdCounter := 0 |}.

(** [(a, b) => b.priority - a.priority] *)
Definition by_priority (a b : QueueItem) : Z := q_priority b - q_priority a.

Definition enqueue (task : string) (priority : Z) (requirements : Requirements)
    (q : t) : nat * t :=
  let id := taskIdCounter q in
  let pushed := items q ++
    [{| q_task := task; q_priority := priority;
        q_requirements := requirements; q_id := id |}] in
  (id, {| items := js_sort by_priority pushed; taskIdCounter := S id |}).

Definition isEmpty (q : t) : bool :=
  match items q with [] => true | _ => false end.

Definition dequeue (q : t) : option QueueItem * t :=
  match items q with
  | [] => (None, q)
  | x :: rest => (Some x, {| items := rest; taskIdCounter := taskIdCounter q |})
  end.

Definition remove (id : nat) (q : t) : t :=
  {| items := List.filter (fun item => negb (Nat.eqb (q_id item) id)) (items q);
     taskIdCounter := taskIdCounter q |}.

Definition length (q : t) : nat := List.length (items q).

End PriorityQueue.

(** ** Browser objects, launches, dispatches *)

(** [browserState], with the connectivity of its [browser] handle
    ([browser.isConnected()]). *)
Record BrowserState := {
  b_id : nat;
  busy : bool;
  pagesOpen : Z;
  b_type : BrowserType;
  connected : bool
}.

(** What runs when a [_launchBrowser] promise settles. *)
Inductive LaunchCont :=
| KWarmup      (* member of [browserLaunchPromises] *)
| KOnDemand    (* [_processQueue]: [.then(() => _processQueue()).catch(log)] *)
| KCrash       (* disconnect handler: [.catch(log)] *)
| KKill.       (* [killBrowser]: [await _launchBrowser(..); _processQueue()] *)

#[global] Instance LaunchCont_eq_dec : EqDecision LaunchCont.
Proof. solve_decision. Defined.

(** A [chromium.launch] call in flight. *)
Record Launch := {
  l_type : BrowserType;
  l_cont : LaunchCont
}.

(** A dispatched task: the closure state of one pass of [_processQueue]
    that found a browser.  [d_pre] is a ghost field, the value of
    [pagesOpen] just before the dispatch incremented it. *)
Record Dispatch := {
  d_item : QueueItem;
  d_browser : nat;
  d_pre : Z;
  taskCompleted : bool;   (* the latch *)
  raceSettled : bool;     (* [Promise.race] has settled and its [.then] or
                             [.catch] handler has run *)
  execSettled : bool;     (* [taskExecutionPromise] has settled *)
  timerFired : bool;      (* the [setTimeout] callback has run *)
  released : bool         (* the [.finally] handler has run *)
}.

Definition d_tid (d : Dispatch) : nat := q_id (d_item d).

Inductive Phase :=
| Constructing   (* [await Promise.all(browserLaunchPromises)] *)
| InitFailing (message : string)   (* in the [catch]: [await shutdown(true)] *)
| InitFailed (error : PoolError)   (* [getBrowserPool] has thrown *)
| Ready.         (* the pool object was returned *)

(** A call of [shutdown] suspended at [await Promise.all(closePromises)]. *)
Record ShutdownCall := {
  sd_pending : list nat;    (* browsers whose [close()] has not settled *)
  sd_from_init : bool
}.

Record Pool := {
  browsers : list nat;
  heap : gmap nat BrowserState;
  browserIdCounter : nat;
  taskQueue : PriorityQueue.t;
  shuttingDown : bool;
  launching : list Launch;
  dispatches : list Dispatch;
  settlements : list (nat * Outcome);   (* ghost: calls of resolve / reject, newest first *)
  closeCalls : list nat;                (* ghost: calls of [browser.close()], newest first *)
  phase : Phase;
  shutdownCalls : list ShutdownCall;
  shutdownsResolved : nat               (* ghost: [shutdown()] promises resolved *)
}.

Definition set_browsers (v : list nat) (s : Pool) : Pool :=
  {| browsers := v; heap := heap s; browserIdCounter := browserIdCounter s;
     taskQueue := taskQueue s; shuttingDown := shuttingDown s;
     launching := launching s; dispatches := dispatches s;
     settlements := settlements s; closeCalls := closeCalls s;
     phase := phase s; shutdownCalls := shutdownCalls s;
     shutdownsResolved := shutdownsResolved s |}.

Definition set_heap (v : gmap nat BrowserState) (s : Pool) : Pool :=
  {| browsers := browsers s; heap := v; browserIdCounter := browserIdCounter s;
     taskQueue := taskQueue s; shuttingDown := shuttingDown s;
     launching := launching s; dispatches := dispatches s;
     settlements := settlements s; closeCalls := closeCalls s;
     phase := phase s; shutdownCalls := shutdownCalls s;
     shutdownsResolved := shutdownsResolved s |}.

Definition set_browserIdCounter (v : nat) (s : Pool) : Pool :=
  {| browsers := browsers s; heap := heap s; browserIdCounter := v;
     taskQueue := taskQueue s; shuttingDown := shuttingDown s;
     launching := launching s; dispatches := dispatches s;
     settlements := settlements s; closeCalls := closeCalls s;
     phase := phase s; shutdownCalls := shutdownCalls s;
     shutdownsResolved := shutdownsResolved s |}.

Definition set_taskQueue (v : PriorityQueue.t) (s : Pool) : Pool :=
  {| browsers := browsers s; heap := heap s; browserIdCounter := browserIdCounter s;
     taskQueue := v; shuttingDown := shuttingDown s;
     launching := launching s; dispatches := dispatches s;
     settlements := settlements s; closeCalls := closeCalls s;
     phase := phase s; shutdownCalls := shutdownCalls s;
     shutdownsResolved := shutdownsResolved s |}.

Definition set_shuttingDown (v : bool) (s : Pool) : Pool :=
  {| browsers := browsers s; heap := heap s; browserIdCounter := browserIdCounter s;
     taskQueue := taskQueue s; shuttingDown := v;
     launching := launching s; dispatches := dispatches s;
     settlements := settlements s; closeCalls := closeCalls s;
     phase := phase s; shutdownCalls := shutdownCalls s;
     shutdownsResolved := shutdownsResolved s |}.

Definition set_launching (v : list Launch) (s : Pool) : Pool :=
  {| browsers := browsers s; heap := heap s; browserIdCounter := browserIdCounter s;
     taskQueue := taskQueue s; shuttingDown := shuttingDown s;
     launching := v; dispatches := dispatches s;
     settlements := settlements s; closeCalls := closeCalls s;
     phase := phase s; shutdownCalls := shutdownCalls s;
     shutdownsResolved := shutdownsResolved s |}.

Definition set_dispatches (v : list Dispatch) (s : Pool) : Pool :=
  {| browsers := browsers s; heap := heap s; browserIdCounter := browserIdCounter s;
     taskQueue := taskQueue s; shuttingDown := shuttingDown s;
     launching := launching s; dispatches := v;
     settlements := settlements s; closeCalls := closeCalls s;
     phase := phase s; shutdownCalls := shutdownCalls s;
     shutdownsResolved := shutdownsResolved s |}.

Definition set_settlements (v : list (nat * Outcome)) (s : Pool) : Pool :=
  {| browsers := browsers s; heap := heap s; browserIdCounter := browserIdCounter s;
     taskQueue := taskQueue s; shuttingDown := shuttingDown s;
     launching := launching s; dispatches := dispatches s;
     settlements := v; closeCalls := closeCalls s;
     phase := phase s; shutdownCalls := shutdownCalls s;
     shutdownsResolved := shutdownsResolved s |}.

Definition set_closeCalls (v : list nat) (s : Pool) : Pool :=
  {| browsers := browsers s; heap := heap s; browserIdCounter := browserIdCounter s;
     taskQueue := taskQueue s; shuttingDown := shuttingDown s;
     launching := launching s; dispatches := dispatches s;
     settlements := settlements s; closeCalls := v;
     phase := phase s; shutdownCalls := shutdownCalls s;
     shutdownsResolved := shutdownsResolved s |}.

Definition set_phase (v : Phase) (s : Pool) : Pool :=
  {| browsers := browsers s; heap := heap s; browserIdCounter := browserIdCounter s;
     taskQueue := taskQueue s; shuttingDown := shuttingDown s;
     launching := launching s; dispatches := dispatches s;
     settlements := settlements s; closeCalls := closeCalls s;
     phase := v; shutdownCalls := shutdownCalls s;
     shutdownsResolved := shutdownsResolved s |}.

Definition set_shutdownCalls (v : list ShutdownCall) (s : Pool) : Pool :=
  {| browsers := browsers s; heap := heap s; browserIdCounter := browserIdCounter s;
     taskQueue := taskQueue s; shuttingDown := shuttingDown s;
     launching := launching s; dispatches := dispatches s;
     settlements := settlements s; closeCalls := closeCalls s;
     phase := phase s; shutdownCalls := v;
     shutdownsResolved := shutdownsResolved s |}.

Definition set_shutdownsResolved (v : nat) (s : Pool) : Pool :=
  {| browsers := browsers s; heap := heap s; browserIdCounter := browserIdCounter s;
     taskQueue := taskQueue s; shuttingDown := shuttingDown s;
     launching := launching s; dispatches := dispatches s;
     settlements := settlements s; closeCalls := closeCalls s;
     phase := phase s; shutdownCalls := shutdownCalls s;
     shutdownsResolved := v |}.

(** One-field updates of the mutable objects. *)
Definition b_set_connected (v : bool) (b : BrowserState) : BrowserState :=
  {| b_id := b_id b; busy := busy b; pagesOpen := pagesOpen b;
     b_type := b_type b; connected := v |}.

(** [availableBrowser.busy = true; availableBrowser.pagesOpen++] *)
Definition b_acquire (b : BrowserState) : BrowserState :=
  {| b_id := b_id b; busy := true; pagesOpen := pagesOpen b + 1;
     b_type := b_type b; connected := connected b |}.

(** [availableBrowser.pagesOpen--; availableBrowser.busy = false] *)
Definition b_release (b : BrowserState) : BrowserState :=
  {| b_id := b_id b; busy := false; pagesOpen := pagesOpen b - 1;
     b_type := b_type b; connected := connected b |}.

Definition d_set_execSettled (d : Dispatch) : Dispatch :=
  {| d_item := d_item d; d_browser := d_browser d; d_pre := d_pre d;
     taskCompleted := taskCompleted d; raceSettled := raceSettled d;
     execSettled := true; timerFired := timerFired d;
     released := released d |}.

Definition d_set_timerFired (d : Dispatch) : Dispatch :=
  {| d_item := d_item d; d_browser := d_browser d; d_pre := d_pre d;
     taskCompleted := taskCompleted d; raceSettled := raceSettled d;
     execSettled := execSettled d; timerFired := true;
     released := released d |}.

(** The race settles and its [.then] / [.catch] handler sets the latch. *)
Definition d_set_completed (d : Dispatch) : Dispatch :=
  {| d_item := d_item d; d_browser := d_browser d; d_pre := d_pre d;
     taskCompleted := true; raceSettled := true;
     execSettled := execSettled d; timerFired := timerFired d;
     released := released d |}.

(** The [.finally] handler runs. *)
Definition d_set_released (d : Dispatch) : Dispatch :=
  {| d_item := d_item d; d_browser := d_browser d; d_pre := d_pre d;
     taskCompleted := taskCompleted d; raceSettled := raceSettled d;
     execSettled := execSettled d; timerFired := timerFired d;
     released := true |}.

(** [browsers.findIndex(..)] followed by [browsers.splice(index, 1)]. *)
Fixpoint remove_first (id : nat) (l : list nat) : list nat :=
  match l with
  | [] => []
  | x :: l' => if Nat.eqb x id then l' else x :: remove_first id l'
  end.

Definition lookup_test (P : BrowserState -> bool) (s : Pool) (id : nat) : bool :=
  match heap s !! id with
  | Some b => P b
  | None => false
  end.

Definition isConnected (id : nat) (s : Pool) : bool := lookup_test connected s id.

(** [browsers.filter((b) => b.type === t).length] *)
Definition countOfType (t : BrowserType) (s : Pool) : nat :=
  List.length (List.filter (lookup_test (fun b => type_eqb (b_type b) t) s) (browsers s)).

Definition typeOf (id : nat) (s : Pool) : BrowserType :=
  from_option b_type TDefault (heap s !! id).

Definition requiredType (r : Requirements) : BrowserType :=
  if use_adblock r then TAdblock else TDefault.

Definition find_dispatch (tid : nat) (s : Pool) : option Dispatch :=
  List.find (fun d => Nat.eqb (d_tid d) tid) (dispatches s).

(** Mutation of the closure variables of the dispatch of task [tid]. *)
Definition upd (tid : nat) (f : Dispatch -> Dispatch) (ds : list Dispatch)
    : list Dispatch :=
  (fun d => if Nat.eqb (d_tid d) tid then f d else d) <$> ds.

Definition update_dispatch (tid : nat) (f : Dispatch -> Dispatch) (s : Pool) : Pool :=
  set_dispatches (upd tid f (dispatches s)) s.

(** What [queueTaskWithRequirements] returns: a promise already rejected, or
    a pending promise whose callbacks travel with queue item [taskId]. *)
Inductive Promise :=
| RejectedNow (error : PoolError)
| Pending (taskId : nat).

(** The turns of the event loop. *)
Inductive Event :=
| EvLaunchOk (i : nat)                       (* the i-th [chromium.launch] in flight resolves *)
| EvLaunchFail (i : nat) (message : string)  (* ... or rejects *)
| EvDisconnected (b : nat)                   (* browser [b] emits 'disconnected' *)
| EvTaskResolves (tid : nat) (r : Result)    (* the task's own promise resolves *)
| EvTaskRejects (tid : nat) (message : string)  (* ... or rejects with an [Error] *)
| EvTimerFires (tid : nat)                   (* the [setTimeout] of the dispatch of [tid] *)
| EvQueueTask (taskFunction : JsValue) (requirements : Requirements) (priority : Z)
| EvKillBrowser (browserInstance : nat) (replenish : bool)
                (specificTypeToReplenish : option string)
| EvShutdown
| EvCloseSettles (k : nat) (b : nat) (ok : bool)  (* a [close()] awaited by shutdown call [k] *)
| EvShutdownDone (k : nat)                   (* all closes settled and the 100ms pause is over *)
| EvTaskRejectsValue (tid : nat)             (* the task's own promise rejects with a value
                                                that has no string [message] *)
| EvFinally (tid : nat).                     (* the [.finally] handler of the dispatch of [tid] *)

(** ** The closure of [getBrowserPool] *)

Section Closure.
Context (cfg : Config).

(** [_launchBrowser(type)] up to [await chromium.launch(launchOptions)]. *)
Definition _launchBrowser (type : BrowserType) (k : LaunchCont) (s : Pool) : Pool :=
  let type' :=
    match type with
    | TAdblock =>
        if path_truthy (adblockExtensionPath cfg) then TAdblock else TDefault
    | _ => type
    end in
  set_launching (launching s ++ [{| l_type := type'; l_cont := k |}]) s.

(** [_launchBrowser] after the launch resolved: the new [browserState] is
    pushed onto the roster. *)
Definition launched (type : BrowserType) (s : Pool) : Pool :=
  let browserId := browserIdCounter s in
  let browserState :=
    {| b_id := browserId; busy := false; pagesOpen := 0;
       b_type := type; connected := true |} in
  set_browsers (browsers s ++ [browserId])
    (set_heap (<[browserId := browserState]> (heap s))
       (set_browserIdCounter (S browserId) s)).

Definition _removeBrowserFromPool (id : nat) (s : Pool) : Pool :=
  let s1 := set_browsers (remove_first id (browsers s)) s in
  if isConnected id s1 then set_closeCalls (id :: closeCalls s1) s1 else s1.

Definition suitable (t : BrowserType) (b : BrowserState) : bool :=
  negb (busy b)
  && (pagesOpen b <? Z.of_nat (maxPagesPerBrowser cfg))
  && type_eqb (b_type b) t
  && connected b.

Definition _findSuitableBrowser (taskRequirements : Requirements) (s : Pool)
    : option nat :=
  List.find (lookup_test (suitable (requiredType taskRequirements)) s) (browsers s).

(** The dispatch branch of [_processQueue], after [taskQueue.dequeue()]. *)
Definition dispatch (queuedItem : QueueItem) (availableBrowser : nat) (s : Pool)
    : Pool :=
  let pre := from_option pagesOpen 0 (heap s !! availableBrowser) in
  let s1 := set_heap (alter b_acquire availableBrowser (heap s)) s in
  set_dispatches
    ({| d_item := queuedItem; d_browser := availableBrowser; d_pre := pre;
        taskCompleted := false; raceSettled := false;
        execSettled := false; timerFired := false;
        released := false |} :: dispatches s1) s1.

Definition _processQueue (s : Pool) : Pool :=
  if shuttingDown s || PriorityQueue.isEmpty (taskQueue s) then s
  else
    match PriorityQueue.items (taskQueue s) with
    | [] => s
    | nextTaskItem :: _ =>
        match _findSuitableBrowser (q_requirements nextTaskItem) s with
        | Some availableBrowser =>
            match PriorityQueue.dequeue (taskQueue s) with
            | (Some queuedItem, q') =>
                dispatch queuedItem availableBrowser (set_taskQueue q' s)
            | (None, _) => s
            end
        | None =>
            let requiredType := requiredType (q_requirements nextTaskItem) in
            let totalOfType := countOfType requiredType s in
            if (totalOfType <? maxOfType cfg requiredType)%nat
            then _launchBrowser requiredType KOnDemand s
            else s
        end
    end.

(** The body of the [.finally] handler before it calls [_processQueue]. *)
Definition release (id : nat) (s : Pool) : Pool :=
  set_heap (alter b_release id (heap s)) s.

(** [Promise.race] settles and its [.then] or [.catch] handler runs.  The
    handler sets the latch and settles the caller's promise with [o].  The
    [.catch] handler logs [error.message.split("\n")[0]] between the two:
    for a rejection value without a string [message] that line throws, the
    latch is set and [queuedItem.reject] is not reached ([o = None]).  The
    timeout error and the errors of the pool's own task functions are
    [Error] objects. *)
Definition raceSettle (d : Dispatch) (o : option Outcome) (s : Pool) : Pool :=
  let s1 := update_dispatch (d_tid d) d_set_completed s in
  match o with
  | Some o => set_settlements ((d_tid d, o) :: settlements s1) s1
  | None => s1
  end.

(** [taskExecutionPromise] settles; [o] as for [raceSettle]. *)
Definition execSettles (tid : nat) (o : option Outcome) (s : Pool) : Pool :=
  match find_dispatch tid s with
  | Some d =>
      if execSettled d then s
      else
        let s1 := update_dispatch tid d_set_execSettled s in
        if raceSettled d then s1 else raceSettle d o s1
  | None => s
  end.

(** The [setTimeout] callback: [if (!taskCompleted) reject(new Error(..))].
    The rejection of [timeoutPromise] settles the race unless it has settled
    already. *)
Definition timerFires (tid : nat) (s : Pool) : Pool :=
  match find_dispatch tid s with
  | Some d =>
      if timerFired d then s
      else
        let s1 := update_dispatch tid d_set_timerFired s in
        if taskCompleted d then s1
        else if raceSettled d then s1
        else raceSettle d (Some (Rejected (ErrTimedOut tid))) s1
  | None => s
  end.

(** The [.finally] handler of the dispatch of [tid].  It is a promise
    reaction of its own: it runs once, after the [.then] / [.catch] handler
    (also when that handler threw), and after whatever the settled caller's
    promise had scheduled before, such as the caller's continuation. *)
Definition finallyRuns (tid : nat) (s : Pool) : Pool :=
  match find_dispatch tid s with
  | Some d =>
      if raceSettled d && negb (released d)
      then _processQueue
             (release (d_browser d) (update_dispatch tid d_set_released s))
      else s
  | None => s
  end.

(** The ['disconnected'] handler registered by [_launchBrowser]. *)
Definition onDisconnected (id : nat) (type : BrowserType) (s : Pool) : Pool :=
  let s1 := _removeBrowserFromPool id s in
  if shuttingDown s1 then s1
  else
    let currentOfTypeCount := countOfType type s1 in
    let s2 :=
      if (currentOfTypeCount <? maxOfType cfg type)%nat
      then _launchBrowser type KCrash s1
      else s1 in
    _processQueue s2.

(** The browser emits ['disconnected'] (once): its handle stops being
    connected, then the handler runs. *)
Definition disconnected (id : nat) (s : Pool) : Pool :=
  match heap s !! id with
  | Some b =>
      if connected b
      then onDisconnected id (b_type b)
             (set_heap (alter (b_set_connected false) id (heap s)) s)
      else s
  | None => s
  end.

Definition queueTaskWithRequirements (taskFunction : JsValue)
    (requirements : Requirements) (priority : Z) (s : Pool) : Promise * Pool :=
  if shuttingDown s then (RejectedNow ErrShuttingDownNoNewTasks, s)
  else
    match taskFunction with
    | JsNotCallable => (RejectedNow ErrTaskMustBeFunction, s)
    | JsFunction name =>
        if use_adblock requirements && negb (path_truthy (adblockExtensionPath cfg))
        then (RejectedNow ErrNoAdblockPath, s)
        else if use_adblock requirements && Nat.eqb (pool_size_adblock cfg) 0
        then (RejectedNow ErrAdblockPoolZero, s)
        else
          let '(taskId, q) :=
            PriorityQueue.enqueue name priority requirements (taskQueue s) in
          (Pending taskId, _processQueue (set_taskQueue q s))
    end.

(** [killBrowser(browserInstance, replenish, specificTypeToReplenish)]; the
    third argument is a string or [null] ([None]).
    [specificTypeToReplenish || browserState.type]: the empty string is
    falsy as well. *)
Definition killBrowser (browserInstance : nat) (replenish : bool)
    (specificTypeToReplenish : option string) (s : Pool) : Pool :=
  match List.find (Nat.eqb browserInstance) (browsers s) with
  | Some id =>
      let typeToReplenish :=
        match specificTypeToReplenish with
        | Some name =>
            if String.eqb name EmptyString then typeOf id s
            else type_of_string name
        | None => typeOf id s
        end in
      let s1 := _removeBrowserFromPool id s in
      if replenish && negb (shuttingDown s1) then
        let currentOfTypeCount := countOfType typeToReplenish s1 in
        if (currentOfTypeCount <? maxOfType cfg typeToReplenish)%nat
        then _launchBrowser typeToReplenish KKill s1
        else s1
      else s1
  | None =>
      if isConnected browserInstance s
      then set_closeCalls (browserInstance :: closeCalls s) s
      else s
  end.

(** [while (!taskQueue.isEmpty()) { taskQueue.dequeue().reject(..) }] *)
Fixpoint drain (l : list QueueItem) (log : list (nat * Outcome))
    : list (nat * Outcome) :=
  match l with
  | [] => log
  | queuedItem :: rest =>
      drain rest ((q_id queuedItem, Rejected ErrTaskCancelled) :: log)
  end.

(** [shutdown] up to [await Promise.all(closePromises)]. *)
Definition shutdown (from_init : bool) (s : Pool) : Pool :=
  let s1 := set_shuttingDown true s in
  let q := taskQueue s1 in
  let s2 :=
    set_taskQueue
      {| PriorityQueue.items := [];
         PriorityQueue.taskIdCounter := PriorityQueue.taskIdCounter q |}
      (set_settlements (drain (PriorityQueue.items q) (settlements s1)) s1) in
  let browsersToClose := browsers s2 in
  let s3 := set_closeCalls (rev browsersToClose ++ closeCalls s2) s2 in
  set_shutdownCalls
    (shutdownCalls s3
     ++ [{| sd_pending := browsersToClose; sd_from_init := from_init |}]) s3.

(** One [await browserState.browser.close()] of shutdown call [k] settles.
    A successful [close()] resolves only after the browser has emitted
    ['disconnected'] (the Playwright contract the source relies on: it is
    the disconnect handler that takes a closed browser off the roster); a
    failed one runs the [catch], which removes the browser itself. *)
Definition closeSettles (k b : nat) (ok : bool) (s : Pool) : Pool :=
  match shutdownCalls s !! k with
  | Some c =>
      if bool_decide (b ∈ sd_pending c) then
        let c' := {| sd_pending := remove_first b (sd_pending c);
                     sd_from_init := sd_from_init c |} in
        let s1 := set_shutdownCalls (<[k := c']> (shutdownCalls s)) s in
        if ok then disconnected b s1 else _removeBrowserFromPool b s1
      else s
  | None => s
  end.

Definition initError (s : Pool) : PoolError :=
  match phase s with
  | InitFailing message => ErrInitializationFailed message
  | _ => ErrInitializationFailed EmptyString
  end.

(** Shutdown call [k] resumes after [Promise.all] and the 100ms pause. *)
Definition shutdownDone (k : nat) (s : Pool) : Pool :=
  match shutdownCalls s !! k with
  | Some c =>
      match sd_pending c with
      | [] =>
          let s1 :=
            set_shutdownsResolved (S (shutdownsResolved s))
              (set_shutdownCalls (delete k (shutdownCalls s)) s) in
          if sd_from_init c then set_phase (InitFailed (initError s1)) s1 else s1
      | _ :: _ => s
      end
  | None => s
  end.

Definition warmupPending (s : Pool) : bool :=
  existsb (fun l => bool_decide (l_cont l = KWarmup)) (launching s).

Definition launchSucceeds (i : nat) (s : Pool) : Pool :=
  match launching s !! i with
  | Some l =>
      let s1 := launched (l_type l) (set_launching (delete i (launching s)) s) in
      match l_cont l with
      | KWarmup =>
          (* [Promise.all] resolves with the last of its members *)
          match phase s1 with
          | Constructing => if warmupPending s1 then s1 else set_phase Ready s1
          | _ => s1
          end
      | KOnDemand => _processQueue s1
      | KCrash => s1
      | KKill => _processQueue s1
      end
  | None => s
  end.

Definition launchFails (i : nat) (message : string) (s : Pool) : Pool :=
  match launching s !! i with
  | Some l =>
      let s1 := set_launching (delete i (launching s)) s in
      match l_cont l with
      | KWarmup =>
          (* [Promise.all] rejects with the first rejection *)
          match phase s1 with
          | Constructing => shutdown true (set_phase (InitFailing message) s1)
          | _ => s1
          end
      | _ => s1
      end
  | None => s
  end.

Definition emptyPool : Pool :=
  {| browsers := []; heap := ∅; browserIdCounter := 0;
     taskQueue := PriorityQueue.new; shuttingDown := false;
     launching := []; dispatches := []; settlements := []; closeCalls := [];
     phase := Constructing; shutdownCalls := []; shutdownsResolved := 0 |}.

(** [getBrowserPool] up to [await Promise.all(browserLaunchPromises)]:
    [None] when it throws on the configuration. *)
Definition getBrowserPool : option Pool :=
  if (0 <? pool_size_adblock cfg)%nat && negb (path_truthy (adblockExtensionPath cfg))
  then None
  else
    let s1 := Nat.iter (pool_size_default cfg) (_launchBrowser TDefault KWarmup)
                emptyPool in
    let s2 :=
      if (0 <? pool_size_adblock cfg)%nat && path_truthy (adblockExtensionPath cfg)
      then Nat.iter (pool_size_adblock cfg) (_launchBrowser TAdblock KWarmup) s1
      else s1 in
    Some (if warmupPending s2 then s2 else set_phase Ready s2).

(** The pool object exists for callers once [getBrowserPool] has returned. *)
Definition returned (s : Pool) : bool :=
  match phase s with Ready => true | _ => false end.

Definition step (s : Pool) (e : Event) : Pool :=
  match e with
  | EvLaunchOk i => launchSucceeds i s
  | EvLaunchFail i message => launchFails i message s
  | EvDisconnected b => disconnected b s
  | EvTaskResolves tid r => execSettles tid (Some (Resolved r)) s
  | EvTaskRejects tid message =>
      execSettles tid (Some (Rejected (ErrJob message))) s
  | EvTaskRejectsValue tid => execSettles tid None s
  | EvFinally tid => finallyRuns tid s
  | EvTimerFires tid => timerFires tid s
  | EvQueueTask f r p =>
      if returned s then (queueTaskWithRequirements f r p s).2 else s
  | EvKillBrowser h r t => if returned s then killBrowser h r t s else s
  | EvShutdown => if returned s then shutdown false s else s
  | EvCloseSettles k b ok => closeSettles k b ok s
  | EvShutdownDone k => shutdownDone k s
  end.

Definition run (s : Pool) (es : list Event) : Pool := foldl step s es.

Inductive reachable : Pool -> Prop :=
| reachable_init s : getBrowserPool = Some s -> reachable s
| reachable_step s e : reachable s -> reachable (step s e).

(** [getStats()] without the echoed configuration. *)
Record Stats := {
  totalBrowsers : nat;
  defaultBrowsers : nat;
  adblockBrowsers : nat;
  busyBrowsers : nat;
  idleBrowsers : nat;
  queuedTasks : nat
}.

Definition getStats (s : Pool) : Stats :=
  {| totalBrowsers := List.length (browsers s);
     defaultBrowsers := countOfType TDefault s;
     adblockBrowsers := countOfType TAdblock s;
     busyBrowsers := List.length (List.filter (lookup_test busy s) (browsers s));
     idleBrowsers :=
       List.length (List.filter (lookup_test (fun b => negb (busy b)) s) (browsers s));
     queuedTasks := PriorityQueue.length (taskQueue s) |}.

End Closure.

(** ** The task functions built by [createScreenshotTask] and
    [createScreencastTask]

    Both wrap one attempt (open a context, navigate, capture, close) in the
    same retry loop.  What an attempt does is the business of Playwright and
    of the page; here attempt number [k] (counted from 1) either returns a
    buffer or throws an error with a message.  [max_retries] is an integer
    (the default is 0). *)
Inductive AttemptResult :=
| AttemptOk (buffer : Result)
| AttemptErr (message : string).

Inductive TaskOutcome :=
| TaskReturned (buffer : Result)
| TaskThrew (message : string)   (* [throw error], the error of an attempt *)
| TaskUnknownError.              (* the [throw new Error("... Unknown error ...")] after the loop *)

(** How a call of the task function ended, with the value of [attempt] and
    the total time (ms) spent in the back-off [setTimeout]s (ghost). *)
Record TaskRun := {
  tr_outcome : TaskOutcome;
  tr_attempts : Z;
  tr_slept : Z
}.

(** [while (attempt <= max_retries) { try { attempt++; ...; return buffer }
    catch (error) { ...; if (attempt > max_retries) throw error;
    await sleep(backoff(attempt)) } }  throw new Error(unknown)].
    [None]: out of fuel. *)
Fixpoint retryLoop (backoff : Z -> Z) (max_retries : Z)
    (body : Z -> AttemptResult) (fuel : nat) (attempt slept : Z) : option TaskRun :=
  match fuel with
  | O => None
  | S fuel' =>
      if attempt <=? max_retries then
        let attempt := attempt + 1 in
        match body attempt with
        | AttemptOk buffer =>
            Some {| tr_outcome := TaskReturned buffer;
                    tr_attempts := attempt; tr_slept := slept |}
        | AttemptErr message =>
            if attempt >? max_retries
            then Some {| tr_outcome := TaskThrew message;
                         tr_attempts := attempt; tr_slept := slept |}
            else retryLoop backoff max_retries body fuel' attempt
                   (slept + backoff attempt)
        end
      else Some {| tr_outcome := TaskUnknownError;
                   tr_attempts := attempt; tr_slept := slept |}
  end.

(** The loop started with [attempt = 0], with fuel for every iteration it
    can make. *)
Definition taskFnRun (backoff : Z -> Z) (max_retries : Z)
    (body : Z -> AttemptResult) : option TaskRun :=
  retryLoop backoff max_retries body (S (Z.to_nat (max_retries + 1))) 0 0.

(** [setTimeout(resolve, 1000 * attempt)] *)
Definition screenshot_backoff (attempt : Z) : Z := 1000 * attempt.

(** [setTimeout(resolve, 1000 * attempt * (attempt > 1 ? 2 : 1))] *)
Definition screencast_backoff (attempt : Z) : Z :=
  1000 * attempt * (if attempt >? 1 then 2 else 1).

(** The back-offs after attempts [a + 1], ..., [a + n]. *)
Fixpoint backoff_sum (backoff : Z -> Z) (a : Z) (n : nat) : Z :=
  match n with
  | O => 0
  | S n' => backoff (a + 1) + backoff_sum backoff (a + 1) n'
  end.

(** ** Task objects and the queueing facades

    The argument of the two factories, as far as it is read outside the
    attempts: the other options (viewport, device, selectors to wait for,
    actions, [max_retries]) only reach the body of the task function.
    [opt_url = None] stands for a [url] that is not a string (left out, for
    instance); [cookie_banner_selectors = None] for a falsy value such as
    [null] (a missing one is replaced by the default [[]]). *)
Record TaskOptions := {
  opt_url : option string;
  opt_use_adblock : bool;
  accept_cookie_banners : bool;
  cookie_banner_selectors : option (list string)
}.

(** What the facades look at in their first argument: [taskFn], whether
    [requirements] is truthy (and then whether its [use_adblock] is), and
    whether [originalUrl] is a string. *)
Record TaskObject := {
  taskFn : JsValue;
  requirements : option Requirements;
  originalUrl : option string
}.

Inductive Created :=
| ThrewSelectorsMissing   (* "If accept_cookie_banners is true, cookie_banner_selectors must be specified." *)
| Made (task : TaskObject).

(** [!cookie_banner_selectors || cookie_banner_selectors.length === 0] *)
Definition selectors_missing (o : TaskOptions) : bool :=
  match cookie_banner_selectors o with
  | None => true
  | Some l => Nat.eqb (List.length l) 0
  end.

(** The task function is labelled by the url it was built for, as in its
    log lines. *)
Definition createScreenshotTask (o : TaskOptions) : Created :=
  if accept_cookie_banners o && selectors_missing o then ThrewSelectorsMissing
  else
    let taskRequirements := {| use_adblock := opt_use_adblock o |} in
    Made {| taskFn := JsFunction (default "undefined"%string (opt_url o));
            requirements := Some taskRequirements;
            originalUrl := opt_url o |}.

(** Differs from [createScreenshotTask] in what an attempt does and in a
    warning when no actions are given. *)
Definition createScreencastTask (o : TaskOptions) : Created :=
  if accept_cookie_banners o && selectors_missing o then ThrewSelectorsMissing
  else
    let taskRequirements := {| use_adblock := opt_use_adblock o |} in
    Made {| taskFn := JsFunction (default "undefined"%string (opt_url o));
            requirements := Some taskRequirements;
            originalUrl := opt_url o |}.

(** What a facade returns: its own rejection, or the promise of
    [queueTaskWithRequirements]. *)
Inductive FacadePromise :=
| InvalidTaskObject       (* "Invalid task object. Use create...Task to generate it. ..." *)
| Forwarded (p : Promise).

Definition queueScreenshotTask (cfg : Config)
    (screenshotTaskObject : option TaskObject) (priority : Z) (s : Pool)
    : FacadePromise * Pool :=
  match screenshotTaskObject with
  | None => (InvalidTaskObject, s)
  | Some task =>
      match taskFn task, requirements task, originalUrl task with
      | JsFunction _, Some r, Some _ =>
          let '(p, s') :=
            queueTaskWithRequirements cfg (taskFn task) r priority s in
          (Forwarded p, s')
      | _, _, _ => (InvalidTaskObject, s)
      end
  end.

Definition queueScreencastTask (cfg : Config)
    (screencastTaskObject : option TaskObject) (priority : Z) (s : Pool)
    : FacadePromise * Pool :=
  match screencastTaskObject with
  | None => (InvalidTaskObject, s)
  | Some task =>
      match taskFn task, requirements task, originalUrl task with
      | JsFunction _, Some r, Some _ =>
          let '(p, s') :=
            queueTaskWithRequirements cfg (taskFn task) r priority s in
          (Forwarded p, s')
      | _, _, _ => (InvalidTaskObject, s)
      end
  end.

(** * Vocabulary of the properties *)

Import PriorityQueue.

(** Dispatches that still hold browser [b]: their [.finally] handler has
    not run. *)
Definition holding (b : nat) (ds : list Dispatch) : nat :=
  List.length
    (List.filter (fun d => negb (released d) && Nat.eqb (d_browser d) b) ds).

Definition holdingOn (b : nat) (s : Pool) : nat := holding b (dispatches s).

(** Dispatched tasks whose own execution is still running on browser [b],
    whether or not their race has settled. *)
Definition executingOn (b : nat) (s : Pool) : nat :=
  List.length
    (List.filter (fun d => negb (execSettled d) && Nat.eqb (d_browser d) b)
       (dispatches s)).

(** The order of the queue: higher priority first, earlier id first among
    equal priorities. *)
Definition before (a b : QueueItem) : Prop :=
  q_priority b < q_priority a
  \/ (q_priority a = q_priority b /\ (q_id a < q_id b)%nat).

(** Updates that only touch the flags of a dispatch. *)
Record flag_update (f : Dispatch -> Dispatch) : Prop := {
  fu_item d : d_item (f d) = d_item d;
  fu_browser d : d_browser (f d) = d_browser d;
  fu_pre d : d_pre (f d) = d_pre d
}.

(** A fresh dispatch record for the item just taken from the queue. *)
Definition fresh_dispatch (d : Dispatch) : Prop :=
  taskCompleted d = false /\ raceSettled d = false
  /\ execSettled d = false /\ timerFired d = false /\ released d = false.

(** The queue alone. *)
Record InvQ (q : PriorityQueue.t) : Prop := {
  q_sorted : StronglySorted before (items q);
  q_ids : forall x, x ∈ items q -> (q_id x < taskIdCounter q)%nat;
  q_nodup : NoDup (q_id <$> items q)
}.

(** Task ids across the queue, the dispatch records and the settlement log. *)
Record InvT (q : PriorityQueue.t) (ds : list Dispatch) (st : list (nat * Outcome))
    : Prop := {
  t_dids : forall d, d ∈ ds -> (d_tid d < taskIdCounter q)%nat;
  t_dnodup : NoDup (d_tid <$> ds);
  t_sids : forall tid, tid ∈ st.*1 -> (tid < taskIdCounter q)%nat;
  t_snodup : NoDup (st.*1);
  t_q_d : forall x d, x ∈ items q -> d ∈ ds -> q_id x <> d_tid d;
  t_q_s : forall x, x ∈ items q -> q_id x ∉ st.*1;
  t_d_s : forall d, d ∈ ds -> d_tid d ∈ st.*1 -> raceSettled d = true;
  t_latch : forall d, d ∈ ds -> taskCompleted d = raceSettled d;
  t_exec : forall d, d ∈ ds -> execSettled d = true -> raceSettled d = true;
  t_timer : forall d, d ∈ ds -> timerFired d = true -> raceSettled d = true;
  t_rel : forall d, d ∈ ds -> released d = true -> raceSettled d = true
}.

(** The browser objects and the dispatches that hold them. *)
Record InvB (cfg : Config) (h : gmap nat BrowserState) (r : list nat) (c : nat)
    (ds : list Dispatch) : Prop := {
  b_heap_lt : forall b, is_Some (h !! b) -> (b < c)%nat;
  b_roster : forall b, b ∈ r -> is_Some (h !! b);
  b_dheap : forall d, d ∈ ds -> is_Some (h !! d_browser d);
  b_dpre : forall d, d ∈ ds -> d_pre d = 0;
  b_hold1 : forall b, (holding b ds <= 1)%nat;
  b_holdmax : forall b, (holding b ds <= maxPagesPerBrowser cfg)%nat;
  b_pages : forall b bs, h !! b = Some bs -> pagesOpen bs = Z.of_nat (holding b ds);
  b_busy : forall b bs, h !! b = Some bs -> busy bs = true <-> holding b ds = 1%nat
}.

(** The invariant of the pool. *)
Definition Inv (cfg : Config) (s : Pool) : Prop :=
  InvQ (taskQueue s)
  /\ InvT (taskQueue s) (dispatches s) (settlements s)
  /\ InvB cfg (heap s) (browsers s) (browserIdCounter s) (dispatches s).

(** The events that can settle the race of the dispatch of task [tid]. *)
Definition settlement_of (tid : nat) (e : Event) : Prop :=
  (exists r, e = EvTaskResolves tid r)
  \/ (exists m, e = EvTaskRejects tid m)
  \/ e = EvTimerFires tid
  \/ e = EvTaskRejectsValue tid.

(** The race of the dispatch of [tid] on browser [b] has settled and its
    [.finally] handler has not run yet. *)
Definition awaiting_finally (tid b : nat) (ds : list Dispatch) : Prop :=
  exists d, d ∈ ds /\ d_tid d = tid /\ d_browser d = b
            /\ raceSettled d = true /\ released d = false.

(** The race of the dispatch of [tid] has settled without a call of
    [resolve] or [reject]. *)
Definition latched_unsettled (tid : nat) (s : Pool) : Prop :=
  (exists d, d ∈ dispatches s /\ d_tid d = tid /\ raceSettled d = true)
  /\ tid ∉ (settlements s).*1.

(** The gate.  A step either leaves [shuttingDown] as it is, and the queue
    too when the gate is set, or it is a [shutdown], which sets the gate and
    empties the queue. *)
Definition Frame (s s' : Pool) : Prop :=
  shuttingDown s' = shuttingDown s
  /\ (shuttingDown s = true -> taskQueue s' = taskQueue s).

(** ** Concrete pools *)

Definition start (cfg : Config) : Pool := default (emptyPool) (getBrowserPool cfg).

(** One default browser, no adblock browsers, one page per browser. *)
Definition cfg_one : Config :=
  {| pool_size_default := 1; pool_size_adblock := 0;
     adblockExtensionPath := None; maxPagesPerBrowser := 1;
     taskTimeoutMs := 60000 |}.

(** Two default browsers. *)
Definition cfg_two : Config :=
  {| pool_size_default := 2; pool_size_adblock := 0;
     adblockExtensionPath := None; maxPagesPerBrowser := 1;
     taskTimeoutMs := 60000 |}.

Definition plain : Requirements := {| use_adblock := false |}.
Definition with_adblock : Requirements := {| use_adblock := true |}.

(** Warm-up done, task 0 running on browser 0, and three more tasks queued
    behind it: "B" at priority 0, then "C" and "D" at priority 5. *)
Definition s_queued : Pool :=
  run cfg_one (start cfg_one)
    [EvLaunchOk 0;
     EvQueueTask (JsFunction "A") plain 0;
     EvQueueTask (JsFunction "B") plain 0;
     EvQueueTask (JsFunction "C") plain 5;
     EvQueueTask (JsFunction "D") plain 5].

(** Browser 0 of [s_queued] is held by the dispatch of task 0. *)
Definition d_running : Dispatch :=
  {| d_item := {| q_task := "A"; q_priority := 0;
                  q_requirements := plain; q_id := 0 |};
     d_browser := 0; d_pre := 0;
     taskCompleted := false; raceSettled := false;
     execSettled := false; timerFired := false; released := false |}.

(** Inside [queueTaskWithRequirements], between [taskQueue.enqueue] and the
    call of [_processQueue]: the first task is queued and browser 0 is idle. *)
Definition s_enqueued : Pool :=
  let s := run cfg_one (start cfg_one) [EvLaunchOk 0] in
  set_taskQueue (enqueue "A" 0 plain (taskQueue s)).2 s.

(** Task 0 of [s_queued] times out; its late result changes nothing. *)
Definition s_timed_out : Pool := step cfg_one s_queued (EvTimerFires 0).

(** Task "A" is dispatched to browser 0 and times out; its execution is not
    cancelled.  [.finally] frees the browser, and task "B" is then dispatched
    to it. *)
Definition s_overlap : Pool :=
  run cfg_one (start cfg_one)
    [EvLaunchOk 0;
     EvQueueTask (JsFunction "A") plain 0;
     EvTimerFires 0;
     EvFinally 0;
     EvQueueTask (JsFunction "B") plain 0].

(** Task "A" is dispatched to browser 0 and rejects with a value that is no
    [Error] (the string ["boom"], say): the [.catch] handler sets the latch
    and throws at its log line. *)
Definition s_never_settled : Pool :=
  run cfg_one (start cfg_one)
    [EvLaunchOk 0;
     EvQueueTask (JsFunction "A") plain 0;
     EvTaskRejectsValue 0].

(** Cap 1.  Task "A" runs on the only browser and "B" waits.  The browser
    crashes: the disconnect handler sees 0 < 1 and starts a replacement, then
    calls [_processQueue], which sees 0 < 1 as well (the replacement is still
    launching) and starts another browser for "B".  Both launches succeed. *)
Definition s_over_cap : Pool :=
  run cfg_one (start cfg_one)
    [EvLaunchOk 0;
     EvQueueTask (JsFunction "A") plain 0;
     EvQueueTask (JsFunction "B") plain 0;
     EvDisconnected 0;
     EvLaunchOk 0;
     EvLaunchOk 0].

(** Cap 1.  [killBrowser(browser, true, "webkit")] on the only browser: it
    leaves the roster, no browser of type ["webkit"] is on the roster,
    [0 < pool_size_default], and a replacement is launched with the default
    options and stored with type ["webkit"]. *)
Definition s_other_type : Pool :=
  run cfg_one (start cfg_one)
    [EvLaunchOk 0;
     EvKillBrowser 0 true (Some "webkit");
     EvLaunchOk 0].

(** Cap 1.  The only browser crashes and its replacement is still launching
    when [shutdown] is called: the roster is empty, so nothing is closed.
    The launch then completes and the call resolves. *)
Definition s_after_shutdown : Pool :=
  run cfg_one (start cfg_one)
    [EvLaunchOk 0;
     EvDisconnected 0;
     EvShutdown;
     EvLaunchOk 0;
     EvShutdownDone 0].

(** Two warm-up launches.  The first fails while the second is still in
    flight: [Promise.all] rejects at once, the [catch] shuts down a roster
    that is still empty, and the second launch succeeds afterwards. *)
Definition s_init_failed : Pool :=
  run cfg_two (start cfg_two)
    [EvLaunchFail 0 "spawn ENOENT";
     EvLaunchOk 0;
     EvShutdownDone 0].

(** ** The primitive moves of a turn

    Every turn of the event loop is a sequence of the mutations below, each
    under the guard the source puts in front of it. *)
Inductive move (cfg : Config) (s : Pool) : Pool -> Prop :=
| m_launchStart t k :
    shuttingDown s = false ->
    (countOfType t s < maxOfType cfg t)%nat ->
    move cfg s (_launchBrowser cfg t k s)
| m_launched i l :
    launching s !! i = Some l ->
    move cfg s (launched (l_type l) (set_launching (delete i (launching s)) s))
| m_launchFailed i l :
    launching s !! i = Some l ->
    move cfg s (set_launching (delete i (launching s)) s)
| m_remove id :
    move cfg s (set_browsers (remove_first id (browsers s)) s)
| m_close l :
    move cfg s (set_closeCalls (l ++ closeCalls s) s)
| m_disconnect id bs :
    heap s !! id = Some bs -> connected bs = true ->
    move cfg s
      (set_browsers (remove_first id (browsers s))
         (set_heap (alter (b_set_connected false) id (heap s)) s))
| m_enqueue name priority requirements :
    shuttingDown s = false ->
    move cfg s
      (set_taskQueue (enqueue name priority requirements (taskQueue s)).2 s)
| m_dispatch x rest a :
    shuttingDown s = false ->
    items (taskQueue s) = x :: rest ->
    _findSuitableBrowser cfg (q_requirements x) s = Some a ->
    move cfg s
      (dispatch x a
         (set_taskQueue {| items := rest;
                           taskIdCounter := taskIdCounter (taskQueue s) |} s))
| m_mark d g :
    d ∈ dispatches s -> raceSettled d = true ->
    g = d_set_execSettled \/ g = d_set_timerFired ->
    move cfg s (update_dispatch (d_tid d) g s)
| m_settle d g o :
    d ∈ dispatches s -> raceSettled d = false ->
    g = d_set_execSettled \/ g = d_set_timerFired ->
    o <> Rejected ErrTaskCancelled ->
    move cfg s
      (set_settlements ((d_tid d, o) :: settlements s)
         (update_dispatch (d_tid d) d_set_completed
            (update_dispatch (d_tid d) g s)))
| m_latch d :
    d ∈ dispatches s -> raceSettled d = false ->
    move cfg s
      (update_dispatch (d_tid d) d_set_completed
         (update_dispatch (d_tid d) d_set_execSettled s))
| m_release d :
    d ∈ dispatches s -> raceSettled d = true -> released d = false ->
    move cfg s
      (release (d_browser d) (update_dispatch (d_tid d) d_set_released s))
| m_gate :
    move cfg s
      (set_taskQueue {| items := [];
                        taskIdCounter := taskIdCounter (taskQueue s) |}
         (set_settlements (drain (items (taskQueue s)) (settlements s))
            (set_shuttingDown true s)))
| m_phase p : move cfg s (set_phase p s)
| m_shutdownCalls v : move cfg s (set_shutdownCalls v s)
| m_shutdownsResolved v : move cfg s (set_shutdownsResolved v s).

(** Well-formedness of the roster. *)
Definition roster_ok (s : Pool) : Prop :=
  NoDup (browsers s)
  /\ (forall b bs, heap s !! b = Some bs -> b_id bs = b)
  /\ (forall b, b ∈ browsers s ->
        exists bs, heap s !! b = Some bs /\ connected bs = true).

(** Where a task can be: in the queue, handed to a browser, or cancelled by
    [shutdown]. *)
Definition queued (s : Pool) (tid : nat) : Prop :=
  tid ∈ q_id <$> items (taskQueue s).

Definition dispatched (s : Pool) (tid : nat) : Prop :=
  tid ∈ d_tid <$> dispatches s.

Definition cancelled (s : Pool) (tid : nat) : Prop :=
  (tid, Rejected ErrTaskCancelled) ∈ settlements s.

Definition accounted (s : Pool) : Prop :=
  (forall tid, (tid < taskIdCounter (taskQueue s))%nat ->
     queued s tid \/ dispatched s tid \/ cancelled s tid)
  /\ (forall tid, cancelled s tid -> ~ dispatched s tid).

(** What a turn may do once the gate is set: it starts no launch, hands no
    task to a browser and queues none. *)
Definition winding_down (s s' : Pool) : Prop :=
  shuttingDown s' = true
  /\ (List.length (launching s') <= List.length (launching s))%nat
  /\ d_tid <$> dispatches s' = d_tid <$> dispatches s
  /\ (List.length (items (taskQueue s')) <= List.length (items (taskQueue s)))%nat.

(** No adblock browser exists or is being launched. *)
Definition no_adblock (s : Pool) : Prop :=
  (forall l, l ∈ launching s -> l_type l <> TAdblock)
  /\ (forall b bs, heap s !! b = Some bs -> b_type bs <> TAdblock).

(** Nothing was ever dispatched; the only promises settled are those of
    tasks cancelled by [shutdown]. *)
Definition never_dispatched (s : Pool) : Prop :=
  dispatches s = []
  /\ (forall e, e ∈ settlements s -> e.2 = Rejected ErrTaskCancelled).

(** One default browser that accepts no page. *)
Definition cfg_zero_pages : Config :=
  {| pool_size_default := 1; pool_size_adblock := 0;
     adblockExtensionPath := None; maxPagesPerBrowser := 0;
     taskTimeoutMs := 60000 |}.

Definition s_zero_pages : Pool :=
  run cfg_zero_pages (start cfg_zero_pages)
    [EvLaunchOk 0;
     EvQueueTask (JsFunction "A") plain 0;
     EvQueueTask (JsFunction "B") plain 1;
     EvShutdown].

(** Launches of type [t] in flight. *)
Definition inflight (t : BrowserType) (s : Pool) : nat :=
  List.length (List.filter (fun l => type_eqb (l_type l) t) (launching s)).

(** The pool during a warm-up in which no launch has failed. *)
Definition warming (cfg : Config) (s : Pool) : Prop :=
  (forall l, l ∈ launching s -> l_cont l = KWarmup)
  /\ (forall t, (countOfType t s + inflight t s)%nat
                = match t with TOther _ => 0%nat | _ => maxOfType cfg t end)
  /\ phase s = (if warmupPending s then Constructing else Ready)
  /\ dispatches s = [].

(** Two default and two adblock browsers. *)
Definition cfg_mixed : Config :=
  {| pool_size_default := 2; pool_size_adblock := 2;
     adblockExtensionPath := Some "/ext/ublock"; maxPagesPerBrowser := 1;
     taskTimeoutMs := 60000 |}.

(** Two idle default browsers, nothing queued. *)
Definition s_idle_two : Pool :=
  run cfg_two (start cfg_two) [EvLaunchOk 0; EvLaunchOk 0].

(** A step that is no part of a [shutdown] leaves the suspended shutdown
    calls and the count of resolved ones alone. *)
Definition same_calls (s s' : Pool) : Prop :=
  shutdownCalls s' = shutdownCalls s
  /\ shutdownsResolved s' = shutdownsResolved s.

(** The pool is winding down with no launch in flight: every suspended
    [shutdown] still waits for all browsers of the roster, [close()] has
    been called on the browsers [closed], and the roster is empty once more
    than [resolved] shutdown calls have resolved. *)
Definition closing (closed : list nat) (resolved : nat) (s : Pool) : Prop :=
  shuttingDown s = true
  /\ launching s = []
  /\ (forall c b, c ∈ shutdownCalls s -> b ∈ browsers s -> b ∈ sd_pending c)
  /\ (forall b, b ∈ closed -> b ∈ closeCalls s)
  /\ ((resolved < shutdownsResolved s)%nat -> browsers s = []).

(** What a turn does to roster and launches once the gate is set and no
    launch is in flight. *)
Definition shrinking (s s' : Pool) : Prop :=
  shuttingDown s' = true
  /\ launching s' = []
  /\ (forall b, b ∈ browsers s' -> b ∈ browsers s)
  /\ (forall b, b ∈ closeCalls s -> b ∈ closeCalls s').

(** Options for a page with a cookie banner. *)
Definition o_page : TaskOptions :=
  {| opt_url := Some "https://example.com"%string; opt_use_adblock := false;
     accept_cookie_banners := true;
     cookie_banner_selectors := Some ["#accept"%string] |}.

(** [shutdown()] on two idle browsers: both [close()]s succeed, then the
    call resumes. *)
Definition closing_turns : list Event :=
  [EvCloseSettles 0 0 true; EvCloseSettles 0 1 true; EvShutdownDone 0].

(** Every task handed to a browser was handed to one of the type its
    requirements ask for. *)
Definition typed_dispatches (s : Pool) : Prop :=
  forall d, d ∈ dispatches s ->
    exists bs, heap s !! d_browser d = Some bs
               /\ b_type bs = requiredType (q_requirements (d_item d)).

(** * Properties *)

(** ** The sort of [PriorityQueue.enqueue] *)

Section SortFacts.
Context {A : Type} (cmp : A -> A -> Z).

Lemma sort_insert_perm x l : sort_insert cmp x l ≡ₚ x :: l.
Proof.
  induction l as [|y l IH]; simpl; [done|].
  destruct (cmp x y <=? 0); [done|].
  rewrite IH. apply Permutation_swap.
Qed.

Lemma js_sort_perm l : js_sort cmp l ≡ₚ l.
Proof.
  induction l as [|x l IH]; simpl; [done|].
  rewrite sort_insert_perm. by rewrite IH.
Qed.

Lemma elem_of_js_sort x l : x ∈ js_sort cmp l <-> x ∈ l.
Proof. by rewrite js_sort_perm. Qed.
End SortFacts.


(** [js_sort] with the comparator of [enqueue] is a stable sort: its result
    is ordered by descending priority and keeps the items of each priority
    in the order they had. *)
Lemma sort_insert_descending x l :
  StronglySorted (fun a b => q_priority b <= q_priority a) l ->
  StronglySorted (fun a b => q_priority b <= q_priority a)
    (sort_insert by_priority x l).
Proof.
  induction l as [|y l IH]; simpl; intros Hs; [repeat constructor|].
  apply StronglySorted_inv in Hs as [Hs Hy]. rewrite Forall_forall in Hy.
  destruct (by_priority x y <=? 0) eqn:E; unfold by_priority in E.
  - apply Z.leb_le in E. constructor; [by constructor; [|apply Forall_forall]|].
    constructor; [lia|]. apply Forall_forall. intros z Hz.
    specialize (Hy z Hz). simpl in Hy. lia.
  - apply Z.leb_gt in E. constructor; [by apply IH|].
    apply Forall_forall. intros z Hz. rewrite sort_insert_perm in Hz.
    apply elem_of_cons in Hz as [->|Hz]; [lia|by apply Hy].
Qed.

Lemma js_sort_descending l :
  StronglySorted (fun a b => q_priority b <= q_priority a)
    (js_sort by_priority l).
Proof.
  induction l as [|x l IH]; simpl; [constructor|by apply sort_insert_descending].
Qed.

Lemma sort_insert_stable p x l :
  List.filter (fun y => q_priority y =? p) (sort_insert by_priority x l)
  = List.filter (fun y => q_priority y =? p) (x :: l).
Proof.
  induction l as [|y l IH]; [done|]. cbn [sort_insert].
  destruct (by_priority x y <=? 0) eqn:E; [done|].
  unfold by_priority in E. apply Z.leb_gt in E.
  cbn [List.filter] in *. rewrite IH.
  destruct (q_priority x =? p) eqn:Ex; [|done].
  apply Z.eqb_eq in Ex.
  assert ((q_priority y =? p) = false) as -> by (apply Z.eqb_neq; lia). done.
Qed.

Lemma js_sort_stable p l :
  List.filter (fun y => q_priority y =? p) (js_sort by_priority l)
  = List.filter (fun y => q_priority y =? p) l.
Proof.
  induction l as [|x l IH]; [done|]. cbn [js_sort foldr].
  fold (js_sort by_priority l). rewrite sort_insert_stable.
  cbn [List.filter]. by rewrite IH.
Qed.

Lemma before_tie a b :
  before a b -> q_priority a = q_priority b -> (q_id a < q_id b)%nat.
Proof. intros [Hlt|[_ Hid]] Heq; [lia|done]. Qed.

Lemma before_priority a b : before a b -> q_priority b <= q_priority a.
Proof. intros [Hlt|[Heq _]]; lia. Qed.

Lemma sort_insert_sorted x l :
  StronglySorted before l ->
  (forall y, y ∈ l -> q_priority y = q_priority x -> (q_id x < q_id y)%nat) ->
  StronglySorted before (sort_insert by_priority x l).
Proof.
  induction l as [|y l IH]; simpl; intros Hs Hx.
  - repeat constructor.
  - apply StronglySorted_inv in Hs as [Hs Hy].
    rewrite Forall_forall in Hy.
    destruct (by_priority x y <=? 0) eqn:E; unfold by_priority in E.
    + apply Z.leb_le in E.
      assert (Hxy : before x y).
      { destruct (decide (q_priority y = q_priority x)) as [Heq|Hne].
        - right. split; [done|]. apply Hx; [left|done].
        - left. lia. }
      constructor; [by constructor; [|apply Forall_forall]|].
      constructor; [done|]. apply Forall_forall. intros z Hz.
      pose proof (before_priority _ _ (Hy z Hz)) as Hzy.
      destruct (decide (q_priority z = q_priority x)) as [Heq|Hne].
      * right. split; [done|]. apply Hx; [by right|done].
      * left. lia.
    + apply Z.leb_gt in E.
      constructor.
      * apply IH; [done|]. intros z Hz. apply Hx. by right.
      * apply Forall_forall. intros z Hz.
        rewrite sort_insert_perm in Hz. apply elem_of_cons in Hz as [->|Hz].
        -- left. lia.
        -- by apply Hy.
Qed.

Lemma js_sort_push_sorted x l :
  StronglySorted before l ->
  (forall y, y ∈ l -> (q_id y < q_id x)%nat) ->
  StronglySorted before (js_sort by_priority (l ++ [x])).
Proof.
  induction l as [|a l IH]; simpl; intros Hs Hx.
  - repeat constructor.
  - apply StronglySorted_inv in Hs as [Hs Ha].
    rewrite Forall_forall in Ha.
    apply sort_insert_sorted.
    + apply IH; [done|]. intros y Hy. apply Hx. by right.
    + intros y Hy Heq. apply elem_of_js_sort in Hy.
      apply elem_of_app in Hy as [Hy|Hy].
      * by apply before_tie; [apply Ha|].
      * apply list_elem_of_singleton in Hy as ->. apply Hx. by left.
Qed.

(** ** Bookkeeping of the dispatch records *)

Lemma fu_execSettled : flag_update d_set_execSettled.
Proof. by split. Qed.

Lemma fu_timerFired : flag_update d_set_timerFired.
Proof. by split. Qed.

Lemma fu_completed : flag_update d_set_completed.
Proof. by split. Qed.

Lemma fu_released : flag_update d_set_released.
Proof. by split. Qed.

Lemma fu_compose f g : flag_update f -> flag_update g -> flag_update (f ∘ g).
Proof.
  intros [??? ] [???]; split; intros d; simpl; congruence.
Qed.

Lemma fu_tid f d : flag_update f -> d_tid (f d) = d_tid d.
Proof. intros Hf. unfold d_tid. by rewrite (fu_item f Hf). Qed.

Lemma upd_tids f tid ds : flag_update f -> d_tid <$> upd tid f ds = d_tid <$> ds.
Proof.
  intros Hf. unfold upd. rewrite <- list_fmap_compose.
  apply list_fmap_ext. intros _ d _. simpl.
  destruct (Nat.eqb (d_tid d) tid); [by apply fu_tid|done].
Qed.

Lemma upd_upd f g tid ds :
  flag_update g -> upd tid f (upd tid g ds) = upd tid (f ∘ g) ds.
Proof.
  intros Hg. unfold upd. rewrite <- list_fmap_compose.
  apply list_fmap_ext. intros _ d _. simpl.
  destruct (Nat.eqb (d_tid d) tid) eqn:E; [|by rewrite E].
  by rewrite (fu_tid g d Hg), E.
Qed.

Lemma upd_fresh f tid ds : tid ∉ d_tid <$> ds -> upd tid f ds = ds.
Proof.
  induction ds as [|d ds IH]; [done|]. rewrite fmap_cons, not_elem_of_cons.
  intros [Hne Hnin]. unfold upd in *. rewrite fmap_cons, IH by done.
  destruct (Nat.eqb (d_tid d) tid) eqn:E; [|done].
  apply Nat.eqb_eq in E. congruence.
Qed.

Lemma elem_of_upd d' f tid ds :
  d' ∈ upd tid f ds <->
  exists d, d ∈ ds /\ d' = if Nat.eqb (d_tid d) tid then f d else d.
Proof.
  unfold upd. rewrite list_elem_of_fmap. split; intros (d & H1 & H2); eauto.
Qed.

Lemma tid_inj ds d1 d2 :
  NoDup (d_tid <$> ds) -> d1 ∈ ds -> d2 ∈ ds -> d_tid d1 = d_tid d2 -> d1 = d2.
Proof.
  induction ds as [|d ds IH]; [by intros _ ?%elem_of_nil|].
  rewrite fmap_cons, NoDup_cons. intros [Hnin Hnd].
  rewrite !elem_of_cons. intros [->|H1] [->|H2] Heq; auto.
  - exfalso. apply Hnin. rewrite Heq. by apply list_elem_of_fmap_2.
  - exfalso. apply Hnin. rewrite <- Heq. by apply list_elem_of_fmap_2.
Qed.

(** With unique task ids an update rewrites exactly one record. *)
Lemma elem_of_upd_unique d' d f ds :
  NoDup (d_tid <$> ds) -> d ∈ ds ->
  d' ∈ upd (d_tid d) f ds <-> d' = f d \/ (d' ∈ ds /\ d_tid d' <> d_tid d).
Proof.
  intros Hnd Hd. rewrite elem_of_upd. split.
  - intros (d0 & Hd0 & ->). destruct (Nat.eqb (d_tid d0) (d_tid d)) eqn:E.
    + apply Nat.eqb_eq in E. left. f_equal. by eapply tid_inj.
    + apply Nat.eqb_neq in E. by right.
  - intros [->|[Hd' Hne]].
    + exists d. by rewrite Nat.eqb_refl.
    + exists d'. apply Nat.eqb_neq in Hne. by rewrite Hne.
Qed.

Lemma find_dispatch_Some tid s d :
  find_dispatch tid s = Some d -> d ∈ dispatches s /\ d_tid d = tid.
Proof.
  unfold find_dispatch. intros [Hin Heq]%find_some.
  split; [by apply list_elem_of_In|by apply Nat.eqb_eq].
Qed.

Lemma find_dispatch_elem s d :
  NoDup (d_tid <$> dispatches s) -> d ∈ dispatches s ->
  find_dispatch (d_tid d) s = Some d.
Proof.
  intros Hnd Hd. destruct (find_dispatch (d_tid d) s) as [d0|] eqn:E.
  - apply find_dispatch_Some in E as [Hd0 Heq]. f_equal. by eapply tid_inj.
  - unfold find_dispatch in E.
    pose proof (find_none _ _ E d (proj1 (list_elem_of_In _ _) Hd)) as Hf.
    simpl in Hf. by rewrite Nat.eqb_refl in Hf.
Qed.

Lemma holding_cons b d ds :
  holding b (d :: ds) =
  ((if negb (released d) && Nat.eqb (d_browser d) b then 1 else 0)
   + holding b ds)%nat.
Proof.
  unfold holding. simpl.
  by destruct (negb (released d) && Nat.eqb (d_browser d) b).
Qed.

Lemma holding_upd_flags b f tid ds :
  flag_update f -> (forall d, released (f d) = released d) ->
  holding b (upd tid f ds) = holding b ds.
Proof.
  intros Hf Hr. induction ds as [|d ds IH]; [done|].
  unfold upd in *. rewrite fmap_cons, !holding_cons, IH.
  destruct (Nat.eqb (d_tid d) tid); [|done].
  by rewrite Hr, (fu_browser f Hf).
Qed.

Lemma holding_upd_release b f d ds :
  flag_update f -> (forall d, released (f d) = true) ->
  NoDup (d_tid <$> ds) -> d ∈ ds -> released d = false ->
  (holding b (upd (d_tid d) f ds)
   + (if Nat.eqb (d_browser d) b then 1 else 0))%nat = holding b ds.
Proof.
  intros Hf Hr. induction ds as [|d0 ds IH]; [by intros _ ?%elem_of_nil|].
  rewrite fmap_cons, NoDup_cons. intros [Hnin Hnd] Hd Hun.
  apply elem_of_cons in Hd as [->|Hd].
  - unfold upd. rewrite fmap_cons, Nat.eqb_refl.
    fold (upd (d_tid d0) f ds). rewrite upd_fresh by done.
    rewrite !holding_cons, Hr, Hun. simpl.
    destruct (Nat.eqb (d_browser d0) b); lia.
  - assert (d_tid d0 <> d_tid d) as Hne.
    { intros Heq. apply Hnin. rewrite Heq. by apply list_elem_of_fmap_2. }
    unfold upd. rewrite fmap_cons. fold (upd (d_tid d) f ds).
    apply Nat.eqb_neq in Hne. rewrite Hne, !holding_cons.
    specialize (IH Hnd Hd Hun). lia.
Qed.

Lemma holding_zero b ds :
  (forall d, d ∈ ds -> released d = false -> d_browser d <> b) ->
  holding b ds = 0%nat.
Proof.
  induction ds as [|d ds IH]; [done|]. intros H.
  rewrite holding_cons, IH by (intros; apply H; [by right|done]).
  destruct (released d) eqn:Er; [done|]. simpl.
  destruct (Nat.eqb (d_browser d) b) eqn:E; [|done].
  apply Nat.eqb_eq in E. exfalso. by apply (H d); [left| |].
Qed.

Lemma holding_pos b d ds :
  d ∈ ds -> released d = false -> d_browser d = b -> (1 <= holding b ds)%nat.
Proof.
  induction ds as [|d0 ds IH]; [by intros ?%elem_of_nil|].
  intros Hd Hun Hb. rewrite holding_cons.
  apply elem_of_cons in Hd as [<-|Hd].
  - rewrite Hun, Hb, Nat.eqb_refl. simpl. lia.
  - specialize (IH Hd Hun Hb). lia.
Qed.

(** ** Invariants of the queue and of the task ids *)

Lemma InvQ_new : InvQ PriorityQueue.new.
Proof. split; simpl; [constructor|by intros ? ?%elem_of_nil|constructor]. Qed.

Lemma InvQ_enqueue task priority requirements q :
  InvQ q -> InvQ (enqueue task priority requirements q).2.
Proof.
  intros [Hs Hi Hn]. split; simpl.
  - apply js_sort_push_sorted; [done|]. intros y Hy. simpl. by apply Hi.
  - intros x Hx. apply elem_of_js_sort, elem_of_app in Hx as [Hx|Hx].
    + specialize (Hi x Hx). lia.
    + apply list_elem_of_singleton in Hx as ->. simpl. lia.
  - rewrite js_sort_perm, fmap_app. apply NoDup_app. split; [done|]. split.
    + intros i Hi1 Hi2. simpl in Hi2. apply list_elem_of_singleton in Hi2 as ->.
      apply list_elem_of_fmap in Hi1 as (x & Hx1 & Hx2).
      specialize (Hi x Hx2). lia.
    + simpl. apply NoDup_singleton.
Qed.

Lemma InvQ_pop q x rest :
  InvQ q -> items q = x :: rest ->
  InvQ {| items := rest; taskIdCounter := taskIdCounter q |}.
Proof.
  intros [Hs Hi Hn] E. rewrite E in *. split; simpl.
  - by apply StronglySorted_inv in Hs as [? _].
  - intros y Hy. apply Hi. by right.
  - rewrite fmap_cons in Hn. by apply NoDup_cons in Hn as [_ ?].
Qed.

Lemma InvQ_clear q : InvQ q -> InvQ {| items := []; taskIdCounter := taskIdCounter q |}.
Proof. intros _. split; simpl; [constructor|by intros ? ?%elem_of_nil|constructor]. Qed.

Lemma InvT_enqueue task priority requirements q ds st :
  InvQ q -> InvT q ds st -> InvT (enqueue task priority requirements q).2 ds st.
Proof.
  intros HQ [H1 H2 H3 H4 H5 H6 H7 H8 H9 H10 H11]. split; simpl; try done.
  - intros d Hd. specialize (H1 d Hd). lia.
  - intros tid Ht. specialize (H3 tid Ht). lia.
  - intros x d Hx Hd. apply elem_of_js_sort, elem_of_app in Hx as [Hx|Hx].
    + by apply H5.
    + apply list_elem_of_singleton in Hx as ->. simpl.
      specialize (H1 d Hd). lia.
  - intros x Hx. apply elem_of_js_sort, elem_of_app in Hx as [Hx|Hx].
    + by apply H6.
    + apply list_elem_of_singleton in Hx as ->. simpl.
      intros Hin. specialize (H3 _ Hin). lia.
Qed.

Lemma InvT_dispatch q x rest d ds st :
  InvQ q -> InvT q ds st -> items q = x :: rest ->
  d_item d = x -> fresh_dispatch d ->
  InvT {| items := rest; taskIdCounter := taskIdCounter q |} (d :: ds) st.
Proof.
  intros [Hs Hi Hn] [H1 H2 H3 H4 H5 H6 H7 H8 H9 H10 H11] E Hd
    (F1 & F2 & F3 & F4 & F5).
  rewrite E in *. rewrite fmap_cons in Hn. apply NoDup_cons in Hn as [Hxn Hn].
  assert (d_tid d = q_id x) as Htid by (unfold d_tid; by rewrite Hd).
  split; cbn [items taskIdCounter].
  - intros d' [->|Hd']%elem_of_cons; [|by apply H1].
    rewrite Htid. apply Hi. by left.
  - rewrite fmap_cons. apply NoDup_cons. split; [|done].
    intros (d' & Hd1 & Hd2)%list_elem_of_fmap.
    apply (H5 x d'); [by left|done|congruence].
  - done.
  - done.
  - intros y d' Hy [->|Hd']%elem_of_cons.
    + rewrite Htid. intros Heq. apply Hxn. rewrite <- Heq.
      by apply list_elem_of_fmap_2.
    + apply H5; [by right|done].
  - intros y Hy. apply H6. by right.
  - intros d' [->|Hd']%elem_of_cons; [|by apply H7].
    rewrite Htid. intros Hin. exfalso. by apply (H6 x); [left|].
  - intros d' [->|Hd']%elem_of_cons; [congruence|by apply H8].
  - intros d' [->|Hd']%elem_of_cons; [congruence|by apply H9].
  - intros d' [->|Hd']%elem_of_cons; [congruence|by apply H10].
  - intros d' [->|Hd']%elem_of_cons; [congruence|by apply H11].
Qed.

(** A flag of an already settled dispatch changes. *)
Lemma InvT_mark q ds st d f :
  InvT q ds st -> d ∈ ds -> raceSettled d = true ->
  flag_update f ->
  (forall d, raceSettled (f d) = raceSettled d) ->
  (forall d, taskCompleted (f d) = taskCompleted d) ->
  InvT q (upd (d_tid d) f ds) st.
Proof.
  intros [H1 H2 H3 H4 H5 H6 H7 H8 H9 H10 H11] Hd Hset Hf Hr Hc.
  assert (forall d', d' ∈ upd (d_tid d) f ds ->
            exists d0, d0 ∈ ds /\ d_tid d' = d_tid d0
                       /\ raceSettled d' = raceSettled d0
                       /\ taskCompleted d' = taskCompleted d0
                       /\ (d' = d0 \/ d0 = d)) as Hin.
  { intros d' [->|[Hd' Hne]]%elem_of_upd_unique; [| |done|done].
    - exists d. rewrite fu_tid, Hr, Hc by done. auto 10.
    - exists d'. auto 10. }
  split; try done.
  - intros d' (d0 & Hd0 & -> & _)%Hin. by apply H1.
  - by rewrite upd_tids.
  - intros x d' Hx (d0 & Hd0 & -> & _)%Hin. by apply H5.
  - intros d' (d0 & Hd0 & -> & -> & _)%Hin. by apply H7.
  - intros d' (d0 & Hd0 & _ & -> & -> & _)%Hin. by apply H8.
  - intros d' (d0 & Hd0 & _ & -> & _ & [->| ->])%Hin; [by apply H9|done].
  - intros d' (d0 & Hd0 & _ & -> & _ & [->| ->])%Hin; [by apply H10|done].
  - intros d' (d0 & Hd0 & _ & -> & _ & [->| ->])%Hin; [by apply H11|done].
Qed.

(** The race of a dispatch settles and its handler sets the latch without
    reaching [queuedItem.reject]. *)
Lemma InvT_latch q ds st d f :
  InvT q ds st -> d ∈ ds -> raceSettled d = false ->
  flag_update f ->
  (forall d, raceSettled (f d) = true) ->
  (forall d, taskCompleted (f d) = true) ->
  InvT q (upd (d_tid d) f ds) st.
Proof.
  intros [H1 H2 H3 H4 H5 H6 H7 H8 H9 H10 H11] Hd Hun Hf Hr Hc.
  split; simpl; try done.
  - intros d' [->|[Hd' Hne]]%elem_of_upd_unique; [|by apply H1|done|done].
    rewrite fu_tid by done. by apply H1.
  - by rewrite upd_tids.
  - intros x d' Hx [->|[Hd' Hne]]%elem_of_upd_unique; [|by apply H5|done|done].
    rewrite fu_tid by done. by apply H5.
  - intros d' [->|[Hd' Hne]]%elem_of_upd_unique; [done|by apply H7|done|done].
  - intros d' [->|[Hd' Hne]]%elem_of_upd_unique; [|by apply H8|done|done].
    by rewrite Hr, Hc.
  - intros d' [->|[Hd' Hne]]%elem_of_upd_unique; [done|by apply H9|done|done].
  - intros d' [->|[Hd' Hne]]%elem_of_upd_unique; [done|by apply H10|done|done].
  - intros d' [->|[Hd' Hne]]%elem_of_upd_unique; [done|by apply H11|done|done].
Qed.

(** The race of a dispatch settles: its record is completed and the
    caller's promise settled with [o]. *)
Lemma InvT_settle q ds st d f o :
  InvT q ds st -> d ∈ ds -> raceSettled d = false ->
  flag_update f ->
  (forall d, raceSettled (f d) = true) ->
  (forall d, taskCompleted (f d) = true) ->
  InvT q (upd (d_tid d) f ds) ((d_tid d, o) :: st).
Proof.
  intros [H1 H2 H3 H4 H5 H6 H7 H8 H9 H10 H11] Hd Hun Hf Hr Hc.
  assert (d_tid d ∉ st.*1) as Hfresh.
  { intros Hin. apply H7 in Hin; [congruence|done]. }
  split; rewrite ?fmap_cons; simpl.
  - intros d' [->|[Hd' Hne]]%elem_of_upd_unique; [|by apply H1|done|done].
    rewrite fu_tid by done. by apply H1.
  - by rewrite upd_tids.
  - intros tid [->|Ht]%elem_of_cons; [by apply H1|by apply H3].
  - apply NoDup_cons. by split.
  - intros x d' Hx [->|[Hd' Hne]]%elem_of_upd_unique; [|by apply H5|done|done].
    rewrite fu_tid by done. by apply H5.
  - intros x Hx [Heq|Hin]%elem_of_cons; [by apply (H5 x d)|by apply (H6 x)].
  - intros d' [->|[Hd' Hne]]%elem_of_upd_unique; [done| |done|done].
    intros [Heq|Hin]%elem_of_cons; [done|by apply H7].
  - intros d' [->|[Hd' Hne]]%elem_of_upd_unique; [|by apply H8|done|done].
    by rewrite Hr, Hc.
  - intros d' [->|[Hd' Hne]]%elem_of_upd_unique; [done|by apply H9|done|done].
  - intros d' [->|[Hd' Hne]]%elem_of_upd_unique; [done|by apply H10|done|done].
  - intros d' [->|[Hd' Hne]]%elem_of_upd_unique; [done|by apply H11|done|done].
Qed.

Lemma drain_fst l st : (drain l st).*1 = reverse (q_id <$> l) ++ st.*1.
Proof.
  revert st. induction l as [|x l IH]; intros st; simpl; [done|].
  rewrite IH, fmap_cons, reverse_cons, <- app_assoc. done.
Qed.

Lemma drain_keeps l st e : e ∈ st -> e ∈ drain l st.
Proof.
  revert st. induction l as [|x l IH]; intros st He; simpl; [done|].
  apply IH. by right.
Qed.

Lemma drain_rejects l st x :
  x ∈ l -> (q_id x, Rejected ErrTaskCancelled) ∈ drain l st.
Proof.
  revert st. induction l as [|y l IH]; intros st; [by intros ?%elem_of_nil|].
  intros [->|Hx]%elem_of_cons; simpl.
  - apply drain_keeps. by left.
  - by apply IH.
Qed.

Lemma InvT_drain q ds st :
  InvQ q -> InvT q ds st ->
  InvT {| items := []; taskIdCounter := taskIdCounter q |} ds
       (drain (items q) st).
Proof.
  intros [Hs Hi Hn] [H1 H2 H3 H4 H5 H6 H7 H8 H9 H10 H11].
  assert (forall tid, tid ∈ (drain (items q) st).*1 <->
            (exists x, x ∈ items q /\ q_id x = tid) \/ tid ∈ st.*1) as Hin.
  { intros tid. rewrite drain_fst, elem_of_app, elem_of_reverse, list_elem_of_fmap.
    split; (intros [(x & Hx1 & Hx2)|Ht]; [left; by exists x|by right]). }
  split; cbn [items taskIdCounter]; try done.
  - intros tid [(x & Hx & <-)|Ht]%Hin; [by apply Hi|by apply H3].
  - rewrite drain_fst. apply NoDup_app. split; [by rewrite reverse_Permutation|].
    split; [|done]. intros tid (x & -> & Hx)%elem_of_reverse%list_elem_of_fmap.
    by apply H6.
  - by intros x d ?%elem_of_nil.
  - by intros x ?%elem_of_nil.
  - intros d Hd [(x & Hx & Heq)|Ht]%Hin; [by destruct (H5 x d)|by apply H7].
Qed.

(** ** Invariant of the browser objects *)

Section BrowserInvariant.
Context (cfg : Config).

Lemma InvB_empty : InvB cfg ∅ [] 0 [].
Proof.
  split.
  - intros b [? Hb]. by rewrite lookup_empty in Hb.
  - by intros b ?%elem_of_nil.
  - by intros d ?%elem_of_nil.
  - by intros d ?%elem_of_nil.
  - intros b. unfold holding. simpl. lia.
  - intros b. unfold holding. simpl. lia.
  - intros b bs Hb. by rewrite lookup_empty in Hb.
  - intros b bs Hb. by rewrite lookup_empty in Hb.
Qed.

Lemma InvB_roster h r r' c ds :
  (forall b, b ∈ r' -> b ∈ r) -> InvB cfg h r c ds -> InvB cfg h r' c ds.
Proof. intros Hsub [H1 H2 H3 H4 H5 H6 H7 H8]. split; auto. Qed.

Lemma InvB_connected h r c ds a v :
  InvB cfg h r c ds -> InvB cfg (alter (b_set_connected v) a h) r c ds.
Proof.
  intros [H1 H2 H3 H4 H5 H6 H7 H8]. split; try done.
  - intros b Hb%lookup_alter_is_Some. by apply H1.
  - intros b Hb. apply lookup_alter_is_Some. by apply H2.
  - intros d Hd. apply lookup_alter_is_Some. by apply H3.
  - intros b bs [(-> & bs0 & Hb & ->)|[_ Hb]]%lookup_alter_Some;
      [apply (H7 _ _ Hb)|by apply H7].
  - intros b bs [(-> & bs0 & Hb & ->)|[_ Hb]]%lookup_alter_Some;
      [apply (H8 _ _ Hb)|by apply H8].
Qed.

Lemma InvB_launched h r c ds t :
  InvB cfg h r c ds ->
  InvB cfg (<[c := {| b_id := c; busy := false; pagesOpen := 0;
                  b_type := t; connected := true |}]> h)
       (r ++ [c]) (S c) ds.
Proof.
  intros [H1 H2 H3 H4 H5 H6 H7 H8].
  assert (holding c ds = 0%nat) as Hc.
  { apply holding_zero. intros d Hd _ Heq.
    specialize (H1 _ (H3 d Hd)). lia. }
  split; try done.
  - intros b [->|[_ Hb]]%lookup_insert_is_Some; [lia|].
    specialize (H1 b Hb). lia.
  - intros b [Hb|Hb]%elem_of_app; apply lookup_insert_is_Some'.
    + right. by apply H2.
    + left. by apply list_elem_of_singleton in Hb.
  - intros d Hd. apply lookup_insert_is_Some'. right. by apply H3.
  - intros b bs [[<- <-]|[_ Hb]]%lookup_insert_Some; [|by apply H7].
    simpl. lia.
  - intros b bs [[<- <-]|[_ Hb]]%lookup_insert_Some; [|by apply H8].
    simpl. rewrite Hc. split; [done|lia].
Qed.

Lemma InvB_mark h r c ds tid f :
  InvB cfg h r c ds -> flag_update f ->
  (forall d, released (f d) = released d) ->
  InvB cfg h r c (upd tid f ds).
Proof.
  intros [H1 H2 H3 H4 H5 H6 H7 H8] Hf Hr.
  assert (forall d', d' ∈ upd tid f ds ->
            exists d, d ∈ ds /\ d_browser d' = d_browser d /\ d_pre d' = d_pre d)
    as Hin.
  { intros d' (d & Hd & ->)%elem_of_upd. exists d. split; [done|].
    destruct (Nat.eqb (d_tid d) tid); [|done].
    by rewrite (fu_browser f Hf), (fu_pre f Hf). }
  split; try done.
  - intros d' (d & Hd & -> & _)%Hin. by apply H3.
  - intros d' (d & Hd & _ & ->)%Hin. by apply H4.
  - intros b. by rewrite holding_upd_flags.
  - intros b. by rewrite holding_upd_flags.
  - intros b bs Hb. rewrite holding_upd_flags by done. by apply H7.
  - intros b bs Hb. rewrite holding_upd_flags by done. by apply H8.
Qed.

(** [.finally] releases the browser of [d]. *)
Lemma InvB_release h r c ds d f :
  InvB cfg h r c ds -> NoDup (d_tid <$> ds) -> d ∈ ds -> released d = false ->
  flag_update f -> (forall d, released (f d) = true) ->
  InvB cfg (alter b_release (d_browser d) h) r c (upd (d_tid d) f ds).
Proof.
  intros [H1 H2 H3 H4 H5 H6 H7 H8] Hnd Hd Hun Hf Hr.
  assert (forall d', d' ∈ upd (d_tid d) f ds ->
            exists d, d ∈ ds /\ d_browser d' = d_browser d /\ d_pre d' = d_pre d)
    as Hin.
  { intros d' (d0 & Hd0 & ->)%elem_of_upd. exists d0. split; [done|].
    destruct (Nat.eqb (d_tid d0) (d_tid d)); [|done].
    by rewrite (fu_browser f Hf), (fu_pre f Hf). }
  pose proof (fun b => holding_upd_release b f d ds Hf Hr Hnd Hd Hun) as Hh.
  split.
  - intros b Hb%lookup_alter_is_Some. by apply H1.
  - intros b Hb. apply lookup_alter_is_Some. by apply H2.
  - intros d' (d0 & Hd0 & -> & _)%Hin. apply lookup_alter_is_Some. by apply H3.
  - intros d' (d0 & Hd0 & _ & ->)%Hin. by apply H4.
  - intros b. specialize (Hh b). specialize (H5 b). lia.
  - intros b. specialize (Hh b). specialize (H6 b). lia.
  - intros b bs [(<- & bs0 & Hb & ->)|[Hne Hb]]%lookup_alter_Some.
    + specialize (Hh (d_browser d)). rewrite Nat.eqb_refl in Hh.
      simpl. rewrite (H7 _ _ Hb). lia.
    + specialize (Hh b). apply Nat.eqb_neq in Hne. rewrite Hne in Hh.
      rewrite (H7 _ _ Hb). lia.
  - intros b bs [(<- & bs0 & Hb & ->)|[Hne Hb]]%lookup_alter_Some.
    + specialize (Hh (d_browser d)). rewrite Nat.eqb_refl in Hh.
      specialize (H5 (d_browser d)). simpl. split; [done|lia].
    + specialize (Hh b). apply Nat.eqb_neq in Hne. rewrite Hne in Hh.
      rewrite (H8 _ _ Hb). lia.
Qed.

(** [_processQueue] hands the head of the queue to an eligible browser. *)
Lemma InvB_dispatch h r c ds a bs t d :
  InvB cfg h r c ds -> h !! a = Some bs -> suitable cfg t bs = true ->
  d_browser d = a -> d_pre d = from_option pagesOpen 0 (h !! a) ->
  released d = false ->
  InvB cfg (alter b_acquire a h) r c (d :: ds).
Proof.
  intros [H1 H2 H3 H4 H5 H6 H7 H8] Ha Hsuit Hdb Hdp Hun.
  unfold suitable in Hsuit. rewrite !andb_true_iff in Hsuit.
  destruct Hsuit as [[[Hbusy Hpages] _] _].
  apply negb_true_iff in Hbusy. apply Z.ltb_lt in Hpages.
  assert (holding a ds = 0%nat) as Hzero.
  { specialize (H5 a). pose proof (H8 _ _ Ha) as Hiff.
    destruct (decide (holding a ds = 1%nat)) as [H1'|]; [|lia].
    apply Hiff in H1'. congruence. }
  pose proof (H7 _ _ Ha) as Hp0. rewrite Hzero in Hp0.
  assert (forall b, holding b (d :: ds)
            = ((if Nat.eqb a b then 1 else 0) + holding b ds)%nat) as Hh.
  { intros b. by rewrite holding_cons, Hun, Hdb. }
  split.
  - intros b Hb%lookup_alter_is_Some. by apply H1.
  - intros b Hb. apply lookup_alter_is_Some. by apply H2.
  - intros d' [->|Hd']%elem_of_cons; apply lookup_alter_is_Some;
      [by rewrite Hdb, Ha|by apply H3].
  - intros d' [->|Hd']%elem_of_cons; [|by apply H4].
    rewrite Hdp, Ha. simpl. lia.
  - intros b. rewrite Hh. destruct (Nat.eqb a b) eqn:E.
    + apply Nat.eqb_eq in E as <-. lia.
    + specialize (H5 b). lia.
  - intros b. rewrite Hh. destruct (Nat.eqb a b) eqn:E.
    + apply Nat.eqb_eq in E as <-. rewrite Hzero. lia.
    + specialize (H6 b). lia.
  - intros b bs' [(<- & bs0 & Hb & ->)|[Hne Hb]]%lookup_alter_Some; rewrite Hh.
    + rewrite Nat.eqb_refl, Hzero. simpl. rewrite Ha in Hb. injection Hb as <-. lia.
    + apply Nat.eqb_neq in Hne. rewrite Hne. by apply H7.
  - intros b bs' [(<- & bs0 & Hb & ->)|[Hne Hb]]%lookup_alter_Some; rewrite Hh.
    + rewrite Nat.eqb_refl, Hzero. simpl. done.
    + apply Nat.eqb_neq in Hne. rewrite Hne. by apply H8.
Qed.

End BrowserInvariant.

(** ** The invariant of the pool and its preservation *)

Section Preservation.
Context (cfg : Config).

Lemma remove_first_subset id l b : b ∈ remove_first id l -> b ∈ l.
Proof.
  induction l as [|x l IH]; simpl; [done|].
  destruct (Nat.eqb x id); [by right|].
  intros [->|Hb]%elem_of_cons; [by left|right; auto].
Qed.

Lemma findSuitable_Some req s a :
  _findSuitableBrowser cfg req s = Some a ->
  a ∈ browsers s
  /\ exists bs, heap s !! a = Some bs /\ suitable cfg (requiredType req) bs = true.
Proof.
  unfold _findSuitableBrowser. intros [Hin Hs]%find_some.
  split; [by apply list_elem_of_In|].
  unfold lookup_test in Hs. destruct (heap s !! a) as [bs|]; [eauto|done].
Qed.

Lemma Inv__launchBrowser t k s : Inv cfg s -> Inv cfg (_launchBrowser cfg t k s).
Proof. intros H. exact H. Qed.

Lemma Inv__removeBrowserFromPool id s : Inv cfg s -> Inv cfg (_removeBrowserFromPool id s).
Proof.
  intros (HQ & HT & HB). unfold _removeBrowserFromPool.
  assert (Inv cfg (set_browsers (remove_first id (browsers s)) s)) as H.
  { split; [exact HQ|]. split; [exact HT|]. simpl.
    eapply InvB_roster; [|done]. apply remove_first_subset. }
  by destruct (isConnected _ _).
Qed.

Lemma Inv_dispatch s x rest a :
  Inv cfg s -> items (taskQueue s) = x :: rest ->
  _findSuitableBrowser cfg (q_requirements x) s = Some a ->
  Inv cfg (dispatch x a
         (set_taskQueue {| items := rest;
                           taskIdCounter := taskIdCounter (taskQueue s) |} s)).
Proof.
  intros (HQ & HT & HB) E (_ & bs & Ha & Hs)%findSuitable_Some.
  unfold dispatch, Inv. simpl. split; [by eapply InvQ_pop|]. split.
  - by eapply InvT_dispatch.
  - by eapply InvB_dispatch.
Qed.

Lemma Inv__processQueue s : Inv cfg s -> Inv cfg (_processQueue cfg s).
Proof.
  intros H. unfold _processQueue.
  destruct (shuttingDown s || isEmpty (taskQueue s)); [done|].
  destruct (items (taskQueue s)) as [|x rest] eqn:E; [done|].
  destruct (_findSuitableBrowser cfg (q_requirements x) s) as [a|] eqn:F.
  - unfold dequeue. rewrite E. by apply Inv_dispatch.
  - by destruct (_ <? _)%nat.
Qed.

(** The race of [d] settles (after the flag update [g] of the event that
    made it settle) and its handler runs. *)
Lemma Inv_raceSettle s d g o :
  Inv cfg s -> d ∈ dispatches s -> raceSettled d = false -> flag_update g ->
  (forall d, released (g d) = released d) ->
  Inv cfg (raceSettle d o (update_dispatch (d_tid d) g s)).
Proof.
  intros (HQ & HT & HB) Hd Hun Hg Hgr. unfold raceSettle.
  pose proof (fu_compose _ _ fu_completed Hg) as Hf.
  assert (InvB cfg (heap s) (browsers s) (browserIdCounter s)
            (upd (d_tid d) (d_set_completed ∘ g) (dispatches s))) as HB'.
  { apply InvB_mark; [done..|]. intros d0. simpl. apply Hgr. }
  destruct o as [o|]; unfold Inv, update_dispatch; simpl;
    rewrite upd_upd by done; (split; [done|]); (split; [|done]).
  - by apply InvT_settle.
  - by apply InvT_latch.
Qed.

Lemma Inv_mark s d f :
  Inv cfg s -> d ∈ dispatches s -> raceSettled d = true ->
  flag_update f ->
  (forall d, raceSettled (f d) = raceSettled d) ->
  (forall d, taskCompleted (f d) = taskCompleted d) ->
  (forall d, released (f d) = released d) ->
  Inv cfg (update_dispatch (d_tid d) f s).
Proof.
  intros (HQ & HT & HB) Hd Hset Hf Hr Hc Hl. unfold Inv, update_dispatch. simpl.
  split; [done|]. split; [by apply InvT_mark|by apply InvB_mark].
Qed.

(** [.finally]: the reaction has run, and the browser is released. *)
Lemma Inv_release s d :
  Inv cfg s -> d ∈ dispatches s -> raceSettled d = true -> released d = false ->
  Inv cfg (release (d_browser d) (update_dispatch (d_tid d) d_set_released s)).
Proof.
  intros (HQ & HT & HB) Hd Hset Hun. unfold Inv, release, update_dispatch. simpl.
  split; [done|]. split.
  - by apply InvT_mark; [| | |apply fu_released| |].
  - apply InvB_release; [done|by destruct HT|done|done|apply fu_released|done].
Qed.

Lemma Inv_execSettles tid o s : Inv cfg s -> Inv cfg (execSettles tid o s).
Proof.
  intros H. unfold execSettles.
  destruct (find_dispatch tid s) as [d|] eqn:F; [|done].
  apply find_dispatch_Some in F as [Hd <-].
  destruct (execSettled d) eqn:Ee; [done|].
  destruct (raceSettled d) eqn:Er.
  - by apply Inv_mark; [| | |apply fu_execSettled| | |].
  - by apply Inv_raceSettle; [| | |apply fu_execSettled|].
Qed.

Lemma Inv_timerFires tid s : Inv cfg s -> Inv cfg (timerFires tid s).
Proof.
  intros H. unfold timerFires.
  destruct (find_dispatch tid s) as [d|] eqn:F; [|done].
  apply find_dispatch_Some in F as [Hd <-].
  destruct (timerFired d) eqn:Et; [done|].
  pose proof H as (_ & HT & _).
  rewrite (t_latch _ _ _ HT d Hd).
  destruct (raceSettled d) eqn:Er.
  - by apply Inv_mark; [| | |apply fu_timerFired| | |].
  - by apply Inv_raceSettle; [| | |apply fu_timerFired|].
Qed.

Lemma Inv_finallyRuns tid s : Inv cfg s -> Inv cfg (finallyRuns cfg tid s).
Proof.
  intros H. unfold finallyRuns.
  destruct (find_dispatch tid s) as [d|] eqn:F; [|done].
  apply find_dispatch_Some in F as [Hd <-].
  destruct (raceSettled d) eqn:Er; [|done].
  destruct (released d) eqn:El; [done|]. simpl.
  apply Inv__processQueue. by apply Inv_release.
Qed.

Lemma Inv_launched t s : Inv cfg s -> Inv cfg (launched t s).
Proof.
  intros (HQ & HT & HB). unfold Inv, launched. simpl.
  split; [done|]. split; [done|]. by apply InvB_launched.
Qed.

Lemma Inv_disconnected id s : Inv cfg s -> Inv cfg (disconnected cfg id s).
Proof.
  intros H. unfold disconnected.
  destruct (heap s !! id) as [b|]; [|done].
  destruct (connected b); [|done].
  unfold onDisconnected.
  set (s0 := set_heap _ s).
  assert (Inv cfg s0) as H0.
  { destruct H as (HQ & HT & HB). split; [exact HQ|]. split; [exact HT|].
    by apply InvB_connected. }
  pose proof (Inv__removeBrowserFromPool id s0 H0) as H1.
  destruct (shuttingDown _); [done|].
  apply Inv__processQueue. destruct (_ <? _)%nat; [|done].
  by apply Inv__launchBrowser.
Qed.

Lemma Inv_queueTaskWithRequirements f r p s :
  Inv cfg s -> Inv cfg (queueTaskWithRequirements cfg f r p s).2.
Proof.
  intros H. unfold queueTaskWithRequirements.
  destruct (shuttingDown s); [done|].
  destruct f as [name|]; [|done].
  destruct (use_adblock r && negb _); [done|].
  destruct (use_adblock r && Nat.eqb _ _); [done|].
  destruct (enqueue name p r (taskQueue s)) as [taskId q] eqn:E. simpl.
  apply Inv__processQueue. destruct H as (HQ & HT & HB).
  assert (q = (enqueue name p r (taskQueue s)).2) as -> by by rewrite E.
  split; [by apply InvQ_enqueue|]. split; [by apply InvT_enqueue|done].
Qed.

Lemma Inv_killBrowser h r t s : Inv cfg s -> Inv cfg (killBrowser cfg h r t s).
Proof.
  intros H. unfold killBrowser.
  destruct (find _ _) as [id|].
  - pose proof (Inv__removeBrowserFromPool id s H) as H1.
    destruct (r && negb _); [|done].
    destruct (_ <? _)%nat; [|done]. by apply Inv__launchBrowser.
  - by destruct (isConnected h s).
Qed.

Lemma Inv_shutdown from_init s : Inv cfg s -> Inv cfg (shutdown from_init s).
Proof.
  intros (HQ & HT & HB). unfold shutdown, Inv. simpl.
  split; [by apply InvQ_clear|]. split; [by apply InvT_drain|done].
Qed.

Lemma Inv_closeSettles k b ok s : Inv cfg s -> Inv cfg (closeSettles cfg k b ok s).
Proof.
  intros H. unfold closeSettles.
  destruct (shutdownCalls s !! k) as [c|]; [|done].
  destruct (bool_decide _); [|done].
  destruct ok; [by apply Inv_disconnected|by apply Inv__removeBrowserFromPool].
Qed.

Lemma Inv_shutdownDone k s : Inv cfg s -> Inv cfg (shutdownDone k s).
Proof.
  intros H. unfold shutdownDone.
  destruct (shutdownCalls s !! k) as [c|]; [|done].
  destruct (sd_pending c); [|done]. by destruct (sd_from_init c).
Qed.

Lemma Inv_launchSucceeds i s : Inv cfg s -> Inv cfg (launchSucceeds cfg i s).
Proof.
  intros H. unfold launchSucceeds.
  destruct (launching s !! i) as [l|]; [|done].
  set (s1 := launched _ _).
  assert (Inv cfg s1) as H1 by by apply Inv_launched.
  destruct (l_cont l); try by apply Inv__processQueue.
  - destruct (phase s1); try done. by destruct (warmupPending s1).
  - done.
Qed.

Lemma Inv_launchFails i m s : Inv cfg s -> Inv cfg (launchFails i m s).
Proof.
  intros H. unfold launchFails.
  destruct (launching s !! i) as [l|]; [|done].
  destruct (l_cont l); try done.
  destruct (phase _); try done. by apply Inv_shutdown.
Qed.

Lemma Inv_iter_launch n t k s :
  Inv cfg s -> Inv cfg (Nat.iter n (_launchBrowser cfg t k) s).
Proof. intros H. induction n; simpl; [done|]. by apply Inv__launchBrowser. Qed.

Lemma Inv_getBrowserPool s : getBrowserPool cfg = Some s -> Inv cfg s.
Proof.
  unfold getBrowserPool. destruct (_ && negb _); [done|].
  intros [= <-].
  assert (Inv cfg emptyPool) as H0.
  { split; [apply InvQ_new|]. split; [|apply InvB_empty].
    split; simpl; first [by intros ? ?%elem_of_nil
                        |by intros ? ? ?%elem_of_nil
                        |constructor]. }
  set (s1 := Nat.iter _ _ emptyPool).
  assert (Inv cfg s1) as H1 by by apply Inv_iter_launch.
  set (s2 := if _ && _ then _ else _).
  assert (Inv cfg s2) as H2.
  { subst s2. destruct (_ && _); [by apply Inv_iter_launch|done]. }
  by destruct (warmupPending s2).
Qed.

Lemma Inv_step s e : Inv cfg s -> Inv cfg (step cfg s e).
Proof.
  intros H. destruct e; simpl.
  - by apply Inv_launchSucceeds.
  - by apply Inv_launchFails.
  - by apply Inv_disconnected.
  - by apply Inv_execSettles.
  - by apply Inv_execSettles.
  - by apply Inv_timerFires.
  - destruct (returned s); [by apply Inv_queueTaskWithRequirements|done].
  - destruct (returned s); [by apply Inv_killBrowser|done].
  - destruct (returned s); [by apply Inv_shutdown|done].
  - by apply Inv_closeSettles.
  - by apply Inv_shutdownDone.
  - by apply Inv_execSettles.
  - by apply Inv_finallyRuns.
Qed.

Lemma Inv_reachable s : reachable cfg s -> Inv cfg s.
Proof.
  induction 1 as [s Hs|s e _ IH]; [by apply Inv_getBrowserPool|by apply Inv_step].
Qed.

End Preservation.

(** ** What one pass of [_processQueue] does *)

Section SchedulerPass.
Context (cfg : Config).

(** A pass either leaves queue, roster objects and dispatches alone (it
    returned, left the task queued, or started a launch), or it took the
    head of the queue and handed it to the browser it selected. *)
Lemma processQueue_cases s :
  (taskQueue (_processQueue cfg s) = taskQueue s
   /\ heap (_processQueue cfg s) = heap s
   /\ dispatches (_processQueue cfg s) = dispatches s)
  \/ (exists x rest a,
        shuttingDown s = false
        /\ items (taskQueue s) = x :: rest
        /\ _findSuitableBrowser cfg (q_requirements x) s = Some a
        /\ _processQueue cfg s =
           dispatch x a
             (set_taskQueue {| items := rest;
                               taskIdCounter := taskIdCounter (taskQueue s) |} s)).
Proof.
  unfold _processQueue.
  destruct (shuttingDown s) eqn:Es; simpl; [by left|].
  destruct (isEmpty (taskQueue s)); [by left|].
  destruct (items (taskQueue s)) as [|x rest] eqn:E; [by left|].
  destruct (_findSuitableBrowser cfg (q_requirements x) s) as [a|] eqn:F.
  - right. exists x, rest, a. unfold dequeue. by rewrite E.
  - left. by destruct (_ <? _)%nat.
Qed.

Lemma settlements__processQueue s :
  settlements (_processQueue cfg s) = settlements s.
Proof.
  unfold _processQueue.
  destruct (shuttingDown s || isEmpty (taskQueue s)); [done|].
  destruct (items (taskQueue s)) as [|x rest] eqn:E; [done|].
  destruct (_findSuitableBrowser cfg (q_requirements x) s); simpl.
  - unfold dequeue. by rewrite E.
  - by destruct (_ <? _)%nat.
Qed.

Lemma reachable_run s es : reachable cfg s -> reachable cfg (run cfg s es).
Proof.
  revert s. induction es as [|e es IH]; intros s H; simpl; [done|].
  apply IH. by constructor.
Qed.

Lemma count_partition (P Q : BrowserState -> bool) s l :
  (forall b, Q b = negb (P b)) ->
  (forall id, id ∈ l -> is_Some (heap s !! id)) ->
  (List.length (List.filter (lookup_test P s) l)
   + List.length (List.filter (lookup_test Q s) l))%nat = List.length l.
Proof.
  intros HQ. induction l as [|id l IH]; intros Hl; simpl; [done|].
  destruct (Hl id) as [bs Hb]; [by left|].
  assert (lookup_test P s id = P bs) as -> by (unfold lookup_test; by rewrite Hb).
  assert (lookup_test Q s id = negb (P bs)) as ->
    by (unfold lookup_test; by rewrite Hb, HQ).
  specialize (IH (fun i Hi => Hl i (list_elem_of_further _ _ _ Hi))).
  destruct (P bs); simpl; lia.
Qed.

End SchedulerPass.

(** ** The concrete pools are reachable *)

Lemma reachable_start_one : reachable cfg_one (start cfg_one).
Proof. by apply reachable_init. Qed.

Lemma reachable_start_two : reachable cfg_two (start cfg_two).
Proof. by apply reachable_init. Qed.

Lemma reachable_s_queued : reachable cfg_one s_queued.
Proof. apply reachable_run, reachable_start_one. Qed.

Example s_queued_order :
  q_task <$> items (taskQueue s_queued) = ["C"; "D"; "B"]%string.
Proof. reflexivity. Qed.

(** ** Every turn is a sequence of primitive moves *)

Section Moves.
Context (cfg : Config).

Lemma moves__processQueue s : rtc (move cfg) s (_processQueue cfg s).
Proof.
  unfold _processQueue.
  destruct (shuttingDown s) eqn:Es; simpl; [done|].
  destruct (isEmpty (taskQueue s)); [done|].
  destruct (items (taskQueue s)) as [|x rest] eqn:E; [done|].
  destruct (_findSuitableBrowser cfg (q_requirements x) s) as [a|] eqn:F.
  - unfold dequeue. rewrite E. apply rtc_once. by apply m_dispatch.
  - destruct (_ <? _)%nat eqn:Ec; [|done].
    apply rtc_once. apply m_launchStart; [done|]. by apply Nat.ltb_lt.
Qed.

Lemma moves__removeBrowserFromPool id s :
  rtc (move cfg) s (_removeBrowserFromPool id s).
Proof.
  unfold _removeBrowserFromPool.
  eapply rtc_l; [apply (m_remove cfg s id)|].
  destruct (isConnected _ _); [|done].
  apply rtc_once. apply (m_close cfg _ [id]).
Qed.

Lemma moves_raceSettle s d g o :
  d ∈ dispatches s -> raceSettled d = false ->
  g = d_set_execSettled \/ (g = d_set_timerFired /\ is_Some o) ->
  o <> Some (Rejected ErrTaskCancelled) ->
  rtc (move cfg) s (raceSettle d o (update_dispatch (d_tid d) g s)).
Proof.
  intros Hd Hun Hg Ho. unfold raceSettle. destruct o as [o|].
  - apply rtc_once. apply (m_settle cfg s d g o); [done|done| |congruence].
    destruct Hg as [->|[-> _]]; auto.
  - destruct Hg as [->|[_ [? [=]]]]. apply rtc_once. by apply (m_latch cfg s d).
Qed.

Lemma moves_execSettles tid o s :
  o <> Some (Rejected ErrTaskCancelled) -> rtc (move cfg) s (execSettles tid o s).
Proof.
  intros Ho. unfold execSettles. destruct (find_dispatch tid s) as [d|] eqn:F; [|done].
  apply find_dispatch_Some in F as [Hd <-].
  destruct (execSettled d); [done|]. destruct (raceSettled d) eqn:Er.
  - apply rtc_once. apply m_mark; auto.
  - apply moves_raceSettle; auto.
Qed.

Lemma moves_timerFires tid s :
  Inv cfg s -> rtc (move cfg) s (timerFires tid s).
Proof.
  intros (_ & HT & _). unfold timerFires.
  destruct (find_dispatch tid s) as [d|] eqn:F; [|done].
  apply find_dispatch_Some in F as [Hd <-].
  destruct (timerFired d); [done|].
  rewrite (t_latch _ _ _ HT d Hd). destruct (raceSettled d) eqn:Er.
  - apply rtc_once. apply m_mark; auto.
  - apply moves_raceSettle; [done|done|right; by eauto|done].
Qed.

Lemma moves_finallyRuns tid s : rtc (move cfg) s (finallyRuns cfg tid s).
Proof.
  unfold finallyRuns. destruct (find_dispatch tid s) as [d|] eqn:F; [|done].
  apply find_dispatch_Some in F as [Hd <-].
  destruct (raceSettled d) eqn:Er; [|done].
  destruct (released d) eqn:El; [done|]. cbn [andb negb].
  eapply rtc_l; [by apply (m_release cfg s d)|]. apply moves__processQueue.
Qed.

Lemma moves_disconnected id s : rtc (move cfg) s (disconnected cfg id s).
Proof.
  unfold disconnected. destruct (heap s !! id) as [bs|] eqn:Hb; [|done].
  destruct (connected bs) eqn:Hc; [|done].
  eapply rtc_l; [by eapply m_disconnect|]. unfold onDisconnected.
  unfold _removeBrowserFromPool.
  assert (isConnected id
            (set_browsers
               (remove_first id
                  (browsers (set_heap (alter (b_set_connected false) id (heap s)) s)))
               (set_heap (alter (b_set_connected false) id (heap s)) s)) = false)
    as ->.
  { unfold isConnected, lookup_test. simpl. by rewrite lookup_alter_eq, Hb. }
  destruct (shuttingDown _) eqn:Es; [done|].
  destruct (_ <? _)%nat eqn:Ec; [|apply moves__processQueue].
  eapply rtc_l; [|apply moves__processQueue].
  apply m_launchStart; [done|]. by apply Nat.ltb_lt.
Qed.

Lemma moves_queueTaskWithRequirements f r p s :
  rtc (move cfg) s (queueTaskWithRequirements cfg f r p s).2.
Proof.
  unfold queueTaskWithRequirements.
  destruct (shuttingDown s) eqn:Es; [done|].
  destruct f as [name|]; [|done].
  destruct (use_adblock r && negb _); [done|].
  destruct (use_adblock r && Nat.eqb _ _); [done|].
  destruct (enqueue name p r (taskQueue s)) as [taskId q] eqn:E. cbn [snd].
  assert (q = (enqueue name p r (taskQueue s)).2) as -> by by rewrite E.
  eapply rtc_l; [by apply m_enqueue|]. apply moves__processQueue.
Qed.

Lemma moves_killBrowser h r t s : rtc (move cfg) s (killBrowser cfg h r t s).
Proof.
  unfold killBrowser. destruct (find _ _) as [id|].
  - etrans; [apply moves__removeBrowserFromPool|].
    destruct r; cbn [andb]; [|done].
    destruct (shuttingDown _) eqn:Es; cbn [negb]; [done|].
    destruct (_ <? _)%nat eqn:Ec; [|done].
    apply rtc_once. apply m_launchStart; [done|]. by apply Nat.ltb_lt.
  - destruct (isConnected h s); [|done].
    apply rtc_once. apply (m_close cfg s [h]).
Qed.

Lemma moves_shutdown from_init s : rtc (move cfg) s (shutdown from_init s).
Proof.
  unfold shutdown.
  eapply rtc_l; [apply m_gate|].
  eapply rtc_l; [apply (m_close cfg _ (rev (browsers s)))|].
  apply rtc_once. apply m_shutdownCalls.
Qed.

Lemma moves_closeSettles k b ok s : rtc (move cfg) s (closeSettles cfg k b ok s).
Proof.
  unfold closeSettles. destruct (shutdownCalls s !! k) as [c|]; [|done].
  destruct (bool_decide _); [|done].
  eapply rtc_l; [apply m_shutdownCalls|].
  destruct ok; [apply moves_disconnected|apply moves__removeBrowserFromPool].
Qed.

Lemma moves_shutdownDone k s : rtc (move cfg) s (shutdownDone k s).
Proof.
  unfold shutdownDone. destruct (shutdownCalls s !! k) as [c|]; [|done].
  destruct (sd_pending c); [|done].
  eapply rtc_l; [apply m_shutdownCalls|].
  eapply rtc_l; [apply m_shutdownsResolved|].
  destruct (sd_from_init c); [|done]. apply rtc_once. apply m_phase.
Qed.

Lemma moves_launchSucceeds i s : rtc (move cfg) s (launchSucceeds cfg i s).
Proof.
  unfold launchSucceeds. destruct (launching s !! i) as [l|] eqn:El; [|done].
  eapply rtc_l; [by eapply m_launched|].
  destruct (l_cont l); try apply moves__processQueue; [|done].
  destruct (phase _); try done. destruct (warmupPending _); [done|].
  apply rtc_once. apply m_phase.
Qed.

Lemma moves_launchFails i m s : rtc (move cfg) s (launchFails i m s).
Proof.
  unfold launchFails. destruct (launching s !! i) as [l|] eqn:El; [|done].
  eapply rtc_l; [by eapply m_launchFailed|].
  destruct (l_cont l); try done. destruct (phase _) eqn:Ep; try done.
  eapply rtc_l; [apply m_phase|]. apply moves_shutdown.
Qed.

Lemma moves_step s e : Inv cfg s -> rtc (move cfg) s (step cfg s e).
Proof.
  intros HI. destruct e; simpl.
  - apply moves_launchSucceeds.
  - apply moves_launchFails.
  - apply moves_disconnected.
  - by apply moves_execSettles.
  - by apply moves_execSettles.
  - by apply moves_timerFires.
  - destruct (returned s); [apply moves_queueTaskWithRequirements|done].
  - destruct (returned s); [apply moves_killBrowser|done].
  - destruct (returned s); [apply moves_shutdown|done].
  - apply moves_closeSettles.
  - apply moves_shutdownDone.
  - by apply moves_execSettles.
  - apply moves_finallyRuns.
Qed.

End Moves.

Section MovesInduction.
Context (cfg : Config).

Lemma move_Inv s s' : Inv cfg s -> move cfg s s' -> Inv cfg s'.
Proof.
  intros HI Hm. pose proof HI as (HQ & HT & HB).
  destruct Hm as [t k _ _|i l _|i l _|id|l|id bs _ _|name p r _|x rest a _ E F
                 |d g Hd Hset Hg|d g o Hd Hun Hg _|d Hd Hun|d Hd Hset Hun
                 | | | |]; try exact HI.
  - by apply (Inv_launched cfg (l_type l) (set_launching (delete i (launching s)) s)).
  - split; [exact HQ|]. split; [exact HT|]. simpl.
    eapply InvB_roster; [|done]. apply remove_first_subset.
  - split; [exact HQ|]. split; [exact HT|]. simpl.
    eapply InvB_roster; [apply remove_first_subset|]. by apply InvB_connected.
  - split; [by apply InvQ_enqueue|]. split; [by apply InvT_enqueue|done].
  - by apply Inv_dispatch.
  - destruct Hg as [-> | ->];
      by apply Inv_mark; [| | |apply fu_execSettled || apply fu_timerFired| | |].
  - assert (flag_update g /\ forall d0, released (g d0) = released d0) as [Hfu Hgr]
      by (destruct Hg as [-> | ->]; split;
          first [apply fu_execSettled|apply fu_timerFired|done]).
    by apply (Inv_raceSettle cfg s d g (Some o)).
  - by apply (Inv_raceSettle cfg s d d_set_execSettled None);
      [| | |apply fu_execSettled|].
  - by apply Inv_release.
  - split; [by apply InvQ_clear|]. split; [by apply InvT_drain|done].
Qed.

Lemma moves_warmup t k n s :
  browsers s = [] -> shuttingDown s = false -> (n <= maxOfType cfg t)%nat ->
  rtc (move cfg) s (Nat.iter n (_launchBrowser cfg t k) s)
  /\ browsers (Nat.iter n (_launchBrowser cfg t k) s) = []
  /\ shuttingDown (Nat.iter n (_launchBrowser cfg t k) s) = false.
Proof.
  intros Hb Hs. induction n as [|n IH]; intros Hn; [done|].
  destruct IH as (IH & Hb' & Hs'); [lia|]. simpl.
  split; [|done]. eapply rtc_r; [done|].
  apply m_launchStart; [done|]. unfold countOfType. rewrite Hb'. simpl. lia.
Qed.

Lemma moves_getBrowserPool s :
  getBrowserPool cfg = Some s -> rtc (move cfg) emptyPool s.
Proof.
  unfold getBrowserPool. destruct (_ && negb _); [done|]. intros [= <-].
  destruct (moves_warmup TDefault KWarmup (pool_size_default cfg) emptyPool)
    as (H1 & Hb1 & Hs1); [done..|].
  set (s1 := Nat.iter _ _ emptyPool) in *.
  set (s2 := if _ && _ then _ else _).
  assert (rtc (move cfg) s1 s2) as H2.
  { subst s2. destruct (_ && _); [|done].
    by destruct (moves_warmup TAdblock KWarmup (pool_size_adblock cfg) s1)
      as (H2 & _ & _). }
  etrans; [exact H1|]. etrans; [exact H2|].
  destruct (warmupPending s2); [done|]. apply rtc_once. apply m_phase.
Qed.

Lemma Inv_emptyPool : Inv cfg emptyPool.
Proof.
  split; [apply InvQ_new|]. split; [|apply InvB_empty].
  split; simpl; first [by intros ? ?%elem_of_nil
                      |by intros ? ? ?%elem_of_nil
                      |constructor].
Qed.

(** Induction over the reachable states, one primitive move at a time. *)
Lemma reachable_moves_ind (P : Pool -> Prop) :
  P emptyPool ->
  (forall s s', Inv cfg s -> P s -> move cfg s s' -> P s') ->
  forall s, reachable cfg s -> P s.
Proof.
  intros H0 Hstep.
  assert (forall s s', rtc (move cfg) s s' -> Inv cfg s -> P s ->
                       Inv cfg s' /\ P s') as Hrtc.
  { intros s s' Hr. induction Hr as [s|s s1 s2 Hm _ IH]; [done|].
    intros HI HP. apply IH; [by eapply move_Inv|by eapply Hstep]. }
  intros s Hr.
  enough (Inv cfg s /\ P s) as [_ ?] by done.
  induction Hr as [s Hs|s e _ [HI HP]].
  - apply (Hrtc emptyPool); [by apply moves_getBrowserPool|apply Inv_emptyPool|done].
  - apply (Hrtc s); [by apply moves_step|done..].
Qed.

(** The same for a relation between the state a turn starts from and the
    states it passes through. *)
Lemma step_moves_ind (R : Pool -> Pool -> Prop) s e :
  Inv cfg s -> R s s ->
  (forall s1 s2, Inv cfg s1 -> R s s1 -> move cfg s1 s2 -> R s s2) ->
  R s (step cfg s e).
Proof.
  intros HI H0 Hstep.
  assert (forall s1 s2, rtc (move cfg) s1 s2 -> Inv cfg s1 -> R s s1 -> R s s2)
    as Hrtc.
  { intros s1 s2 Hr. induction Hr as [s1|s1 s2 s3 Hm _ IH]; [done|].
    intros HI1 HR. apply IH; [by eapply move_Inv|by eapply Hstep]. }
  apply (Hrtc s); [by apply moves_step|done..].
Qed.

End MovesInduction.

(** * The claims *)

(** ** C7: priority order, first-in first-out within a priority *)

(** C7.  In every reachable state the pending queue is ordered by descending
    priority, and items of equal priority stand in the order of their ids,
    which [enqueue] hands out in increasing order (every queued id is below
    the counter the next enqueue will use).  Hence the head, the only item a
    scheduler pass looks at and the one it dequeues when it dispatches, has
    the highest priority and, among the items of that priority, the smallest
    id. *)
Theorem queue_priority_fifo cfg s :
  reachable cfg s ->
  StronglySorted before (items (taskQueue s))
  /\ (forall x, x ∈ items (taskQueue s) -> (q_id x < taskIdCounter (taskQueue s))%nat)
  /\ (forall h rest, items (taskQueue s) = h :: rest ->
        forall x, x ∈ rest ->
          q_priority x <= q_priority h
          /\ (q_priority x = q_priority h -> (q_id h < q_id x)%nat))
  /\ (forall d, d ∈ dispatches (_processQueue cfg s) -> d ∉ dispatches s ->
        exists rest, items (taskQueue s) = d_item d :: rest
                     /\ items (taskQueue (_processQueue cfg s)) = rest).
Proof.
  intros (HQ & _ & _)%Inv_reachable. destruct HQ as [Hs Hi _].
  split; [done|]. split; [done|]. split.
  - intros h rest E x Hx. rewrite E in Hs.
    apply StronglySorted_inv in Hs as [_ Hh]. rewrite Forall_forall in Hh.
    specialize (Hh x Hx). split; [by apply before_priority|].
    intros Heq. by apply before_tie.
  - intros d Hd Hnew.
    destruct (processQueue_cases cfg s)
      as [(_ & _ & Hsame)|(x & rest & a & _ & E & _ & Hpq)].
    + rewrite Hsame in Hd. done.
    + rewrite Hpq in Hd |- *. simpl in Hd.
      apply elem_of_cons in Hd as [->|Hd]; [|done].
      exists rest. by rewrite E.
Qed.

Lemma queue_priority_fifo_witness :
  StronglySorted before (items (taskQueue s_queued))
  /\ (forall x, x ∈ items (taskQueue s_queued) ->
        (q_id x < taskIdCounter (taskQueue s_queued))%nat)
  /\ (forall h rest, items (taskQueue s_queued) = h :: rest ->
        forall x, x ∈ rest ->
          q_priority x <= q_priority h
          /\ (q_priority x = q_priority h -> (q_id h < q_id x)%nat))
  /\ (forall d, d ∈ dispatches (_processQueue cfg_one s_queued) ->
        d ∉ dispatches s_queued ->
        exists rest, items (taskQueue s_queued) = d_item d :: rest
                     /\ items (taskQueue (_processQueue cfg_one s_queued)) = rest).
Proof.
  apply (queue_priority_fifo cfg_one s_queued).
  apply reachable_run, reachable_init. reflexivity.
Defined.

(** ** C6: admission *)

(** C6.  [queueTaskWithRequirements] returns an already rejected promise and
    leaves the pool, hence the queue and its length, exactly as they were
    whenever the pool is shutting down, or the task is not a function, or the
    requirements ask for adblock while [pool_size_adblock] is 0 or no
    [adblockExtensionPath] is configured.  While shutting down the error is
    the shutting-down one. *)
Theorem queueTask_rejects_untouched cfg s f r p :
  shuttingDown s = true
  \/ is_function f = false
  \/ (use_adblock r = true
      /\ (pool_size_adblock cfg = 0%nat
          \/ path_truthy (adblockExtensionPath cfg) = false)) ->
  (exists e, (queueTaskWithRequirements cfg f r p s).1 = RejectedNow e)
  /\ (queueTaskWithRequirements cfg f r p s).2 = s
  /\ PriorityQueue.length (taskQueue (queueTaskWithRequirements cfg f r p s).2)
     = PriorityQueue.length (taskQueue s)
  /\ (shuttingDown s = true ->
      (queueTaskWithRequirements cfg f r p s).1
      = RejectedNow ErrShuttingDownNoNewTasks).
Proof.
  intros H.
  assert ((exists e, (queueTaskWithRequirements cfg f r p s).1 = RejectedNow e)
          /\ (queueTaskWithRequirements cfg f r p s).2 = s) as [He Hs].
  { unfold queueTaskWithRequirements.
    destruct (shuttingDown s) eqn:Es; [by eauto|].
    destruct f as [name|]; [|by eauto].
    destruct H as [H|[H|[Ha H]]]; [done|done|]. rewrite Ha. simpl.
    destruct (path_truthy (adblockExtensionPath cfg)) eqn:Ep; simpl; [|by eauto].
    destruct H as [H|H]; [|done]. rewrite H. simpl. by eauto. }
  split; [done|]. split; [done|]. split; [by rewrite Hs|].
  intros Es. unfold queueTaskWithRequirements. by rewrite Es.
Qed.

Lemma queueTask_rejects_untouched_witness :
  (exists e,
     (queueTaskWithRequirements cfg_one (JsFunction "shot") with_adblock 0
        s_queued).1 = RejectedNow e)
  /\ (queueTaskWithRequirements cfg_one (JsFunction "shot") with_adblock 0
        s_queued).2 = s_queued
  /\ PriorityQueue.length
       (taskQueue (queueTaskWithRequirements cfg_one (JsFunction "shot")
                     with_adblock 0 s_queued).2)
     = PriorityQueue.length (taskQueue s_queued)
  /\ (shuttingDown s_queued = true ->
      (queueTaskWithRequirements cfg_one (JsFunction "shot") with_adblock 0
         s_queued).1 = RejectedNow ErrShuttingDownNoNewTasks).
Proof.
  apply (queueTask_rejects_untouched cfg_one s_queued (JsFunction "shot")
           with_adblock 0).
  right. right. split; [reflexivity|]. left. reflexivity.
Defined.

(** ** C10: the stats snapshot *)

(** Busy and idle browsers make the total. *)
Lemma stats_busy_idle cfg s :
  reachable cfg s ->
  (busyBrowsers (getStats s) + idleBrowsers (getStats s))%nat
  = totalBrowsers (getStats s).
Proof.
  intros (_ & _ & HB)%Inv_reachable. pose proof (b_roster _ _ _ _ _ HB) as Hr.
  unfold getStats. simpl. by apply count_partition.
Qed.

(** C10.  The snapshot can be inconsistent: in the reachable state
    [s_other_type] the roster holds one browser, which [getStats] counts in
    [totalBrowsers] and in neither [defaultBrowsers] nor [adblockBrowsers].
    [_launchBrowser] treats every type but ["adblock"] as default (launch
    options, cap), yet stores the string it was given. *)
Theorem stats_miss_other_type :
  reachable cfg_one s_other_type
  /\ (b_type <$> heap s_other_type !! 1%nat) = Some (TOther "webkit")
  /\ getStats s_other_type
     = {| totalBrowsers := 1; defaultBrowsers := 0; adblockBrowsers := 0;
          busyBrowsers := 0; idleBrowsers := 1; queuedTasks := 0 |}
  /\ (defaultBrowsers (getStats s_other_type)
      + adblockBrowsers (getStats s_other_type))%nat
     <> totalBrowsers (getStats s_other_type).
Proof.
  split; [apply reachable_run, reachable_init; reflexivity|].
  split; [reflexivity|]. split; [reflexivity|]. vm_compute. lia.
Qed.

Example s_queued_stats :
  getStats s_queued
  = {| totalBrowsers := 1; defaultBrowsers := 1; adblockBrowsers := 0;
       busyBrowsers := 1; idleBrowsers := 0; queuedTasks := 3 |}.
Proof. reflexivity. Qed.

(** ** C9: no double dispatch *)

Lemma suitable_spec cfg t bs :
  suitable cfg t bs = true <->
  busy bs = false /\ pagesOpen bs < Z.of_nat (maxPagesPerBrowser cfg)
  /\ b_type bs = t /\ connected bs = true.
Proof.
  unfold suitable, type_eqb.
  rewrite !andb_true_iff, negb_true_iff, Z.ltb_lt, bool_decide_eq_true. tauto.
Qed.

Lemma busy_never_selected cfg s req b :
  lookup_test busy s b = true -> _findSuitableBrowser cfg req s <> Some b.
Proof.
  intros Hb (_ & bs & Hl & Hs)%findSuitable_Some.
  apply suitable_spec in Hs as (Hbusy & _).
  unfold lookup_test in Hb. rewrite Hl in Hb. congruence.
Qed.

(** C9.  The browser [_findSuitableBrowser] selects is on the roster, not
    busy, below [maxPagesPerBrowser], of the type the task requires and
    connected; a browser whose busy flag is set is never selected; and when a
    pass of [_processQueue] dispatches, the browser of the new dispatch is the
    one selected in the state the pass started from, and in the state the
    pass ends in that browser object has been acquired (busy flag set,
    [pagesOpen] incremented): selection and marking happen in one turn, so
    no selection can return that browser until it is released. *)
Theorem no_double_dispatch cfg s :
  (forall req b, _findSuitableBrowser cfg req s = Some b ->
     b ∈ browsers s
     /\ exists bs, heap s !! b = Some bs
          /\ busy bs = false
          /\ pagesOpen bs < Z.of_nat (maxPagesPerBrowser cfg)
          /\ b_type bs = requiredType req
          /\ connected bs = true)
  /\ (forall req b, lookup_test busy s b = true ->
        _findSuitableBrowser cfg req s <> Some b)
  /\ (forall d, d ∈ dispatches (_processQueue cfg s) -> d ∉ dispatches s ->
        _findSuitableBrowser cfg (q_requirements (d_item d)) s = Some (d_browser d)
        /\ heap (_processQueue cfg s) !! d_browser d
           = b_acquire <$> heap s !! d_browser d
        /\ lookup_test busy (_processQueue cfg s) (d_browser d) = true
        /\ (forall req,
              _findSuitableBrowser cfg req (_processQueue cfg s)
              <> Some (d_browser d))).
Proof.
  split; [|split].
  - intros req b (Hin & bs & Hl & Hs)%findSuitable_Some.
    split; [done|]. exists bs. split; [done|]. by apply suitable_spec.
  - intros req b. apply busy_never_selected.
  - intros d Hd Hnew.
    destruct (processQueue_cases cfg s)
      as [(_ & _ & Hsame)|(x & rest & a & _ & E & F & Hpq)].
    { rewrite Hsame in Hd. done. }
    assert (d_item d = x /\ d_browser d = a) as [Hx Ha].
    { rewrite Hpq in Hd. simpl in Hd.
      apply elem_of_cons in Hd as [->|Hd]; done. }
    pose proof F as (_ & bs & Hl & _)%findSuitable_Some.
    assert (heap (_processQueue cfg s) !! d_browser d
            = b_acquire <$> heap s !! d_browser d) as Hheap.
    { rewrite Hpq, Ha. simpl. by rewrite lookup_alter_eq. }
    assert (lookup_test busy (_processQueue cfg s) (d_browser d) = true) as Hbusy.
    { unfold lookup_test. rewrite Hheap, Ha, Hl. done. }
    split; [by rewrite Hx, Ha|]. split; [done|]. split; [done|].
    intros req. by apply busy_never_selected.
Qed.

Lemma no_double_dispatch_witness :
  _findSuitableBrowser cfg_one (q_requirements (d_item d_running)) s_enqueued
  = Some (d_browser d_running)
  /\ heap (_processQueue cfg_one s_enqueued) !! d_browser d_running
     = b_acquire <$> heap s_enqueued !! d_browser d_running
  /\ lookup_test busy (_processQueue cfg_one s_enqueued) (d_browser d_running) = true
  /\ (forall req,
        _findSuitableBrowser cfg_one req (_processQueue cfg_one s_enqueued)
        <> Some (d_browser d_running)).
Proof.
  apply (proj2 (proj2 (no_double_dispatch cfg_one s_enqueued)) d_running).
  - vm_compute. left.
  - vm_compute. intros H. inversion H.
Defined.

(** The head of [s_queued] is not dispatched while browser 0 is busy; once
    task 0 has completed, the pass of its [.finally] handler gives browser 0
    to the head "C". *)
Example s_queued_redispatch :
  _findSuitableBrowser cfg_one plain s_queued = None
  /\ (d_tid <$> dispatches (step cfg_one s_queued (EvTaskResolves 0 "png")))
     = [0]%nat
  /\ (d_tid <$> dispatches
        (run cfg_one s_queued [EvTaskResolves 0 "png"; EvFinally 0]))
     = [2; 0]%nat.
Proof. repeat split; reflexivity. Qed.

(** ** C3 and C2: the settlement paths *)

Section Settlement.
Context (cfg : Config).

(** While the race is open each of the four events settles it. *)
Lemma step_settles s d :
  Inv cfg s -> d ∈ dispatches s -> raceSettled d = false ->
  (forall r, step cfg s (EvTaskResolves (d_tid d) r)
             = raceSettle d (Some (Resolved r))
                 (update_dispatch (d_tid d) d_set_execSettled s))
  /\ (forall m, step cfg s (EvTaskRejects (d_tid d) m)
                = raceSettle d (Some (Rejected (ErrJob m)))
                    (update_dispatch (d_tid d) d_set_execSettled s))
  /\ step cfg s (EvTimerFires (d_tid d))
     = raceSettle d (Some (Rejected (ErrTimedOut (d_tid d))))
         (update_dispatch (d_tid d) d_set_timerFired s)
  /\ step cfg s (EvTaskRejectsValue (d_tid d))
     = raceSettle d None (update_dispatch (d_tid d) d_set_execSettled s).
Proof.
  intros (_ & HT & _) Hd Hun.
  pose proof (find_dispatch_elem s d (t_dnodup _ _ _ HT) Hd) as Hf.
  assert (execSettled d = false) as He.
  { destruct (execSettled d) eqn:E; [|done].
    pose proof (t_exec _ _ _ HT d Hd E). congruence. }
  assert (timerFired d = false) as Ht.
  { destruct (timerFired d) eqn:E; [|done].
    pose proof (t_timer _ _ _ HT d Hd E). congruence. }
  assert (taskCompleted d = false) as Hc.
  { by rewrite (t_latch _ _ _ HT d Hd). }
  repeat split; intros; simpl; unfold execSettles, timerFires;
    by rewrite Hf, ?He, ?Ht, ?Hc, ?Hun.
Qed.

(** Once the race has settled they change neither the settlement log nor
    any browser object nor the queue. *)
Lemma step_late s d e :
  Inv cfg s -> d ∈ dispatches s -> raceSettled d = true ->
  settlement_of (d_tid d) e ->
  settlements (step cfg s e) = settlements s
  /\ heap (step cfg s e) = heap s
  /\ taskQueue (step cfg s e) = taskQueue s.
Proof.
  intros (_ & HT & _) Hd Hset He.
  pose proof (find_dispatch_elem s d (t_dnodup _ _ _ HT) Hd) as Hf.
  pose proof (t_latch _ _ _ HT d Hd) as Hc. rewrite Hset in Hc.
  destruct He as [[r ->]|[[m ->]|[->| ->]]]; simpl;
    unfold execSettles, timerFires; rewrite Hf.
  - destruct (execSettled d); [done|]. by rewrite Hset.
  - destruct (execSettled d); [done|]. by rewrite Hset.
  - destruct (timerFired d); [done|]. by rewrite Hc.
  - destruct (execSettled d); [done|]. by rewrite Hset.
Qed.

Lemma settlements_raceSettle s d g o :
  settlements (raceSettle d (Some o) (update_dispatch (d_tid d) g s))
  = (d_tid d, o) :: settlements s.
Proof. done. Qed.

(** The handlers of the race leave the browser objects alone. *)
Lemma heap_raceSettle s d g o :
  heap (raceSettle d o (update_dispatch (d_tid d) g s)) = heap s.
Proof. by destruct o. Qed.

Lemma awaiting_same tid b s s' :
  dispatches s' = dispatches s ->
  awaiting_finally tid b (dispatches s) -> awaiting_finally tid b (dispatches s').
Proof. by intros ->. Qed.

Lemma awaiting_upd tid b tid' f ds :
  flag_update f ->
  (forall d, raceSettled d = true -> raceSettled (f d) = true) ->
  (forall d, released (f d) = released d) ->
  awaiting_finally tid b ds -> awaiting_finally tid b (upd tid' f ds).
Proof.
  intros Hf Hr Hl (d & Hd & Ht & Hb & Hs & Hu).
  exists (if Nat.eqb (d_tid d) tid' then f d else d).
  split; [apply elem_of_upd; by exists d|].
  destruct (Nat.eqb (d_tid d) tid'); [|done].
  by rewrite fu_tid, (fu_browser f Hf), Hl, Hr.
Qed.

Lemma awaiting_upd_other tid b tid' f ds :
  tid' <> tid ->
  awaiting_finally tid b ds -> awaiting_finally tid b (upd tid' f ds).
Proof.
  intros Hne (d & Hd & Ht & Hb & Hs & Hu). exists d.
  split; [|done]. apply elem_of_upd. exists d. split; [done|].
  assert (Nat.eqb (d_tid d) tid' = false) as -> by (apply Nat.eqb_neq; congruence).
  done.
Qed.

Lemma awaiting__processQueue tid b s :
  awaiting_finally tid b (dispatches s) ->
  awaiting_finally tid b (dispatches (_processQueue cfg s)).
Proof.
  intros H. destruct (processQueue_cases cfg s)
    as [(_ & _ & ->)|(x & rest & a & _ & _ & _ & ->)]; [done|].
  destruct H as (d & Hd & H). exists d. split; [|done]. simpl. by right.
Qed.

Lemma awaiting_raceSettle tid b d o g s :
  flag_update g ->
  (forall d, raceSettled (g d) = raceSettled d) ->
  (forall d, released (g d) = released d) ->
  awaiting_finally tid b (dispatches s) ->
  awaiting_finally tid b
    (dispatches (raceSettle d o (update_dispatch (d_tid d) g s))).
Proof.
  intros Hg Hgs Hgr H.
  assert (awaiting_finally tid b
            (upd (d_tid d) d_set_completed (upd (d_tid d) g (dispatches s)))) as H'.
  { apply awaiting_upd; [apply fu_completed|done|done|].
    apply awaiting_upd; [done|intros d0; by rewrite Hgs|done|done]. }
  by destruct o.
Qed.

Lemma awaiting_execSettles tid b tid' o s :
  awaiting_finally tid b (dispatches s) ->
  awaiting_finally tid b (dispatches (execSettles tid' o s)).
Proof.
  intros H. unfold execSettles.
  destruct (find_dispatch tid' s) as [d|] eqn:F; [|done].
  apply find_dispatch_Some in F as [_ <-].
  destruct (execSettled d); [done|]. destruct (raceSettled d).
  - simpl. apply awaiting_upd; [apply fu_execSettled|done..].
  - by apply awaiting_raceSettle; [apply fu_execSettled| | |].
Qed.

Lemma awaiting_timerFires tid b tid' s :
  awaiting_finally tid b (dispatches s) ->
  awaiting_finally tid b (dispatches (timerFires tid' s)).
Proof.
  intros H. unfold timerFires.
  destruct (find_dispatch tid' s) as [d|] eqn:F; [|done].
  apply find_dispatch_Some in F as [_ <-].
  assert (awaiting_finally tid b
            (dispatches (update_dispatch (d_tid d) d_set_timerFired s))) as H'.
  { simpl. apply awaiting_upd; [apply fu_timerFired|done..]. }
  destruct (timerFired d); [done|]. destruct (taskCompleted d); [done|].
  destruct (raceSettled d); [done|].
  by apply awaiting_raceSettle; [apply fu_timerFired| | |].
Qed.

Lemma awaiting_finallyRuns tid b tid' s :
  tid' <> tid ->
  awaiting_finally tid b (dispatches s) ->
  awaiting_finally tid b (dispatches (finallyRuns cfg tid' s)).
Proof.
  intros Hne H. unfold finallyRuns.
  destruct (find_dispatch tid' s) as [d|] eqn:F; [|done].
  destruct (raceSettled d && negb (released d)); [|done].
  apply awaiting__processQueue. simpl. by apply awaiting_upd_other.
Qed.

Lemma awaiting_disconnected tid b id s :
  awaiting_finally tid b (dispatches s) ->
  awaiting_finally tid b (dispatches (disconnected cfg id s)).
Proof.
  intros H. unfold disconnected, onDisconnected, _removeBrowserFromPool.
  repeat case_match; try done; by apply awaiting__processQueue.
Qed.

Lemma awaiting_shutdown tid b from_init s :
  awaiting_finally tid b (dispatches s) ->
  awaiting_finally tid b (dispatches (shutdown from_init s)).
Proof. done. Qed.

(** Until its [.finally] handler runs, a settled dispatch stays as it is. *)
Lemma awaiting_step tid b s e :
  e <> EvFinally tid ->
  awaiting_finally tid b (dispatches s) ->
  awaiting_finally tid b (dispatches (step cfg s e)).
Proof.
  intros Hne H. destruct e; simpl.
  - unfold launchSucceeds. repeat case_match; try done;
      by apply awaiting__processQueue.
  - unfold launchFails. repeat case_match; done.
  - by apply awaiting_disconnected.
  - by apply awaiting_execSettles.
  - by apply awaiting_execSettles.
  - by apply awaiting_timerFires.
  - unfold queueTaskWithRequirements. repeat case_match; try done.
    simpl. by apply awaiting__processQueue.
  - unfold killBrowser, _removeBrowserFromPool. repeat case_match; done.
  - by destruct (returned s).
  - unfold closeSettles, _removeBrowserFromPool.
    repeat case_match; try done. by apply awaiting_disconnected.
  - unfold shutdownDone. repeat case_match; done.
  - by apply awaiting_execSettles.
  - apply awaiting_finallyRuns; [congruence|done].
Qed.

Lemma awaiting_run tid b s es :
  EvFinally tid ∉ es ->
  awaiting_finally tid b (dispatches s) ->
  awaiting_finally tid b (dispatches (run cfg s es)).
Proof.
  revert s. induction es as [|e es IH]; intros s Hnin H; [done|].
  apply not_elem_of_cons in Hnin as [Hne Hnin]. simpl.
  apply IH; [done|]. apply awaiting_step; [congruence|done].
Qed.

(** A settlement event on an open race leaves the dispatch waiting for its
    [.finally] handler, and the browser objects untouched. *)
Lemma awaiting_settled s d e :
  Inv cfg s -> d ∈ dispatches s -> raceSettled d = false ->
  settlement_of (d_tid d) e ->
  awaiting_finally (d_tid d) (d_browser d) (dispatches (step cfg s e))
  /\ heap (step cfg s e) = heap s.
Proof.
  intros HI Hd Hun He. pose proof HI as (_ & HT & _).
  assert (released d = false) as Hrel.
  { destruct (released d) eqn:E; [|done].
    pose proof (t_rel _ _ _ HT d Hd E). congruence. }
  destruct (step_settles s d HI Hd Hun) as (Hres & Hrej & Htim & Hval).
  assert (forall g o, flag_update g -> (forall d, released (g d) = released d) ->
            awaiting_finally (d_tid d) (d_browser d)
              (dispatches (raceSettle d o (update_dispatch (d_tid d) g s)))
            /\ heap (raceSettle d o (update_dispatch (d_tid d) g s)) = heap s)
    as Hgen.
  { intros g o Hg Hgr. split; [|apply heap_raceSettle].
    assert (awaiting_finally (d_tid d) (d_browser d)
              (upd (d_tid d) d_set_completed (upd (d_tid d) g (dispatches s))))
      as H'; [|by destruct o].
    exists (d_set_completed (g d)). split.
    - apply elem_of_upd. exists (g d). rewrite fu_tid, Nat.eqb_refl by done.
      split; [|done]. apply elem_of_upd. exists d. by rewrite Nat.eqb_refl.
    - rewrite fu_tid, fu_tid by (done || apply fu_completed).
      rewrite (fu_browser _ fu_completed), (fu_browser g Hg).
      simpl. by rewrite Hgr. }
  destruct He as [[r ->]|[[m ->]|[->| ->]]];
    rewrite ?Hres, ?Hrej, ?Htim, ?Hval; apply Hgen;
    first [apply fu_execSettled|apply fu_timerFired|done].
Qed.

End Settlement.

(** C3.  For a dispatch whose race is still open the assigned browser object
    is busy and its [pagesOpen] is one above the value it had before the
    dispatch.  Let a settlement event happen (the task resolves, the task
    rejects with an error or with any other value, the timer fires), and
    then any turns other than the [.finally] handler of this dispatch (the
    caller's continuation queueing a task, say).  The browser is then still
    busy with the same [pagesOpen], and the [.finally] handler leads to a
    state of the form [_processQueue s'], where in [s'] (the state the
    handler has produced when it calls [_processQueue]) the browser's busy
    flag is false and its [pagesOpen] is back at the value before the
    dispatch. *)
Theorem settlement_releases_browser cfg s d e es :
  reachable cfg s -> d ∈ dispatches s -> raceSettled d = false ->
  settlement_of (d_tid d) e ->
  EvFinally (d_tid d) ∉ es ->
  let s1 := run cfg (step cfg s e) es in
  (exists bs0, heap s !! d_browser d = Some bs0
               /\ busy bs0 = true /\ pagesOpen bs0 = d_pre d + 1)
  /\ (exists bs1, heap s1 !! d_browser d = Some bs1
                  /\ busy bs1 = true /\ pagesOpen bs1 = d_pre d + 1)
  /\ exists s', step cfg s1 (EvFinally (d_tid d)) = _processQueue cfg s'
       /\ exists bs, heap s' !! d_browser d = Some bs
                     /\ busy bs = false /\ pagesOpen bs = d_pre d.
Proof.
  intros Hr Hd Hun He Hnin s1.
  pose proof (Inv_reachable cfg s Hr) as HI. pose proof HI as (_ & HT & HB).
  pose proof (b_dpre _ _ _ _ _ HB d Hd) as Hpre.
  assert (forall s0 d0, Inv cfg s0 -> d0 ∈ dispatches s0 -> released d0 = false ->
            d_browser d0 = d_browser d ->
            exists bs0, heap s0 !! d_browser d = Some bs0
                        /\ busy bs0 = true /\ pagesOpen bs0 = d_pre d + 1) as Hheld.
  { intros s0 d0 (_ & _ & HB0) Hd0 Hrel Hb.
    destruct (b_dheap _ _ _ _ _ HB0 d0 Hd0) as [bs0 Hb0]. rewrite Hb in Hb0.
    pose proof (holding_pos (d_browser d) d0 _ Hd0 Hrel Hb) as Hpos.
    pose proof (b_hold1 _ _ _ _ _ HB0 (d_browser d)) as Hle.
    assert (holding (d_browser d) (dispatches s0) = 1%nat) as Hone by lia.
    pose proof (b_pages _ _ _ _ _ HB0 _ _ Hb0) as Hp. rewrite Hone in Hp.
    pose proof (proj2 (b_busy _ _ _ _ _ HB0 _ _ Hb0) Hone) as Hbusy.
    exists bs0. rewrite Hpre. split; [done|]. split; [done|]. lia. }
  assert (released d = false) as Hrel.
  { destruct (released d) eqn:E; [|done].
    pose proof (t_rel _ _ _ HT d Hd E). congruence. }
  split; [by apply (Hheld s d)|].
  assert (reachable cfg s1) as Hr1 by (apply reachable_run; by constructor).
  pose proof (Inv_reachable cfg s1 Hr1) as HI1. pose proof HI1 as (_ & HT1 & _).
  destruct (awaiting_settled cfg s d e HI Hd Hun He) as [Haw _].
  apply (awaiting_run cfg _ _ _ es Hnin) in Haw.
  fold s1 in Haw. destruct Haw as (d1 & Hd1 & Ht1 & Hb1 & Hs1 & Hu1).
  destruct (Hheld s1 d1 HI1 Hd1 Hu1 Hb1) as (bs1 & Hbs1 & Hbusy1 & Hp1).
  split; [by exists bs1|].
  cbn [step]. unfold finallyRuns.
  rewrite <- Ht1, (find_dispatch_elem s1 d1 (t_dnodup _ _ _ HT1) Hd1), Hs1, Hu1.
  cbn [andb negb]. eexists. split; [reflexivity|].
  exists (b_release bs1). simpl. rewrite Hb1, lookup_alter_eq, Hbs1.
  split; [done|]. split; [done|]. simpl. lia.
Qed.

Lemma settlement_releases_browser_witness :
  let s1 := run cfg_one (step cfg_one s_queued (EvTimerFires 0))
              [EvQueueTask (JsFunction "E") plain 9] in
  (exists bs0, heap s_queued !! 0%nat = Some bs0
               /\ busy bs0 = true /\ pagesOpen bs0 = 0 + 1)
  /\ (exists bs1, heap s1 !! 0%nat = Some bs1
                  /\ busy bs1 = true /\ pagesOpen bs1 = 0 + 1)
  /\ exists s', step cfg_one s1 (EvFinally 0) = _processQueue cfg_one s'
       /\ exists bs, heap s' !! 0%nat = Some bs
                     /\ busy bs = false /\ pagesOpen bs = 0.
Proof.
  apply (settlement_releases_browser cfg_one s_queued d_running (EvTimerFires 0)
           [EvQueueTask (JsFunction "E") plain 9]).
  - apply reachable_run, reachable_init. reflexivity.
  - vm_compute. left.
  - reflexivity.
  - right. right. left. reflexivity.
  - intros [H|H%elem_of_nil]%elem_of_cons; [discriminate H|done].
Defined.

(** What the log of [resolve] / [reject] calls records.  No caller's promise
    is settled more than once; while the race of a dispatch is open, the
    timer firing rejects the promise with the timeout error, the task
    resolving resolves it with the result, the task rejecting with an
    [Error] rejects it with that error, and the task rejecting with a value
    without a string [message] leaves the log as it is; once the race has
    settled, a late result, a late failure or the timer leave the log as it
    is. *)
Lemma settlement_log cfg s :
  reachable cfg s ->
  NoDup (settlements s).*1
  /\ forall d, d ∈ dispatches s ->
       (raceSettled d = false ->
        settlements (step cfg s (EvTimerFires (d_tid d)))
        = (d_tid d, Rejected (ErrTimedOut (d_tid d))) :: settlements s
        /\ (forall r, settlements (step cfg s (EvTaskResolves (d_tid d) r))
                      = (d_tid d, Resolved r) :: settlements s)
        /\ (forall m, settlements (step cfg s (EvTaskRejects (d_tid d) m))
                      = (d_tid d, Rejected (ErrJob m)) :: settlements s)
        /\ settlements (step cfg s (EvTaskRejectsValue (d_tid d)))
           = settlements s)
       /\ (raceSettled d = true ->
           forall e, settlement_of (d_tid d) e ->
                     settlements (step cfg s e) = settlements s).
Proof.
  intros HI%Inv_reachable. pose proof HI as (_ & HT & _).
  split; [by destruct HT|]. intros d Hd. split.
  - intros Hun.
    destruct (step_settles cfg s d HI Hd Hun) as (Hres & Hrej & Htim & Hval).
    rewrite Htim, Hval. split; [done|].
    split; [intros; by rewrite Hres|]. split; [intros; by rewrite Hrej|done].
  - intros Hset e He. by apply (step_late cfg s d e).
Qed.

Example s_timed_out_log :
  settlements s_timed_out = [(0%nat, Rejected (ErrTimedOut 0))]
  /\ settlements (step cfg_one s_timed_out (EvTaskResolves 0 "late"))
     = [(0%nat, Rejected (ErrTimedOut 0))].
Proof. split; reflexivity. Qed.

(** Once the race of a dispatch has settled without a call of [resolve] or
    [reject], no move makes one. *)
Lemma latched_upd tid tid' f ds :
  flag_update f -> (forall d, raceSettled d = true -> raceSettled (f d) = true) ->
  (exists d, d ∈ ds /\ d_tid d = tid /\ raceSettled d = true) ->
  exists d, d ∈ upd tid' f ds /\ d_tid d = tid /\ raceSettled d = true.
Proof.
  intros Hf Hr (d & Hd & Ht & Hs).
  exists (if Nat.eqb (d_tid d) tid' then f d else d).
  split; [apply elem_of_upd; by exists d|].
  destruct (Nat.eqb (d_tid d) tid'); [|done].
  by rewrite fu_tid, Hr.
Qed.

Lemma latched_unsettled_move cfg tid s s' :
  Inv cfg s -> latched_unsettled tid s -> move cfg s s' ->
  latched_unsettled tid s'.
Proof.
  intros (HQ & HT & _) HP Hm. pose proof HP as [Hex Hnin].
  pose proof Hex as (d0 & Hd0 & Ht0 & Hs0).
  destruct Hm as [t k _ _|i l _|i l _|id|l|id bs Hb Hc|name p r _|x rest a _ E F
                 |d g Hd Hset Hg|d g o Hd Hun Hg Ho
                 |d Hd Hun|d Hd Hset Hun| | | |]; try exact HP.
  - (* dispatch *)
    split; [|done]. exists d0. split; [by right|done].
  - (* mark *)
    split; [|done]. simpl. apply latched_upd; [|by destruct Hg as [-> | ->]|done].
    destruct Hg as [-> | ->]; [apply fu_execSettled|apply fu_timerFired].
  - (* settle *)
    assert (flag_update g) as Hfu
      by (destruct Hg as [-> | ->]; [apply fu_execSettled|apply fu_timerFired]).
    split; simpl.
    + apply latched_upd; [apply fu_completed|done|].
      apply latched_upd; [done|by destruct Hg as [-> | ->]|done].
    + intros [Heq|Hin]%elem_of_cons; [|done].
      assert (d = d0) as -> by (eapply tid_inj; [by destruct HT|done|done|congruence]).
      congruence.
  - (* the handler throws *)
    split; [|done]. simpl. apply latched_upd; [apply fu_completed|done|].
    by apply latched_upd; [apply fu_execSettled| |].
  - (* release *)
    split; [|done]. simpl. by apply latched_upd; [apply fu_released| |].
  - (* the gate *)
    split; [done|]. simpl. rewrite drain_fst.
    intros [(x & Hx1 & Hx2)%elem_of_reverse%list_elem_of_fmap|Hin]%elem_of_app;
      [|done].
    apply (t_q_d _ _ _ HT x d0 Hx2 Hd0). congruence.
Qed.

Lemma latched_unsettled_run cfg tid s es :
  reachable cfg s -> latched_unsettled tid s ->
  latched_unsettled tid (run cfg s es).
Proof.
  revert s. induction es as [|e es IH]; intros s Hr HP; [done|].
  simpl. apply IH; [by constructor|].
  apply (step_moves_ind cfg (fun _ s' => latched_unsettled tid s'));
    [by apply Inv_reachable|done|].
  intros s1 s2 HI1 H1 Hm. by eapply latched_unsettled_move.
Qed.

(** C2.  A dispatched task whose caller's promise is never settled: in the
    reachable state [s_never_settled] task 0 was dispatched and its execution
    has rejected with a value that has no string [message]; the [.catch]
    handler has set the latch and thrown at its log line, one line before
    [queuedItem.reject(error)], so neither [resolve] nor [reject] was
    called.  No sequence of later turns calls one of them for task 0: the
    latch keeps the timer from rejecting.  After the [.finally] handler and
    the timer nothing is left that could settle the promise. *)
Theorem rejection_without_message_never_settles :
  reachable cfg_one s_never_settled
  /\ (exists d, dispatches s_never_settled = [d] /\ d_tid d = 0%nat
                /\ taskCompleted d = true /\ execSettled d = true)
  /\ settlements s_never_settled = []
  /\ (forall es, 0%nat ∉ (settlements (run cfg_one s_never_settled es)).*1)
  /\ (let s := run cfg_one s_never_settled [EvFinally 0; EvTimerFires 0] in
      exists d, dispatches s = [d] /\ d_tid d = 0%nat
                /\ timerFired d = true /\ released d = true
                /\ settlements s = []).
Proof.
  assert (reachable cfg_one s_never_settled) as Hr
    by (apply reachable_run, reachable_init; reflexivity).
  set (d := {| d_item := {| q_task := "A"; q_priority := 0;
                            q_requirements := plain; q_id := 0 |};
               d_browser := 0; d_pre := 0;
               taskCompleted := true; raceSettled := true;
               execSettled := true; timerFired := false; released := false |}).
  assert (dispatches s_never_settled = [d]) as Hds by (vm_compute; reflexivity).
  assert (settlements s_never_settled = []) as Hst by (vm_compute; reflexivity).
  split; [done|]. split; [by exists d|]. split; [done|]. split.
  - intros es.
    apply (latched_unsettled_run cfg_one 0 s_never_settled es Hr).
    split.
    + exists d. rewrite Hds. split; [by left|done].
    + rewrite Hst. by intros ?%elem_of_nil.
  - exists (d_set_timerFired (d_set_released d)).
    repeat split; vm_compute; reflexivity.
Qed.

(** ** C4: how many jobs run on one browser *)

(** C4, as stated, fails: after a timeout the browser is released while the
    timed-out execution keeps running, so two dispatched jobs execute on
    browser 0 although [maxPagesPerBrowser] is 1. *)
Lemma executing_exceeds_limit_after_timeout :
  ~ (reachable cfg_one s_overlap ->
     (executingOn 0 s_overlap <= maxPagesPerBrowser cfg_one)%nat).
Proof.
  intros H.
  assert (reachable cfg_one s_overlap) as Hr
    by (apply reachable_run, reachable_init; reflexivity).
  specialize (H Hr). vm_compute in H. lia.
Qed.

Example s_overlap_counts :
  executingOn 0 s_overlap = 2%nat /\ holdingOn 0 s_overlap = 1%nat
  /\ maxPagesPerBrowser cfg_one = 1%nat.
Proof. repeat split; reflexivity. Qed.

(** C4, amended.  In every reachable state the dispatches that hold a browser
    (those whose [.finally] handler has not released it yet) number at most
    [maxPagesPerBrowser], and at most one. *)
Theorem holding_within_limit cfg s b :
  reachable cfg s ->
  (holdingOn b s <= maxPagesPerBrowser cfg)%nat
  /\ (holdingOn b s <= 1)%nat.
Proof.
  intros (_ & _ & HB)%Inv_reachable. unfold holdingOn.
  split; [by eapply b_holdmax|by eapply b_hold1].
Qed.

Lemma holding_within_limit_witness :
  (holdingOn 0 s_overlap <= maxPagesPerBrowser cfg_one)%nat
  /\ (holdingOn 0 s_overlap <= 1)%nat.
Proof.
  apply (holding_within_limit cfg_one s_overlap 0).
  apply reachable_run, reachable_init. reflexivity.
Defined.

(** ** C1: the cap of a class *)

(** C1.  The cap of a class can be exceeded: [s_over_cap] is reachable and
    has two live default browsers on the roster under
    [pool_size_default = 1].  Each launch site checks the cap, but against
    the roster only, which does not count launches in flight. *)
Theorem cap_exceeded_after_crash :
  reachable cfg_one s_over_cap
  /\ pool_size_default cfg_one = 1%nat
  /\ defaultBrowsers (getStats s_over_cap) = 2%nat
  /\ browsers s_over_cap = [1; 2]%nat
  /\ isConnected 1 s_over_cap = true
  /\ isConnected 2 s_over_cap = true.
Proof.
  split; [apply reachable_run, reachable_init; reflexivity|].
  repeat split; reflexivity.
Qed.

(** The two launches in flight after the crash, both admitted by the check
    [0 < 1]. *)
Example s_over_cap_launches :
  launching
    (run cfg_one (start cfg_one)
       [EvLaunchOk 0;
        EvQueueTask (JsFunction "A") plain 0;
        EvQueueTask (JsFunction "B") plain 0;
        EvDisconnected 0])
  = [{| l_type := TDefault; l_cont := KCrash |};
     {| l_type := TDefault; l_cont := KOnDemand |}].
Proof. reflexivity. Qed.

(** ** C5: shutdown *)

Section Shutdown.
Context (cfg : Config).

(** What [shutdown] has done when it suspends: the gate is set, the queue
    is empty, every item that was queued has been rejected with the
    cancellation error, and [close()] has been called on every browser of
    the roster. *)
Lemma shutdown_begin from_init s :
  shuttingDown (shutdown from_init s) = true
  /\ items (taskQueue (shutdown from_init s)) = []
  /\ queuedTasks (getStats (shutdown from_init s)) = 0%nat
  /\ (forall x, x ∈ items (taskQueue s) ->
        (q_id x, Rejected ErrTaskCancelled) ∈ settlements (shutdown from_init s))
  /\ (forall b, b ∈ browsers s -> b ∈ closeCalls (shutdown from_init s)).
Proof.
  unfold shutdown. simpl. repeat split; try done.
  - intros x Hx. by apply drain_rejects.
  - intros b Hb. apply elem_of_app. left.
    apply list_elem_of_In, in_rev. rewrite rev_involutive.
    by apply list_elem_of_In.
Qed.

(** A close that fails does not keep [shutdown] from resolving: whatever
    the outcome, the settled close leaves the list the call waits for. *)
Lemma closeSettles_pending k b ok s c :
  shutdownCalls s !! k = Some c -> b ∈ sd_pending c ->
  exists c', shutdownCalls (closeSettles cfg k b ok s) !! k = Some c'
             /\ sd_pending c' = remove_first b (sd_pending c).
Proof.
  intros Hk Hb. unfold closeSettles. rewrite Hk.
  rewrite bool_decide_eq_true_2 by done.
  assert (k < List.length (shutdownCalls s))%nat as Hlt
    by (by eapply lookup_lt_Some).
  set (c' := {| sd_pending := remove_first b (sd_pending c);
                sd_from_init := sd_from_init c |}).
  set (s1 := set_shutdownCalls (<[k:=c']> (shutdownCalls s)) s).
  assert (shutdownCalls s1 !! k = Some c') as H1
    by (by apply list_lookup_insert_eq).
  exists c'. split; [|done].
  destruct ok.
  - unfold disconnected. destruct (heap s1 !! b) as [bs|]; [|done].
    destruct (connected bs); [|done]. unfold onDisconnected.
    unfold _removeBrowserFromPool.
    set (s2 := set_browsers _ _).
    assert (forall s', shutdownCalls (_processQueue cfg s') = shutdownCalls s')
      as Hpq.
    { intros s'. unfold _processQueue.
      destruct (shuttingDown s' || isEmpty (taskQueue s')); [done|].
      destruct (items (taskQueue s')) as [|x rest] eqn:E; [done|].
      destruct (_findSuitableBrowser cfg (q_requirements x) s'); simpl.
      - unfold dequeue. by rewrite E.
      - by destruct (_ <? _)%nat. }
    destruct (isConnected b s2); simpl;
      (destruct (shuttingDown s); [done|]);
      rewrite Hpq; by destruct (_ <? _)%nat.
  - unfold _removeBrowserFromPool. by destruct (isConnected _ _).
Qed.

Lemma Frame_refl s : Frame s s.
Proof. by split. Qed.

Lemma Frame_trans s1 s2 s3 : Frame s1 s2 -> Frame s2 s3 -> Frame s1 s3.
Proof.
  intros [H1 H2] [H3 H4]. split; [congruence|].
  intros H. rewrite H4, H2; [done..|congruence].
Qed.

Lemma Frame__processQueue s : Frame s (_processQueue cfg s).
Proof.
  unfold _processQueue. destruct (shuttingDown s) eqn:E; simpl; [by split|].
  repeat case_match; by split; simpl; try congruence.
Qed.

Lemma Frame__removeBrowserFromPool id s : Frame s (_removeBrowserFromPool id s).
Proof. unfold _removeBrowserFromPool. by case_match. Qed.

Lemma Frame_raceSettle d o g s :
  Frame s (raceSettle d o (update_dispatch (d_tid d) g s)).
Proof. unfold raceSettle. by destruct o. Qed.

Lemma Frame_finallyRuns tid s : Frame s (finallyRuns cfg tid s).
Proof.
  unfold finallyRuns. repeat case_match; try by split.
  eapply Frame_trans; [|apply Frame__processQueue]. by split.
Qed.

Lemma Frame_execSettles tid o s : Frame s (execSettles tid o s).
Proof.
  unfold execSettles. destruct (find_dispatch tid s) as [d|] eqn:F; [|by split].
  apply find_dispatch_Some in F as [_ <-].
  repeat case_match; first [by split|apply Frame_raceSettle].
Qed.

Lemma Frame_timerFires tid s : Frame s (timerFires tid s).
Proof.
  unfold timerFires. destruct (find_dispatch tid s) as [d|] eqn:F; [|by split].
  apply find_dispatch_Some in F as [_ <-].
  repeat case_match; first [by split|apply Frame_raceSettle].
Qed.

Lemma Frame_disconnected id s : Frame s (disconnected cfg id s).
Proof.
  unfold disconnected, onDisconnected.
  repeat case_match; try apply Frame_refl;
    (eapply Frame_trans; [|apply Frame__processQueue || apply Frame_refl]);
    try (eapply Frame_trans; [|apply Frame__removeBrowserFromPool]); by split.
Qed.

Lemma Frame_queueTaskWithRequirements f r p s :
  Frame s (queueTaskWithRequirements cfg f r p s).2.
Proof.
  unfold queueTaskWithRequirements.
  destruct (shuttingDown s) eqn:E; [by split|].
  repeat case_match; simpl; try by split.
  eapply Frame_trans; [|apply Frame__processQueue]. split; simpl; congruence.
Qed.

Lemma Frame_killBrowser h r t s : Frame s (killBrowser cfg h r t s).
Proof.
  unfold killBrowser.
  repeat case_match;
    first [apply Frame_refl
          |apply Frame__removeBrowserFromPool
          |by split
          |eapply Frame_trans; [apply Frame__removeBrowserFromPool|by split]].
Qed.

Lemma Frame_closeSettles k b ok s : Frame s (closeSettles cfg k b ok s).
Proof.
  unfold closeSettles. repeat case_match; try apply Frame_refl.
  - eapply Frame_trans; [|apply Frame_disconnected]. by split.
  - eapply Frame_trans; [|apply Frame__removeBrowserFromPool]. by split.
Qed.

Lemma Frame_shutdownDone k s : Frame s (shutdownDone k s).
Proof. unfold shutdownDone. repeat case_match; by split. Qed.

Lemma Frame_launchSucceeds i s : Frame s (launchSucceeds cfg i s).
Proof.
  unfold launchSucceeds. destruct (launching s !! i) as [l|]; [|by split].
  destruct (l_cont l); repeat case_match; try by split.
  - eapply Frame_trans; [|apply Frame__processQueue]. by split.
  - eapply Frame_trans; [|apply Frame__processQueue]. by split.
Qed.

Lemma shutdown_gate from_init s :
  shuttingDown (shutdown from_init s) = true
  /\ items (taskQueue (shutdown from_init s)) = [].
Proof. by split. Qed.

Lemma step_gate s e :
  Frame s (step cfg s e)
  \/ (shuttingDown (step cfg s e) = true /\ items (taskQueue (step cfg s e)) = []).
Proof.
  destruct e; simpl.
  - left. apply Frame_launchSucceeds.
  - unfold launchFails. destruct (launching s !! i) as [l|]; [|by left].
    destruct (l_cont l); try (left; by split).
    destruct (phase _); try (left; by split). right. apply shutdown_gate.
  - left. apply Frame_disconnected.
  - left. apply Frame_execSettles.
  - left. apply Frame_execSettles.
  - left. apply Frame_timerFires.
  - left. destruct (returned s); [apply Frame_queueTaskWithRequirements|by split].
  - left. destruct (returned s); [apply Frame_killBrowser|by split].
  - destruct (returned s); [right; apply shutdown_gate|left; by split].
  - left. apply Frame_closeSettles.
  - left. apply Frame_shutdownDone.
  - left. apply Frame_execSettles.
  - left. apply Frame_finallyRuns.
Qed.

(** Once the gate is set it stays set, and the queue is empty from then
    on: no task is queued or dispatched any more. *)
Lemma gate_stays s e : shuttingDown s = true -> shuttingDown (step cfg s e) = true.
Proof.
  intros H. destruct (step_gate s e) as [[H1 _]|[H1 _]]; congruence.
Qed.

Lemma queue_empty_while_shutting_down s :
  reachable cfg s -> shuttingDown s = true ->
  items (taskQueue s) = [] /\ queuedTasks (getStats s) = 0%nat.
Proof.
  intros Hr Hs.
  assert (items (taskQueue s) = []) as Hq; [|split; [done|]].
  - revert Hs. induction Hr as [s Hinit|s e Hr IH].
    + unfold getBrowserPool in Hinit. destruct (_ && negb _); [done|].
      injection Hinit as <-. intros Hs. exfalso. revert Hs.
      assert (forall n t k s0, shuttingDown (Nat.iter n (_launchBrowser cfg t k) s0)
                               = shuttingDown s0) as Hiter.
      { intros n t k s0. by induction n. }
      repeat case_match; simpl; rewrite ?Hiter; done.
    + intros Hs. destruct (step_gate s e) as [[H1 H2]|[_ H2]]; [|done].
      rewrite H1 in Hs. rewrite (H2 Hs). by apply IH.
  - unfold getStats, PriorityQueue.length. simpl. by rewrite Hq.
Qed.

End Shutdown.

(** C5.  A browser can survive [shutdown]: in the reachable state
    [s_after_shutdown] the call of [shutdown()] has resolved, the gate is
    set and the queue is empty, but the stats report one browser; it is
    connected and [close()] was never called on it. *)
Theorem shutdown_leaves_launched_browser :
  reachable cfg_one s_after_shutdown
  /\ shutdownsResolved s_after_shutdown = 1%nat
  /\ shutdownCalls s_after_shutdown = []
  /\ shuttingDown s_after_shutdown = true
  /\ queuedTasks (getStats s_after_shutdown) = 0%nat
  /\ totalBrowsers (getStats s_after_shutdown) = 1%nat
  /\ browsers s_after_shutdown = [1%nat]
  /\ isConnected 1 s_after_shutdown = true
  /\ closeCalls s_after_shutdown = [].
Proof.
  split; [apply reachable_run, reachable_init; reflexivity|].
  repeat split; reflexivity.
Qed.

(** ** C8: a warm-up launch fails *)

(** C8.  A browser can survive a failed construction: in the reachable
    state [s_init_failed] construction has failed with the wrapped launch
    error and no pool object was returned, yet the browser launched second
    is on the roster, connected, and was never closed. *)
Theorem init_failure_leaves_browser :
  reachable cfg_two s_init_failed
  /\ phase s_init_failed = InitFailed (ErrInitializationFailed "spawn ENOENT")
  /\ returned s_init_failed = false
  /\ browsers s_init_failed = [0%nat]
  /\ isConnected 0 s_init_failed = true
  /\ closeCalls s_init_failed = [].
Proof.
  split; [apply reachable_run, reachable_init; reflexivity|].
  repeat split; reflexivity.
Qed.

(** When the failure arrives after the other launch has succeeded, the
    launched browser is closed and leaves the roster. *)
Example init_failure_after_success :
  let s := run cfg_two (start cfg_two)
             [EvLaunchOk 1; EvLaunchFail 0 "spawn ENOENT";
              EvCloseSettles 0 0 true; EvShutdownDone 0] in
  phase s = InitFailed (ErrInitializationFailed "spawn ENOENT")
  /\ browsers s = [] /\ closeCalls s = [0%nat] /\ isConnected 0 s = false.
Proof. repeat split; reflexivity. Qed.

(** * Further properties of the code *)

(** ** [PriorityQueue]: where [enqueue] puts an item, what [dequeue] and
    [remove] do *)

Lemma sort_insert_front x l :
  (forall y, y ∈ l -> q_priority y <= q_priority x) ->
  sort_insert by_priority x l = x :: l.
Proof.
  destruct l as [|y l]; [done|]. intros H. simpl.
  assert ((by_priority x y <=? 0) = true) as ->; [|done].
  apply Z.leb_le. unfold by_priority. specialize (H y (list_elem_of_here _ _)). lia.
Qed.

Lemma filter_none {A} (f : A -> bool) l :
  (forall y, y ∈ l -> f y = false) -> List.filter f l = [].
Proof.
  induction l as [|y l IH]; [done|]. intros H. simpl.
  rewrite (H y) by left. apply IH. intros z Hz. apply H. by right.
Qed.

Lemma filter_all {A} (f : A -> bool) l :
  (forall y, y ∈ l -> f y = true) -> List.filter f l = l.
Proof.
  induction l as [|y l IH]; [done|]. intros H. simpl.
  rewrite (H y) by left. f_equal. apply IH. intros z Hz. apply H. by right.
Qed.

Lemma js_sort_push_position x l :
  StronglySorted (fun a b => q_priority b <= q_priority a) l ->
  js_sort by_priority (l ++ [x])
  = List.filter (fun y => q_priority x <=? q_priority y) l
    ++ x :: List.filter (fun y => q_priority y <? q_priority x) l.
Proof.
  induction l as [|a l IH]; [done|]. intros Hs.
  apply StronglySorted_inv in Hs as [Hs Ha]. rewrite Forall_forall in Ha.
  cbn [app js_sort foldr]. fold (js_sort by_priority (l ++ [x])).
  rewrite (IH Hs). cbn [List.filter].
  destruct (q_priority x <=? q_priority a) eqn:E.
  - apply Z.leb_le in E.
    assert ((q_priority a <? q_priority x) = false) as -> by (apply Z.ltb_ge; lia).
    apply sort_insert_front. intros y Hy.
    apply elem_of_app in Hy as [Hy|Hy].
    + apply list_elem_of_In, filter_In in Hy as [Hy _].
      apply Ha. by apply list_elem_of_In.
    + apply elem_of_cons in Hy as [->|Hy]; [done|].
      apply list_elem_of_In, filter_In in Hy as [Hy _].
      apply Ha. by apply list_elem_of_In.
  - apply Z.leb_gt in E.
    assert ((q_priority a <? q_priority x) = true) as -> by (apply Z.ltb_lt; lia).
    rewrite filter_none, filter_all.
    + simpl. unfold by_priority at 1.
      assert ((q_priority x - q_priority a <=? 0) = false) as ->
        by (apply Z.leb_gt; lia).
      f_equal. by apply sort_insert_front.
    + intros y Hy. apply Z.ltb_lt. specialize (Ha y Hy). simpl in Ha. lia.
    + intros y Hy. apply Z.leb_gt. specialize (Ha y Hy). simpl in Ha. lia.
Qed.

Lemma enqueue_places_item task priority requirements q :
  StronglySorted (fun a b => q_priority b <= q_priority a) (items q) ->
  items (enqueue task priority requirements q).2
  = List.filter (fun y => priority <=? q_priority y) (items q)
    ++ {| q_task := task; q_priority := priority;
          q_requirements := requirements; q_id := taskIdCounter q |}
       :: List.filter (fun y => q_priority y <? priority) (items q)
  /\ PriorityQueue.length (enqueue task priority requirements q).2
     = S (PriorityQueue.length q).
Proof.
  intros Hs. split.
  - unfold enqueue. cbn [snd items]. by rewrite js_sort_push_position.
  - unfold PriorityQueue.length, enqueue. cbn [snd items].
    rewrite js_sort_perm, length_app. simpl. lia.
Qed.

(** X1.  On a queue in descending priority order [enqueue] returns the
    current counter as the id, counts on, and inserts the new item right
    behind the queued items whose priority is at least its own and in front
    of those of lower priority, whose order it keeps; the result is again in
    descending order. *)
Theorem enqueue_position task priority requirements q :
  StronglySorted (fun a b => q_priority b <= q_priority a) (items q) ->
  let item := {| q_task := task; q_priority := priority;
                 q_requirements := requirements; q_id := taskIdCounter q |} in
  (enqueue task priority requirements q).1 = taskIdCounter q
  /\ taskIdCounter (enqueue task priority requirements q).2 = S (taskIdCounter q)
  /\ items (enqueue task priority requirements q).2
     = List.filter (fun y => priority <=? q_priority y) (items q)
       ++ item :: List.filter (fun y => q_priority y <? priority) (items q)
  /\ PriorityQueue.length (enqueue task priority requirements q).2
     = S (PriorityQueue.length q)
  /\ StronglySorted (fun a b => q_priority b <= q_priority a)
       (items (enqueue task priority requirements q).2).
Proof.
  intros Hs item. split; [done|]. split; [done|].
  destruct (enqueue_places_item task priority requirements q Hs) as (Hi & Hl).
  split; [done|]. split; [done|]. apply js_sort_descending.
Qed.

Lemma enqueue_position_witness :
  let q := taskQueue s_queued in
  let item := {| q_task := "E"; q_priority := 5;
                 q_requirements := plain; q_id := taskIdCounter q |} in
  (enqueue "E" 5 plain q).1 = taskIdCounter q
  /\ taskIdCounter (enqueue "E" 5 plain q).2 = S (taskIdCounter q)
  /\ items (enqueue "E" 5 plain q).2
     = List.filter (fun y => 5 <=? q_priority y) (items q)
       ++ item :: List.filter (fun y => q_priority y <? 5) (items q)
  /\ PriorityQueue.length (enqueue "E" 5 plain q).2 = S (PriorityQueue.length q)
  /\ StronglySorted (fun a b => q_priority b <= q_priority a)
       (items (enqueue "E" 5 plain q).2).
Proof.
  apply (enqueue_position "E" 5 plain (taskQueue s_queued)).
  vm_compute. repeat constructor; discriminate.
Defined.

Example enqueue_places_example :
  q_task <$> items (enqueue "E" 5 plain (taskQueue s_queued)).2
  = ["C"; "D"; "E"; "B"]%string.
Proof. reflexivity. Qed.

(** X2.  [dequeue] right after [enqueue], on a queue in descending priority
    order: the new item is returned only when the queue was empty or its
    priority is strictly higher than that of the old head; otherwise the old
    head is returned, also when the priorities are equal.  Either way the
    queue keeps as many items as it had before the two calls, and the id
    counter is not wound back. *)
Theorem dequeue_after_enqueue task priority requirements q :
  StronglySorted (fun a b => q_priority b <= q_priority a) (items q) ->
  let item := {| q_task := task; q_priority := priority;
                 q_requirements := requirements; q_id := taskIdCounter q |} in
  let q1 := (enqueue task priority requirements q).2 in
  (dequeue q1).1
  = Some (match items q with
          | [] => item
          | h :: _ => if priority <=? q_priority h then h else item
          end)
  /\ PriorityQueue.length (dequeue q1).2 = PriorityQueue.length q
  /\ taskIdCounter (dequeue q1).2 = S (taskIdCounter q).
Proof.
  intros Hs item q1.
  destruct (enqueue_places_item task priority requirements q Hs) as (Hi & Hl).
  fold item in Hi. fold q1 in Hi, Hl.
  unfold dequeue. destruct (items q1) as [|x rest] eqn:E.
  { unfold PriorityQueue.length in Hl. rewrite E in Hl. simpl in Hl. lia. }
  cbn [fst snd taskIdCounter]. split; [|split].
  - f_equal. destruct (items q) as [|h l] eqn:Eq.
    + simpl in Hi. by injection Hi as -> _.
    + cbn [List.filter] in Hi.
      destruct (priority <=? q_priority h) eqn:Ep.
      * simpl in Hi. by injection Hi as -> _.
      * apply Z.leb_gt in Ep.
        apply StronglySorted_inv in Hs as [_ Hh]. rewrite Forall_forall in Hh.
        rewrite filter_none in Hi.
        -- simpl in Hi. by injection Hi as -> _.
        -- intros y Hy. apply Z.leb_gt. specialize (Hh y Hy). simpl in Hh. lia.
  - unfold PriorityQueue.length in *. rewrite E in Hl. simpl in *. lia.
  - done.
Qed.

Lemma dequeue_after_enqueue_witness :
  let q := taskQueue s_queued in
  let item := {| q_task := "E"; q_priority := 5;
                 q_requirements := plain; q_id := taskIdCounter q |} in
  let q1 := (enqueue "E" 5 plain q).2 in
  (dequeue q1).1
  = Some (match items q with
          | [] => item
          | h :: _ => if 5 <=? q_priority h then h else item
          end)
  /\ PriorityQueue.length (dequeue q1).2 = PriorityQueue.length q
  /\ taskIdCounter (dequeue q1).2 = S (taskIdCounter q).
Proof.
  apply (dequeue_after_enqueue "E" 5 plain (taskQueue s_queued)).
  vm_compute. repeat constructor; discriminate.
Defined.

Lemma remove_filter_length id l :
  NoDup (q_id <$> l) -> id ∈ q_id <$> l ->
  S (List.length (List.filter (fun item => negb (Nat.eqb (q_id item) id)) l))
  = List.length l.
Proof.
  induction l as [|x l IH]; [by intros _ ?%elem_of_nil|].
  rewrite fmap_cons, NoDup_cons. intros [Hx Hnd] Hin. simpl.
  destruct (Nat.eqb (q_id x) id) eqn:E; simpl.
  - apply Nat.eqb_eq in E. subst id. f_equal. f_equal. apply filter_all.
    intros y Hy. apply negb_true_iff, Nat.eqb_neq. intros Heq.
    apply Hx. rewrite <- Heq. by apply list_elem_of_fmap_2.
  - apply Nat.eqb_neq in E. apply elem_of_cons in Hin as [Hin|Hin]; [congruence|].
    f_equal. by apply IH.
Qed.

(** X3.  [remove(id)] on a queue that is in order (priority descending, ids
    ascending within a priority) and has unique ids: the item with that id is
    gone, every other item stays, the order and the uniqueness of ids are
    kept, and the id counter is untouched, so the id is never handed out
    again.  When the id is queued the length drops by exactly one, when it
    is not the queue is unchanged. *)
Theorem remove_spec id q :
  StronglySorted before (items q) -> NoDup (q_id <$> items q) ->
  (forall x, x ∈ items (remove id q) <-> x ∈ items q /\ q_id x <> id)
  /\ StronglySorted before (items (remove id q))
  /\ NoDup (q_id <$> items (remove id q))
  /\ taskIdCounter (remove id q) = taskIdCounter q
  /\ (id ∈ q_id <$> items q ->
      S (PriorityQueue.length (remove id q)) = PriorityQueue.length q)
  /\ (id ∉ q_id <$> items q -> remove id q = q).
Proof.
  intros Hs Hnd. unfold remove, PriorityQueue.length. cbn [items taskIdCounter].
  assert (forall x, x ∈ List.filter (fun item => negb (Nat.eqb (q_id item) id)) (items q)
              <-> x ∈ items q /\ q_id x <> id) as Hin.
  { intros x. rewrite !list_elem_of_In, filter_In, negb_true_iff, Nat.eqb_neq. done. }
  split; [done|]. split; [|split; [|split; [done|split]]].
  - clear Hnd Hin. induction Hs as [|a l Hs IH Ha]; simpl; [constructor|].
    destruct (negb (Nat.eqb (q_id a) id)); [|done].
    constructor; [done|]. rewrite Forall_forall in *. intros y Hy.
    apply Ha. apply list_elem_of_In. apply list_elem_of_In, filter_In in Hy. tauto.
  - clear Hs Hin. induction (items q) as [|a l IH]; simpl; [constructor|].
    rewrite fmap_cons in Hnd. apply NoDup_cons in Hnd as [Ha Hnd].
    destruct (negb (Nat.eqb (q_id a) id)); [|by apply IH].
    rewrite fmap_cons. apply NoDup_cons. split; [|by apply IH].
    intros (y & Hy1 & Hy2)%list_elem_of_fmap. apply Ha. rewrite Hy1.
    apply list_elem_of_fmap_2. apply list_elem_of_In.
    apply list_elem_of_In, filter_In in Hy2. tauto.
  - intros Hid. by apply remove_filter_length.
  - intros Hid. destruct q as [l c]. cbn [items taskIdCounter] in *. f_equal.
    apply filter_all. intros y Hy. apply negb_true_iff, Nat.eqb_neq.
    intros Heq. apply Hid. rewrite <- Heq. by apply list_elem_of_fmap_2.
Qed.

Lemma remove_spec_witness :
  let q := taskQueue s_queued in
  (forall x, x ∈ items (remove 3 q) <-> x ∈ items q /\ q_id x <> 3%nat)
  /\ StronglySorted before (items (remove 3 q))
  /\ NoDup (q_id <$> items (remove 3 q))
  /\ taskIdCounter (remove 3 q) = taskIdCounter q
  /\ (3%nat ∈ q_id <$> items q ->
      S (PriorityQueue.length (remove 3 q)) = PriorityQueue.length q)
  /\ (3%nat ∉ q_id <$> items q -> remove 3 q = q).
Proof.
  apply (remove_spec 3 (taskQueue s_queued)).
  - vm_compute. repeat constructor; lia.
  - vm_compute. repeat constructor; intros H; repeat (inversion_clear H as [|? ? ? H']; rename H' into H); inversion H.
Defined.

Example remove_example :
  q_task <$> items (remove 3 (taskQueue s_queued)) = ["C"; "B"]%string.
Proof. reflexivity. Qed.

(** ** The roster *)

Lemma remove_first_NoDup id l :
  NoDup l -> NoDup (remove_first id l) /\ id ∉ remove_first id l.
Proof.
  induction l as [|x l IH]; simpl; [by split; [constructor|intros ?%elem_of_nil]|].
  rewrite NoDup_cons. intros [Hx Hnd].
  destruct (Nat.eqb x id) eqn:E.
  - apply Nat.eqb_eq in E. subst x. done.
  - apply Nat.eqb_neq in E. destruct (IH Hnd) as [IH1 IH2]. split.
    + apply NoDup_cons. split; [|done]. intros Hin. apply Hx.
      by eapply remove_first_subset.
    + intros [Heq|Hin]%elem_of_cons; [congruence|done].
Qed.

Lemma remove_first_other id l b : b ∈ l -> b <> id -> b ∈ remove_first id l.
Proof.
  induction l as [|x l IH]; simpl; [done|].
  intros [->|Hb]%elem_of_cons Hne.
  - apply Nat.eqb_neq in Hne. rewrite Hne. by left.
  - destruct (Nat.eqb x id); [done|]. right. by apply IH.
Qed.

Lemma roster_ok_alter f a s :
  (forall b, b_id (f b) = b_id b) -> (forall b, connected (f b) = connected b) ->
  roster_ok s -> roster_ok (set_heap (alter f a (heap s)) s).
Proof.
  intros Hid Hc (Hnd & Hids & Hr). split; [done|]. split; simpl.
  - intros b bs [(-> & bs0 & Hb & ->)|[_ Hb]]%lookup_alter_Some; [|by apply Hids].
    rewrite Hid. by apply Hids.
  - intros b Hb. destruct (Hr b Hb) as (bs & Hl & Hcon).
    destruct (decide (a = b)) as [->|Hne].
    + exists (f bs). rewrite lookup_alter_eq, Hl, Hc. done.
    + exists bs. by rewrite lookup_alter_ne.
Qed.

Lemma roster_ok_move cfg s s' :
  Inv cfg s -> roster_ok s -> move cfg s s' -> roster_ok s'.
Proof.
  intros (_ & _ & HB) HP Hm. pose proof HP as (Hnd & Hids & Hr).
  destruct Hm as [t k _ _|i l _|i l _|id|l|id bs Hb Hc|name p r _|x rest a _ E F
                 |d g Hd Hset Hg|d g o Hd Hun Hg _
                 |d Hd Hun|d Hd Hset Hun| | | |]; try exact HP.
  - (* launched *)
    assert (forall b, b ∈ browsers s -> b <> browserIdCounter s) as Hfresh.
    { intros b Hb. pose proof (b_heap_lt _ _ _ _ _ HB b (b_roster _ _ _ _ _ HB b Hb)).
      lia. }
    split; [|split]; simpl.
    + apply NoDup_app. split; [done|]. split; [|apply NoDup_singleton].
      intros b Hb ->%list_elem_of_singleton. by apply (Hfresh _ Hb).
    + intros b bs [[<- <-]|[_ Hl]]%lookup_insert_Some; [done|by apply Hids].
    + intros b [Hb| ->%list_elem_of_singleton]%elem_of_app.
      * destruct (Hr b Hb) as (bs & Hl & Hcon). exists bs.
        rewrite lookup_insert_ne; [done|]. intros Heq. by apply (Hfresh b).
      * eexists. by rewrite lookup_insert_eq.
  - (* remove *)
    split; [by apply remove_first_NoDup|]. split; [done|]. simpl.
    intros b Hb%remove_first_subset. by apply Hr.
  - (* disconnect *)
    destruct (remove_first_NoDup id _ Hnd) as [Hnd' Hnin].
    split; [done|]. split; simpl.
    + intros b bs' [(-> & bs0 & Hl & ->)|[_ Hl]]%lookup_alter_Some;
        [apply (Hids _ _ Hl)|by apply Hids].
    + intros b Hin. assert (b <> id) as Hne by (intros ->; done).
      apply remove_first_subset in Hin. destruct (Hr b Hin) as (bs' & Hl & Hcon).
      exists bs'. by rewrite lookup_alter_ne.
  - (* dispatch *)
    by apply (roster_ok_alter b_acquire).
  - (* settle *)
    by apply (roster_ok_alter b_release).
Qed.

Lemma roster_ok_reachable cfg s : reachable cfg s -> roster_ok s.
Proof.
  revert s. apply reachable_moves_ind; [|apply roster_ok_move].
  split; [constructor|]. split; [|by intros ? ?%elem_of_nil].
  intros b bs Hb. simpl in Hb. by rewrite lookup_empty in Hb.
Qed.

(** X4.  In every reachable state the roster lists no browser twice, every
    browser on it has an id below the counter, is stored under its own id,
    and is connected: a browser that has emitted ['disconnected'] is off the
    roster, and since ids are never reused it does not come back. *)
Theorem roster_well_formed cfg s :
  reachable cfg s ->
  NoDup (browsers s)
  /\ forall b, b ∈ browsers s ->
       (b < browserIdCounter s)%nat
       /\ exists bs, heap s !! b = Some bs /\ b_id bs = b /\ connected bs = true.
Proof.
  intros Hr.
  pose proof (roster_ok_reachable cfg s Hr) as (Hnd & Hids & Hcon).
  pose proof (Inv_reachable cfg s Hr) as (_ & _ & HB).
  split; [done|]. intros b Hb. split.
  - by apply (b_heap_lt _ _ _ _ _ HB), (b_roster _ _ _ _ _ HB).
  - destruct (Hcon b Hb) as (bs & Hl & Hc). exists bs. by rewrite (Hids _ _ Hl).
Qed.

Lemma roster_well_formed_witness :
  NoDup (browsers s_over_cap)
  /\ forall b, b ∈ browsers s_over_cap ->
       (b < browserIdCounter s_over_cap)%nat
       /\ exists bs, heap s_over_cap !! b = Some bs
                     /\ b_id bs = b /\ connected bs = true.
Proof.
  apply (roster_well_formed cfg_one s_over_cap).
  apply reachable_run, reachable_init. reflexivity.
Defined.

(** ** No accepted task is lost *)

Lemma drain_elem l st e :
  e ∈ drain l st ->
  e ∈ st \/ exists x, x ∈ l /\ e = (q_id x, Rejected ErrTaskCancelled).
Proof.
  revert st. induction l as [|y l IH]; intros st; simpl; [by left|].
  intros [[->|He]%elem_of_cons|(x & Hx & ->)]%IH.
  - right. exists y. split; [by left|done].
  - by left.
  - right. exists x. split; [by right|done].
Qed.

Lemma accounted_move cfg s s' :
  Inv cfg s -> accounted s -> move cfg s s' -> accounted s'.
Proof.
  intros (HQ & HT & _) HP Hm. pose proof HP as (Hall & Hex).
  unfold accounted, queued, dispatched, cancelled in *.
  destruct Hm as [t k _ _|i l _|i l _|id|l|id bs Hb Hc|name p r _|x rest a _ E F
                 |d g Hd Hset Hg|d g o Hd Hun Hg Ho
                 |d Hd Hun|d Hd Hset Hun| | | |]; try exact HP.
  - (* enqueue *)
    split; [|done]. cbn [set_taskQueue taskQueue dispatches settlements enqueue snd
                         items taskIdCounter].
    intros tid Hlt. rewrite js_sort_perm, fmap_app.
    destruct (decide (tid = taskIdCounter (taskQueue s))) as [->|Hne].
    + left. apply elem_of_app. right. simpl. by left.
    + destruct (Hall tid) as [Hq|[Hd|Hc]]; [lia| | |]; auto.
      left. apply elem_of_app. by left.
  - (* dispatch *)
    rewrite E in Hall. simpl. split.
    + intros tid Hlt. destruct (Hall tid Hlt) as [Hq|[Hd|Hc]].
      * rewrite fmap_cons in Hq. apply elem_of_cons in Hq as [->|Hq]; [|by left].
        right. left. by left.
      * right. left. by right.
      * by right; right.
    + intros tid Hc. intros [->|Hd]%elem_of_cons.
      * apply (t_q_s _ _ _ HT x); [rewrite E; by left|].
        by apply (list_elem_of_fmap_2 fst) in Hc.
      * by apply (Hex tid).
  - (* mark *)
    assert (flag_update g) as Hfu
      by (destruct Hg as [-> | ->]; [apply fu_execSettled|apply fu_timerFired]).
    simpl. by rewrite upd_tids.
  - (* settle *)
    assert (flag_update g) as Hfu
      by (destruct Hg as [-> | ->]; [apply fu_execSettled|apply fu_timerFired]).
    simpl. rewrite !upd_tids by (done || apply fu_completed). split.
    + intros tid Hlt. destruct (Hall tid Hlt) as [Hq|[Hdd|Hc]]; auto.
      right. right. by right.
    + intros tid [Heq|Hc]%elem_of_cons; [congruence|by apply Hex].
  - (* the handler throws *)
    simpl. by rewrite !upd_tids by (apply fu_execSettled || apply fu_completed).
  - (* release *)
    simpl. by rewrite upd_tids by apply fu_released.
  - (* the gate *)
    simpl. split.
    + intros tid Hlt. destruct (Hall tid Hlt) as [Hq|[Hd|Hc]]; auto.
      * apply list_elem_of_fmap in Hq as (x & -> & Hx).
        right. right. by apply drain_rejects.
      * right. right. by apply drain_keeps.
    + intros tid [Hc|(x & Hx & Heq)]%drain_elem; [by apply Hex|].
      injection Heq as ->. intros (d & Hd1 & Hd2)%list_elem_of_fmap.
      by apply (t_q_d _ _ _ HT x d).
Qed.

(** X5.  In every reachable state each task id handed out so far is in
    exactly one of three places: in the queue, in a dispatch record (handed
    to a browser, running or settled), or rejected by [shutdown] with the
    cancellation error.  No accepted task is dropped, none is both queued and
    dispatched, and a dispatched task is never cancelled by [shutdown]; ids
    not yet handed out are in none of the three. *)
Theorem task_accounted cfg s tid :
  reachable cfg s ->
  ((tid < taskIdCounter (taskQueue s))%nat ->
   queued s tid \/ dispatched s tid \/ cancelled s tid)
  /\ ~ (queued s tid /\ dispatched s tid)
  /\ ~ (queued s tid /\ cancelled s tid)
  /\ ~ (dispatched s tid /\ cancelled s tid)
  /\ (queued s tid \/ dispatched s tid \/ cancelled s tid ->
      (tid < taskIdCounter (taskQueue s))%nat).
Proof.
  intros Hr.
  assert (accounted s) as (Hall & Hex).
  { revert s Hr. apply reachable_moves_ind; [|apply accounted_move].
    split; [intros t Ht; simpl in Ht; lia|]. by intros t ?%elem_of_nil. }
  pose proof (Inv_reachable cfg s Hr) as (HQ & HT & _).
  unfold queued, dispatched, cancelled in *.
  split; [by apply Hall|]. split; [|split; [|split]].
  - intros [(x & -> & Hx)%list_elem_of_fmap (d & Hd1 & Hd2)%list_elem_of_fmap].
    by apply (t_q_d _ _ _ HT x d).
  - intros [(x & -> & Hx)%list_elem_of_fmap Hc].
    apply (t_q_s _ _ _ HT x Hx). by apply (list_elem_of_fmap_2 fst) in Hc.
  - intros [Hd Hc]. by apply (Hex tid).
  - intros [(x & -> & Hx)%list_elem_of_fmap
           |[(d & -> & Hd)%list_elem_of_fmap|Hc]].
    + by apply (q_ids _ HQ).
    + by apply (t_dids _ _ _ HT).
    + apply (t_sids _ _ _ HT). by apply (list_elem_of_fmap_2 fst) in Hc.
Qed.

Lemma task_accounted_witness :
  ((2 < taskIdCounter (taskQueue s_queued))%nat ->
   queued s_queued 2 \/ dispatched s_queued 2 \/ cancelled s_queued 2)
  /\ ~ (queued s_queued 2 /\ dispatched s_queued 2)
  /\ ~ (queued s_queued 2 /\ cancelled s_queued 2)
  /\ ~ (dispatched s_queued 2 /\ cancelled s_queued 2)
  /\ (queued s_queued 2 \/ dispatched s_queued 2 \/ cancelled s_queued 2 ->
      (2 < taskIdCounter (taskQueue s_queued))%nat).
Proof.
  apply (task_accounted cfg_one s_queued 2).
  apply reachable_run, reachable_init. reflexivity.
Defined.

(** ** Busy browsers and the dispatches that hold them *)

Lemma holding_witness b ds :
  (1 <= holding b ds)%nat ->
  exists d, d ∈ ds /\ d_browser d = b /\ released d = false.
Proof.
  induction ds as [|d ds IH]; [unfold holding; simpl; lia|].
  rewrite holding_cons.
  destruct (negb (released d) && Nat.eqb (d_browser d) b) eqn:E.
  - intros _. apply andb_true_iff in E as [Hr Hb].
    apply negb_true_iff in Hr. apply Nat.eqb_eq in Hb.
    exists d. split; [by left|done].
  - intros H. destruct IH as (d' & Hd & Hb & Hr); [lia|].
    exists d'. split; [by right|done].
Qed.

(** X6.  In every reachable state a browser object is marked busy exactly
    when a dispatch holds it: a task was handed to it and the [.finally]
    handler of that dispatch has not run yet, whether the race is still open
    or has just settled.  A busy browser has [pagesOpen] 1, an idle one 0.
    There is no dangling busy browser: every busy flag belongs to a dispatch
    whose [.finally] handler is still to come. *)
Theorem busy_iff_held cfg s b bs :
  reachable cfg s -> heap s !! b = Some bs ->
  (busy bs = true <->
   exists d, d ∈ dispatches s /\ d_browser d = b /\ released d = false)
  /\ (busy bs = true -> pagesOpen bs = 1)
  /\ (busy bs = false -> pagesOpen bs = 0).
Proof.
  intros (_ & _ & HB)%Inv_reachable Hb.
  pose proof (b_busy _ _ _ _ _ HB b bs Hb) as Hbusy.
  pose proof (b_pages _ _ _ _ _ HB b bs Hb) as Hpages.
  pose proof (b_hold1 _ _ _ _ _ HB b) as Hle.
  split; [split|split].
  - intros H1%Hbusy. apply holding_witness. lia.
  - intros (d & Hd & Hdb & Hr). apply Hbusy.
    pose proof (holding_pos b d _ Hd Hr Hdb). lia.
  - intros H1%Hbusy. rewrite Hpages, H1. done.
  - intros Hf. rewrite Hpages.
    destruct (decide (holding b (dispatches s) = 1%nat)) as [H1|H1].
    + apply Hbusy in H1. congruence.
    + replace (holding b (dispatches s)) with 0%nat by lia. done.
Qed.

Lemma busy_iff_held_witness :
  (busy (b_acquire {| b_id := 0; busy := false; pagesOpen := 0;
                      b_type := TDefault; connected := true |}) = true <->
   exists d, d ∈ dispatches s_timed_out /\ d_browser d = 0%nat
             /\ released d = false)
  /\ (busy (b_acquire {| b_id := 0; busy := false; pagesOpen := 0;
                         b_type := TDefault; connected := true |}) = true ->
      pagesOpen (b_acquire {| b_id := 0; busy := false; pagesOpen := 0;
                              b_type := TDefault; connected := true |}) = 1)
  /\ (busy (b_acquire {| b_id := 0; busy := false; pagesOpen := 0;
                         b_type := TDefault; connected := true |}) = false ->
      pagesOpen (b_acquire {| b_id := 0; busy := false; pagesOpen := 0;
                              b_type := TDefault; connected := true |}) = 0).
Proof.
  apply (busy_iff_held cfg_one s_timed_out 0).
  - apply reachable_step, reachable_run, reachable_init. reflexivity.
  - reflexivity.
Defined.

(** In [s_timed_out] the promise of task 0 has been rejected and browser 0
    is still busy: [.finally] has not run. *)
Example s_timed_out_busy :
  (raceSettled <$> dispatches s_timed_out) = [true]
  /\ busyBrowsers (getStats s_timed_out) = 1%nat
  /\ busyBrowsers (getStats (step cfg_one s_timed_out (EvFinally 0))) = 1%nat
  /\ (d_tid <$> dispatches (step cfg_one s_timed_out (EvFinally 0)))
     = [2; 0]%nat.
Proof. repeat split; reflexivity. Qed.

(** ** After the gate is set *)

Lemma winding_down_move cfg s s1 s2 :
  shuttingDown s = true ->
  winding_down s s1 -> move cfg s1 s2 -> winding_down s s2.
Proof.
  intros Hs (H1 & H2 & H3 & H4) Hm. unfold winding_down.
  destruct Hm as [t k Hn _|i l Hl|i l Hl|id|l|id bs Hb Hc|name p r Hn|x rest a Hn E F
                 |d g Hd Hset Hg|d g o Hd Hun Hg Ho
                 |d Hd Hun|d Hd Hset Hun| | | |];
    try congruence; try done.
  - (* launched *)
    simpl. split; [done|]. split; [|done].
    rewrite length_delete by eauto. lia.
  - (* launch failed *)
    simpl. split; [done|]. split; [|done].
    rewrite length_delete by eauto. lia.
  - (* mark *)
    assert (flag_update g) as Hfu
      by (destruct Hg as [-> | ->]; [apply fu_execSettled|apply fu_timerFired]).
    simpl. by rewrite upd_tids.
  - (* settle *)
    assert (flag_update g) as Hfu
      by (destruct Hg as [-> | ->]; [apply fu_execSettled|apply fu_timerFired]).
    simpl. by rewrite !upd_tids by (done || apply fu_completed).
  - (* the handler throws *)
    simpl. by rewrite !upd_tids by (apply fu_execSettled || apply fu_completed).
  - (* release *)
    simpl. by rewrite upd_tids by apply fu_released.
  - (* the gate *)
    simpl. repeat split; [done..|lia].
Qed.

(** X7.  Once [shuttingDown] is set, whatever happens next (a launch
    completing, a crash, a task or a timer settling, [killBrowser], another
    [shutdown], an attempt to queue a task) leaves the gate set, starts no
    browser launch, hands no task to a browser and queues no task: the
    launches in flight can only become fewer and the set of dispatched tasks
    stays the same. *)
Theorem nothing_starts_after_shutdown cfg s e :
  reachable cfg s -> shuttingDown s = true ->
  winding_down s (step cfg s e).
Proof.
  intros HI%Inv_reachable Hs.
  apply (step_moves_ind cfg winding_down); [done| |].
  - by repeat split.
  - intros s1 s2 _. by apply winding_down_move.
Qed.

Lemma nothing_starts_after_shutdown_witness :
  winding_down s_after_shutdown
    (step cfg_one s_after_shutdown (EvDisconnected 1)).
Proof.
  apply (nothing_starts_after_shutdown cfg_one s_after_shutdown (EvDisconnected 1)).
  - apply reachable_run, reachable_init. reflexivity.
  - reflexivity.
Defined.

(** ** Without an adblock extension *)

Lemma reachable_constructed cfg s :
  reachable cfg s -> is_Some (getBrowserPool cfg).
Proof. induction 1 as [s Hs|]; [by rewrite Hs|done]. Qed.

Lemma no_adblock_move cfg s s' :
  path_truthy (adblockExtensionPath cfg) = false ->
  no_adblock s -> move cfg s s' -> no_adblock s'.
Proof.
  intros Hp HP Hm. pose proof HP as (Hl & Hh).
  assert (forall f a, (forall b, b_type (f b) = b_type b) ->
            forall b bs, alter f a (heap s) !! b = Some bs -> b_type bs <> TAdblock)
    as Halter.
  { intros f a Hf b bs [(-> & bs0 & Hb & ->)|[_ Hb]]%lookup_alter_Some;
      [rewrite Hf|]; by eapply Hh. }
  destruct Hm as [t k _ _|i l Hi|i l Hi|id|l|id bs Hb Hc|name p r _|x rest a _ E F
                 |d g Hd Hset Hg|d g o Hd Hun Hg Ho
                 |d Hd Hun|d Hd Hset Hun| | | |]; try exact HP.
  - split; [|done]. simpl. intros l [Hin| ->%list_elem_of_singleton]%elem_of_app;
      [by apply Hl|]. simpl. rewrite Hp. by destruct t.
  - split; simpl.
    + intros l' Hin%list_elem_of_delete_inv. by apply Hl.
    + intros b bs [[<- <-]|[_ Hb]]%lookup_insert_Some; [|by eapply Hh].
      simpl. apply Hl. by eapply list_elem_of_lookup_2.
  - split; [|done]. simpl. intros l' Hin%list_elem_of_delete_inv. by apply Hl.
  - split; [done|]. simpl. by apply Halter.
  - split; [done|]. simpl. by apply Halter.
  - split; [done|]. simpl. by apply Halter.
Qed.

Lemma no_adblock_reachable cfg s :
  path_truthy (adblockExtensionPath cfg) = false ->
  reachable cfg s -> no_adblock s.
Proof.
  intros Hp. revert s. apply reachable_moves_ind.
  - split; [by intros ? ?%elem_of_nil|]. intros b bs Hb. simpl in Hb.
    by rewrite lookup_empty in Hb.
  - intros s s' _. by apply no_adblock_move.
Qed.

(** X8.  When no [adblockExtensionPath] is configured, construction only
    succeeds with [pool_size_adblock = 0], and from then on no browser on the
    roster or being launched is an adblock browser, whatever type
    [killBrowser] is asked to replenish (a request for an adblock browser
    falls back to a default launch): the stats never report an adblock
    browser. *)
Theorem no_adblock_without_path cfg s :
  path_truthy (adblockExtensionPath cfg) = false ->
  reachable cfg s ->
  pool_size_adblock cfg = 0%nat
  /\ no_adblock s
  /\ (forall k s0, l_type <$> last (launching (_launchBrowser cfg TAdblock k s0))
                   = Some TDefault)
  /\ adblockBrowsers (getStats s) = 0%nat.
Proof.
  intros Hp Hr.
  assert (pool_size_adblock cfg = 0%nat) as Hpa.
  { destruct (reachable_constructed cfg s Hr) as [s0 Hs0].
    unfold getBrowserPool in Hs0. rewrite Hp in Hs0. simpl in Hs0.
    destruct (pool_size_adblock cfg); [done|]. simpl in Hs0. done. }
  pose proof (no_adblock_reachable cfg s Hp Hr) as HD.
  split; [done|]. split; [done|]. split.
  { intros k s0. unfold _launchBrowser. simpl. by rewrite last_snoc, Hp. }
  unfold getStats, countOfType. simpl. rewrite filter_none; [done|].
  intros b Hb. unfold lookup_test.
  destruct (heap s !! b) as [bs|] eqn:E; [|done].
  destruct HD as [_ Hh]. unfold type_eqb. apply bool_decide_eq_false.
  by apply (Hh _ _ E).
Qed.

Lemma no_adblock_without_path_witness :
  pool_size_adblock cfg_one = 0%nat
  /\ no_adblock s_other_type
  /\ (forall k s0,
        l_type <$> last (launching (_launchBrowser cfg_one TAdblock k s0))
        = Some TDefault)
  /\ adblockBrowsers (getStats s_other_type) = 0%nat.
Proof.
  apply (no_adblock_without_path cfg_one s_other_type).
  - reflexivity.
  - apply reachable_run, reachable_init. reflexivity.
Defined.

(** ** [maxPagesPerBrowser = 0] *)

Lemma never_dispatched_move cfg s s' :
  maxPagesPerBrowser cfg = 0%nat ->
  Inv cfg s -> never_dispatched s -> move cfg s s' -> never_dispatched s'.
Proof.
  intros Hmax (_ & _ & HB) HP Hm. pose proof HP as (Hd0 & Hst).
  destruct Hm as [t k _ _|i l Hi|i l Hi|id|l|id bs Hb Hc|name p r _|x rest a _ E F
                 |d g Hd Hset Hg|d g o Hd Hun Hg Ho
                 |d Hd Hun|d Hd Hset Hun| | | |]; try exact HP.
  - exfalso. apply findSuitable_Some in F as (_ & bs & Hb & Hs).
    apply suitable_spec in Hs as (_ & Hlt & _).
    pose proof (b_pages _ _ _ _ _ HB _ _ Hb). rewrite Hmax in Hlt. lia.
  - rewrite Hd0 in Hd. by apply elem_of_nil in Hd.
  - rewrite Hd0 in Hd. by apply elem_of_nil in Hd.
  - rewrite Hd0 in Hd. by apply elem_of_nil in Hd.
  - rewrite Hd0 in Hd. by apply elem_of_nil in Hd.
  - split; [done|]. simpl. intros e [He|(x & _ & ->)]%drain_elem; [by apply Hst|done].
Qed.

(** X9.  With [maxPagesPerBrowser = 0] no browser is ever eligible: tasks
    are accepted and queued, but in no reachable state has any task been
    dispatched, no browser is busy, and the only promises ever settled are
    those of tasks cancelled by [shutdown]. *)
Theorem zero_pages_never_dispatches cfg s :
  maxPagesPerBrowser cfg = 0%nat ->
  reachable cfg s ->
  dispatches s = []
  /\ busyBrowsers (getStats s) = 0%nat
  /\ (forall tid o, (tid, o) ∈ settlements s -> o = Rejected ErrTaskCancelled).
Proof.
  intros Hmax Hr.
  assert (never_dispatched s) as (Hd & Hst).
  { revert s Hr. apply reachable_moves_ind.
    - split; [done|]. by intros ? ?%elem_of_nil.
    - intros s s'. by apply never_dispatched_move. }
  pose proof (Inv_reachable cfg s Hr) as (_ & _ & HB).
  split; [done|]. split.
  - unfold getStats. simpl. rewrite filter_none; [done|].
    intros b _. unfold lookup_test. destruct (heap s !! b) as [bs|] eqn:E; [|done].
    destruct (busy bs) eqn:Eb; [|done].
    apply (b_busy _ _ _ _ _ HB _ _ E) in Eb. rewrite Hd in Eb. done.
  - intros tid o He. by apply (Hst _ He).
Qed.

Lemma zero_pages_never_dispatches_witness :
  dispatches s_zero_pages = []
  /\ busyBrowsers (getStats s_zero_pages) = 0%nat
  /\ (forall tid o, (tid, o) ∈ settlements s_zero_pages ->
                    o = Rejected ErrTaskCancelled).
Proof.
  apply (zero_pages_never_dispatches cfg_zero_pages s_zero_pages).
  - reflexivity.
  - apply reachable_run, reachable_init. reflexivity.
Defined.

Example s_zero_pages_log :
  settlements s_zero_pages
  = [(0%nat, Rejected ErrTaskCancelled); (1%nat, Rejected ErrTaskCancelled)].
Proof. reflexivity. Qed.

(** ** Warm-up *)

Lemma warmupPending_spec s :
  warmupPending s = true <-> exists l, l ∈ launching s /\ l_cont l = KWarmup.
Proof.
  unfold warmupPending. rewrite existsb_exists. split.
  - intros (l & Hin & Hl). exists l. split; [by apply list_elem_of_In|].
    by apply bool_decide_eq_true in Hl.
  - intros (l & Hin & Hl). exists l. split; [by apply list_elem_of_In|].
    by apply bool_decide_eq_true.
Qed.

Lemma filter_length_delete {A} (f : A -> bool) l i x :
  l !! i = Some x ->
  (List.length (List.filter f (delete i l)) + (if f x then 1 else 0))%nat
  = List.length (List.filter f l).
Proof.
  revert i. induction l as [|y l IH]; intros i Hi; [done|].
  destruct i as [|i]; simpl in *.
  - injection Hi as ->. destruct (f x); simpl; lia.
  - specialize (IH i Hi). destruct (f y); simpl; lia.
Qed.

Lemma iter_launch_warming cfg t n s :
  let x := {| l_type := match t with
                        | TAdblock =>
                            if path_truthy (adblockExtensionPath cfg)
                            then TAdblock else TDefault
                        | _ => t
                        end;
              l_cont := KWarmup |} in
  let s' := Nat.iter n (_launchBrowser cfg t KWarmup) s in
  launching s' = launching s ++ replicate n x
  /\ browsers s' = browsers s /\ heap s' = heap s
  /\ phase s' = phase s /\ dispatches s' = dispatches s.
Proof.
  intros x. induction n as [|n IH]; simpl; [by rewrite app_nil_r|].
  destruct IH as (H1 & H2 & H3 & H4 & H5). rewrite H1.
  split; [|done]. rewrite <- app_assoc. f_equal.
  change (replicate n x ++ [x] = replicate (S n) x). by rewrite replicate_S_end.
Qed.

Lemma filter_length_replicate {A} (f : A -> bool) n x :
  List.length (List.filter f (replicate n x)) = if f x then n else 0%nat.
Proof.
  induction n as [|n IH]; simpl; [by destruct (f x)|].
  destruct (f x); simpl; [by rewrite IH|done].
Qed.

Lemma warming_getBrowserPool cfg s : getBrowserPool cfg = Some s -> warming cfg s.
Proof.
  unfold getBrowserPool.
  destruct ((0 <? pool_size_adblock cfg)%nat
            && negb (path_truthy (adblockExtensionPath cfg))) eqn:Hthrow; [done|].
  intros [= <-].
  pose proof (iter_launch_warming cfg TDefault (pool_size_default cfg) emptyPool)
    as (L1 & B1 & _ & P1 & D1). cbn zeta in L1, B1, P1, D1.
  set (s1 := Nat.iter (pool_size_default cfg) _ emptyPool) in *.
  pose proof (iter_launch_warming cfg TAdblock (pool_size_adblock cfg) s1)
    as (L2 & B2 & _ & P2 & D2). cbn zeta in L2, B2, P2, D2.
  set (xd := {| l_type := TDefault; l_cont := KWarmup |}) in *.
  set (xa := {| l_type := TAdblock; l_cont := KWarmup |}).
  set (s2 := if _ && _ then _ else _).
  assert (exists na, (na = pool_size_adblock cfg)
                     /\ launching s2 = replicate (pool_size_default cfg) xd
                                       ++ replicate na xa
                     /\ browsers s2 = [] /\ phase s2 = Constructing
                     /\ dispatches s2 = []) as (na & Hna & L & B & P & D).
  { subst s2. destruct (path_truthy (adblockExtensionPath cfg)) eqn:Hp;
      destruct (0 <? pool_size_adblock cfg)%nat eqn:Hpa; simpl in Hthrow |- *;
      try done.
    - exists (pool_size_adblock cfg). rewrite L2, B2, P2, D2, L1, B1, P1, D1. done.
    - apply Nat.ltb_ge in Hpa. exists 0%nat. rewrite L1, B1, P1, D1.
      split; [lia|]. by rewrite app_nil_r.
    - apply Nat.ltb_ge in Hpa. exists 0%nat. rewrite L1, B1, P1, D1.
      split; [lia|]. by rewrite app_nil_r. }
  assert (warming cfg (set_phase (if warmupPending s2 then Constructing else Ready) s2))
    as HW.
  { unfold warming, countOfType, inflight. simpl. rewrite L, B, D. simpl.
    split; [|split; [|done]].
    - intros l [Hl|Hl]%elem_of_app; by apply elem_of_replicate in Hl as [-> _].
    - intros t. rewrite List.filter_app, length_app, !filter_length_replicate.
      unfold type_eqb. destruct t; simpl; lia. }
  destruct (warmupPending s2) eqn:Ew; [|done].
  destruct HW as (H1 & H2 & H3 & H4). split; [done|]. split; [done|].
  split; [|done]. by rewrite Ew, P.
Qed.

Lemma countOfType_launched cfg t ty s :
  Inv cfg s ->
  countOfType t (launched ty s)
  = (countOfType t s + (if type_eqb ty t then 1 else 0))%nat.
Proof.
  intros (_ & _ & HB). unfold countOfType, launched. simpl.
  rewrite List.filter_app, length_app. f_equal.
  - f_equal. apply filter_ext_in. intros b Hb%list_elem_of_In.
    unfold lookup_test. simpl. rewrite lookup_insert_ne; [done|].
    pose proof (b_heap_lt _ _ _ _ _ HB b (b_roster _ _ _ _ _ HB b Hb)). lia.
  - simpl. unfold lookup_test at 1. simpl. rewrite lookup_insert_eq. simpl.
    by destruct (type_eqb ty t).
Qed.

Lemma warming_launchSucceeds cfg i s :
  Inv cfg s -> warming cfg s -> warming cfg (launchSucceeds cfg i s).
Proof.
  intros HI (Hk & Hsum & Hph & Hd). unfold launchSucceeds.
  destruct (launching s !! i) as [l|] eqn:El; [|done].
  pose proof (list_elem_of_lookup_2 _ _ _ El) as Hl.
  rewrite (Hk l Hl).
  assert (warmupPending s = true) as Hw by (apply warmupPending_spec; eauto).
  rewrite Hw in Hph.
  set (s1 := launched (l_type l) (set_launching (delete i (launching s)) s)).
  assert (phase s1 = Constructing) as -> by done.
  assert (warming cfg (set_phase (if warmupPending s1 then Constructing else Ready) s1))
    as HW.
  { split; [|split; [|done]].
    - intros l' Hin%list_elem_of_delete_inv. by apply Hk.
    - intros t. specialize (Hsum t).
      change (countOfType t s1 + inflight t (set_launching (delete i (launching s)) s)
              = match t with TOther _ => 0 | _ => maxOfType cfg t end)%nat.
      unfold s1. rewrite (countOfType_launched cfg) by exact HI.
      change (countOfType t (set_launching (delete i (launching s)) s))
        with (countOfType t s).
      pose proof (filter_length_delete (fun l => type_eqb (l_type l) t) _ _ _ El).
      unfold inflight in *. simpl. lia. }
  destruct (warmupPending s1) eqn:Ew; [|done].
  destruct HW as (H1 & H2 & H3 & H4). split; [done|]. split; [done|].
  split; [|done]. by rewrite Ew.
Qed.

(** X10.  Warm-up.  When [getBrowserPool] does not throw and the launches
    it started complete successfully, in whatever order, then at every point
    the browsers on the roster plus the launches in flight of each class add
    up to the configured size of the class (and there is no browser or
    launch of any other type); while a launch is in flight the
    pool is still under construction, and once the last one has completed
    the pool is returned with exactly [pool_size_default] default browsers
    and [pool_size_adblock] adblock browsers, none of them busy. *)
Theorem warmup_fills_pool cfg s0 (order : list nat) :
  getBrowserPool cfg = Some s0 ->
  let s := run cfg s0 (EvLaunchOk <$> order) in
  (forall t, (countOfType t s + inflight t s)%nat
             = match t with TOther _ => 0%nat | _ => maxOfType cfg t end)
  /\ (launching s <> [] -> phase s = Constructing)
  /\ (launching s = [] ->
      phase s = Ready
      /\ defaultBrowsers (getStats s) = pool_size_default cfg
      /\ adblockBrowsers (getStats s) = pool_size_adblock cfg
      /\ busyBrowsers (getStats s) = 0%nat).
Proof.
  intros H0 s.
  assert (reachable cfg s /\ warming cfg s) as [Hr (Hk & Hsum & Hph & Hd)].
  { subst s. pose proof (reachable_init cfg s0 H0) as Hr0.
    pose proof (warming_getBrowserPool cfg s0 H0) as Hw0.
    clear H0. revert s0 Hr0 Hw0.
    induction order as [|i order IH]; intros s0 Hr0 Hw0; [done|].
    rewrite fmap_cons. cbn [run foldl]. apply IH.
    - by apply reachable_step.
    - apply warming_launchSucceeds; [by apply Inv_reachable|done]. }
  pose proof (Inv_reachable cfg s Hr) as (_ & _ & HB).
  split; [done|]. split.
  - intros Hne. rewrite Hph.
    assert (warmupPending s = true) as ->; [|done].
    apply warmupPending_spec. destruct (launching s) as [|l ls] eqn:El; [done|].
    exists l. split; [by left|]. apply Hk. by left.
  - intros El. split.
    { rewrite Hph. unfold warmupPending. by rewrite El. }
    pose proof (Hsum TDefault) as HsD. pose proof (Hsum TAdblock) as HsA.
    unfold inflight in HsD, HsA. rewrite El in HsD, HsA. simpl in HsD, HsA.
    unfold getStats. simpl. split; [lia|]. split; [lia|].
    rewrite filter_none; [done|]. intros b _. unfold lookup_test.
    destruct (heap s !! b) as [bs|] eqn:E; [|done].
    destruct (busy bs) eqn:Eb; [|done].
    apply (b_busy _ _ _ _ _ HB _ _ E) in Eb. rewrite Hd in Eb. done.
Qed.

Lemma warmup_fills_pool_witness :
  let s := run cfg_mixed (start cfg_mixed) (EvLaunchOk <$> [2; 0; 1; 0]%nat) in
  (forall t, (countOfType t s + inflight t s)%nat
             = match t with TOther _ => 0%nat | _ => maxOfType cfg_mixed t end)
  /\ (launching s <> [] -> phase s = Constructing)
  /\ (launching s = [] ->
      phase s = Ready
      /\ defaultBrowsers (getStats s) = pool_size_default cfg_mixed
      /\ adblockBrowsers (getStats s) = pool_size_adblock cfg_mixed
      /\ busyBrowsers (getStats s) = 0%nat).
Proof.
  apply (warmup_fills_pool cfg_mixed (start cfg_mixed) [2; 0; 1; 0]%nat).
  reflexivity.
Defined.

Example warmup_order :
  let s := run cfg_mixed (start cfg_mixed) (EvLaunchOk <$> [2; 0; 1; 0]%nat) in
  typeOf 0 s = TAdblock /\ typeOf 1 s = TDefault /\ typeOf 2 s = TAdblock
  /\ typeOf 3 s = TDefault /\ phase s = Ready.
Proof. repeat split; reflexivity. Qed.

(** ** [killBrowser] and the crash handler *)

Lemma find_eqb_elem h l : h ∈ l -> List.find (Nat.eqb h) l = Some h.
Proof.
  induction l as [|x l IH]; [by intros ?%elem_of_nil|]. simpl.
  destruct (Nat.eqb h x) eqn:E.
  - apply Nat.eqb_eq in E. by subst.
  - apply Nat.eqb_neq in E. intros [?|?]%elem_of_cons; [done|by apply IH].
Qed.

Lemma find_eqb_not_elem h l : h ∉ l -> List.find (Nat.eqb h) l = None.
Proof.
  induction l as [|x l IH]; [done|]. simpl. rewrite not_elem_of_cons.
  intros [Hne Hnin]. apply Nat.eqb_neq in Hne. rewrite Hne. by apply IH.
Qed.

Lemma filter_length_remove_first (f : nat -> bool) h l :
  h ∈ l ->
  (List.length (List.filter f (remove_first h l)) + (if f h then 1 else 0))%nat
  = List.length (List.filter f l).
Proof.
  induction l as [|x l IH]; [by intros ?%elem_of_nil|]. simpl.
  destruct (Nat.eqb x h) eqn:E.
  - apply Nat.eqb_eq in E. subst x. intros _. destruct (f h); simpl; lia.
  - apply Nat.eqb_neq in E. intros [?|Hin]%elem_of_cons; [congruence|].
    specialize (IH Hin). simpl. destruct (f x); simpl; lia.
Qed.

Lemma lookup_test_alter (P : BrowserState -> bool) f a s b :
  (forall x, P (f x) = P x) ->
  lookup_test P (set_heap (alter f a (heap s)) s) b = lookup_test P s b.
Proof.
  intros HP. unfold lookup_test. simpl. rewrite lookup_alter.
  case_decide; [subst|done]. destruct (heap s !! b); simpl; [apply HP|done].
Qed.

Lemma countOfType__processQueue cfg t s :
  countOfType t (_processQueue cfg s) = countOfType t s.
Proof.
  unfold _processQueue.
  destruct (shuttingDown s || isEmpty (taskQueue s)); [done|].
  destruct (items (taskQueue s)) as [|x rest] eqn:E; [done|].
  destruct (_findSuitableBrowser cfg (q_requirements x) s) as [a|].
  - unfold dequeue. rewrite E. unfold countOfType, dispatch. simpl. f_equal.
    apply filter_ext. intros b.
    by apply (lookup_test_alter (fun b => type_eqb (b_type b) t) b_acquire a s).
  - by destruct (_ <? _)%nat.
Qed.

Lemma countOfType_removed t h s :
  h ∈ browsers s -> is_Some (heap s !! h) ->
  (countOfType t (set_browsers (remove_first h (browsers s)) s)
   + (if type_eqb (typeOf h s) t then 1 else 0))%nat = countOfType t s.
Proof.
  intros Hh [bs Hb]. unfold countOfType. simpl.
  rewrite <- (filter_length_remove_first _ h (browsers s) Hh). f_equal.
  unfold typeOf, lookup_test. by rewrite Hb.
Qed.

Lemma kill_removes h s :
  roster_ok s -> h ∈ browsers s ->
  _removeBrowserFromPool h s
  = set_closeCalls (h :: closeCalls s)
      (set_browsers (remove_first h (browsers s)) s).
Proof.
  intros (_ & _ & Hcon) Hh. unfold _removeBrowserFromPool.
  destruct (Hcon h Hh) as (bs & Hb & Hc).
  assert (isConnected h (set_browsers (remove_first h (browsers s)) s) = true) as ->;
    [|done].
  unfold isConnected, lookup_test. simpl. by rewrite Hb.
Qed.

(** X11.  [killBrowser(browser, false)] on a browser of the roster takes
    exactly that browser off the roster and calls [close()] on it; it starts
    no launch and touches neither the queue nor any dispatch nor any
    promise: a task running on the killed browser is not settled by the
    kill.  For a handle that is not on the roster, [killBrowser] leaves
    roster, launches, queue and dispatches as they are, whatever
    [replenish] says. *)
Theorem kill_without_replenish cfg s h specific :
  reachable cfg s ->
  (h ∈ browsers s ->
   let s' := killBrowser cfg h false specific s in
   (h ∉ browsers s')
   /\ (forall b, b <> h -> b ∈ browsers s' <-> b ∈ browsers s)
   /\ closeCalls s' = h :: closeCalls s
   /\ launching s' = launching s
   /\ taskQueue s' = taskQueue s
   /\ dispatches s' = dispatches s
   /\ settlements s' = settlements s
   /\ heap s' = heap s)
  /\ (h ∉ browsers s ->
      forall replenish,
        let s' := killBrowser cfg h replenish specific s in
        browsers s' = browsers s
        /\ launching s' = launching s
        /\ taskQueue s' = taskQueue s
        /\ dispatches s' = dispatches s
        /\ settlements s' = settlements s).
Proof.
  intros Hr. pose proof (roster_ok_reachable cfg s Hr) as Hok. split.
  - intros Hh s'. subst s'. unfold killBrowser.
    rewrite (find_eqb_elem h _ Hh). cbn [andb].
    rewrite (kill_removes h s Hok Hh). simpl.
    destruct Hok as (Hnd & _ & _).
    destruct (remove_first_NoDup h _ Hnd) as [_ Hnin].
    split; [done|]. split; [|done].
    intros b Hne. split; [apply remove_first_subset|].
    intros Hb. by apply remove_first_other.
  - intros Hh replenish s'. subst s'. unfold killBrowser.
    rewrite (find_eqb_not_elem h _ Hh). by destruct (isConnected h s).
Qed.

Lemma kill_without_replenish_witness :
  (1%nat ∈ browsers s_over_cap ->
   let s' := killBrowser cfg_one 1 false None s_over_cap in
   (1%nat ∉ browsers s')
   /\ (forall b, b <> 1%nat -> b ∈ browsers s' <-> b ∈ browsers s_over_cap)
   /\ closeCalls s' = 1%nat :: closeCalls s_over_cap
   /\ launching s' = launching s_over_cap
   /\ taskQueue s' = taskQueue s_over_cap
   /\ dispatches s' = dispatches s_over_cap
   /\ settlements s' = settlements s_over_cap
   /\ heap s' = heap s_over_cap)
  /\ (1%nat ∉ browsers s_over_cap ->
      forall replenish,
        let s' := killBrowser cfg_one 1 replenish None s_over_cap in
        browsers s' = browsers s_over_cap
        /\ launching s' = launching s_over_cap
        /\ taskQueue s' = taskQueue s_over_cap
        /\ dispatches s' = dispatches s_over_cap
        /\ settlements s' = settlements s_over_cap).
Proof.
  apply (kill_without_replenish cfg_one s_over_cap 1 None).
  apply reachable_run, reachable_init. reflexivity.
Defined.

Lemma launch_type_kept cfg s h bs :
  reachable cfg s -> heap s !! h = Some bs ->
  match b_type bs with
  | TAdblock => if path_truthy (adblockExtensionPath cfg) then TAdblock else TDefault
  | _ => b_type bs
  end = b_type bs.
Proof.
  intros Hr Hb. destruct (b_type bs) eqn:Et; [done| |done].
  destruct (path_truthy (adblockExtensionPath cfg)) eqn:Hp; [done|].
  destruct (no_adblock_reachable cfg s Hp Hr) as [_ Hh].
  by destruct (Hh _ _ Hb).
Qed.

(** The replacement, last of the launches in flight, succeeds. *)
Lemma replacement_launched cfg t k s :
  Inv cfg s -> k = KKill \/ k = KCrash ->
  let s' := set_launching (launching s ++ [{| l_type := t; l_cont := k |}]) s in
  countOfType t (launchSucceeds cfg (List.length (launching s)) s')
  = S (countOfType t s).
Proof.
  intros HI Hk s'. unfold launchSucceeds.
  assert (launching s' !! List.length (launching s)
          = Some {| l_type := t; l_cont := k |}) as ->.
  { subst s'. simpl. by rewrite list_lookup_middle. }
  cbn [l_type l_cont].
  assert (forall s1, Inv cfg s1 -> countOfType t s1 = countOfType t s ->
                     countOfType t (launched t s1) = S (countOfType t s)) as Hl.
  { intros s1 HI1 Hc. rewrite (countOfType_launched cfg) by done.
    rewrite Hc. unfold type_eqb. rewrite bool_decide_eq_true_2 by done. lia. }
  destruct Hk as [-> | ->]; rewrite ?countOfType__processQueue; by apply Hl.
Qed.

Lemma remove_first_absent id l : id ∉ l -> remove_first id l = l.
Proof.
  induction l as [|x l IH]; [done|]. rewrite not_elem_of_cons. intros [Hne Hnin].
  simpl. apply not_eq_sym, Nat.eqb_neq in Hne. rewrite Hne. by rewrite IH.
Qed.

(** A replacement launch succeeds while nothing is queued. *)
Lemma launchSucceeds_replacement cfg i t k s :
  Inv cfg s -> items (taskQueue s) = [] ->
  launching s !! i = Some {| l_type := t; l_cont := k |} ->
  k = KKill \/ k = KCrash ->
  launchSucceeds cfg i s = launched t (set_launching (delete i (launching s)) s)
  /\ countOfType t (launchSucceeds cfg i s) = S (countOfType t s).
Proof.
  intros HI Hq Hl Hk.
  assert (launchSucceeds cfg i s
          = launched t (set_launching (delete i (launching s)) s)) as ->.
  { unfold launchSucceeds. rewrite Hl. cbn [l_type l_cont].
    assert (forall s2, taskQueue s2 = taskQueue s -> _processQueue cfg s2 = s2)
      as Hpq.
    { intros s2 E. unfold _processQueue, isEmpty. rewrite E, Hq.
      by rewrite orb_true_r. }
    destruct Hk as [-> | ->]; [by apply Hpq|done]. }
  split; [done|].
  assert (Inv cfg (set_launching (delete i (launching s)) s)) as HI' by exact HI.
  rewrite (countOfType_launched cfg) by done.
  unfold type_eqb. rewrite bool_decide_eq_true_2 by done.
  change (countOfType t (set_launching (delete i (launching s)) s))
    with (countOfType t s). lia.
Qed.

(** X12.  [killBrowser(browser)] with [replenish] left at [true], on a
    browser of the roster whose class is not above its configured size, while
    the pool is not shutting down and nothing is queued: the browser leaves
    the roster, [close()] is called on it and one launch of its class is
    started.  The ['disconnected'] event that the [close()] provokes then
    runs the disconnect handler of the killed browser, which counts the
    roster only and starts a second launch of the same class.  When both
    launches have succeeded the class has one browser more than before the
    kill. *)
Theorem kill_replenishes_twice cfg s h :
  reachable cfg s -> h ∈ browsers s -> shuttingDown s = false ->
  items (taskQueue s) = [] ->
  let t := typeOf h s in
  (countOfType t s <= maxOfType cfg t)%nat ->
  let n := List.length (launching s) in
  let s1 := killBrowser cfg h true None s in
  let s2 := step cfg s1 (EvDisconnected h) in
  (h ∉ browsers s1)
  /\ closeCalls s1 = h :: closeCalls s
  /\ S (countOfType t s1) = countOfType t s
  /\ launching s1 = launching s ++ [{| l_type := t; l_cont := KKill |}]
  /\ browsers s2 = browsers s1
  /\ launching s2 = launching s ++ [{| l_type := t; l_cont := KKill |};
                                    {| l_type := t; l_cont := KCrash |}]
  /\ countOfType t (run cfg s2 [EvLaunchOk n; EvLaunchOk n])
     = S (countOfType t s).
Proof.
  intros Hr Hh Hs Hq t Hle n s1 s2.
  pose proof (roster_ok_reachable cfg s Hr) as Hok.
  pose proof (Inv_reachable cfg s Hr) as HI.
  destruct Hok as (Hnd & Hids & Hcon). destruct (Hcon h Hh) as (bs & Hb & Hc).
  assert (t = b_type bs) as Ht by (unfold t, typeOf; by rewrite Hb).
  set (sr := set_closeCalls (h :: closeCalls s)
               (set_browsers (remove_first h (browsers s)) s)).
  assert (S (countOfType t sr) = countOfType t s) as Hcount.
  { pose proof (countOfType_removed t h s Hh (mk_is_Some _ _ Hb)) as H.
    fold t in H. unfold type_eqb in H. rewrite bool_decide_eq_true_2 in H by done.
    change (countOfType t sr)
      with (countOfType t (set_browsers (remove_first h (browsers s)) s)). lia. }
  assert ((countOfType t sr <? maxOfType cfg t)%nat = true) as Ec
    by (apply Nat.ltb_lt; lia).
  assert (match t with
          | TAdblock => if path_truthy (adblockExtensionPath cfg)
                        then TAdblock else TDefault
          | _ => t
          end = t) as Hkept.
  { rewrite Ht. by apply (launch_type_kept cfg s h bs Hr Hb). }
  assert (s1 = set_launching
                 (launching s ++ [{| l_type := t; l_cont := KKill |}]) sr) as Hs1.
  { unfold s1, killBrowser. rewrite (find_eqb_elem h _ Hh).
    rewrite (kill_removes h s (conj Hnd (conj Hids Hcon)) Hh). fold sr.
    change (shuttingDown sr) with (shuttingDown s). rewrite Hs. cbn [andb negb].
    fold t. rewrite Ec. unfold _launchBrowser. by rewrite Hkept. }
  destruct (remove_first_NoDup h _ Hnd) as [_ Hnin].
  set (s0 := set_heap (alter (b_set_connected false) h (heap s1)) s1).
  assert (countOfType t s0 = countOfType t sr) as Hc0.
  { unfold s0. rewrite Hs1. unfold countOfType. simpl. f_equal.
    apply filter_ext. intros b.
    by apply (lookup_test_alter (fun b => type_eqb (b_type b) t)
                (b_set_connected false) h sr). }
  assert (s2 = set_launching
                 (launching s ++ [{| l_type := t; l_cont := KKill |};
                                  {| l_type := t; l_cont := KCrash |}]) s0) as Hs2.
  { unfold s2. cbn [step]. unfold disconnected.
    assert (heap s1 !! h = Some bs) as -> by (by rewrite Hs1).
    rewrite Hc. fold s0. unfold onDisconnected, _removeBrowserFromPool.
    assert (remove_first h (browsers s0) = browsers s0) as ->.
    { apply remove_first_absent. unfold s0. simpl. by rewrite Hs1. }
    assert (set_browsers (browsers s0) s0 = s0) as ->
      by (unfold s0; by destruct s1).
    assert (isConnected h s0 = false) as ->.
    { unfold isConnected, lookup_test. simpl. rewrite lookup_alter_eq.
      assert (heap s1 !! h = Some bs) as -> by (by rewrite Hs1). done. }
    assert (shuttingDown s0 = false) as -> by (unfold s0; simpl; by rewrite Hs1).
    rewrite <- Ht, Hc0, Ec.
    assert (forall s3, taskQueue s3 = taskQueue s -> _processQueue cfg s3 = s3)
      as Hpq.
    { intros s3 E. unfold _processQueue, isEmpty. rewrite E, Hq.
      by rewrite orb_true_r. }
    rewrite Hpq by (unfold s0; simpl; by rewrite Hs1).
    unfold _launchBrowser. rewrite Hkept.
    assert (launching s0 = launching s ++ [{| l_type := t; l_cont := KKill |}])
      as -> by (unfold s0; simpl; by rewrite Hs1).
    by rewrite <- app_assoc. }
  split; [by rewrite Hs1|]. split; [by rewrite Hs1|].
  split; [by rewrite Hs1|]. split; [by rewrite Hs1|].
  split; [by rewrite Hs2|]. split; [by rewrite Hs2|].
  assert (Inv cfg s2) as HI2.
  { unfold s2, s1. apply Inv_step. by apply Inv_killBrowser. }
  assert (items (taskQueue s2) = []) as Hq2
    by (rewrite Hs2; unfold s0; simpl; by rewrite Hs1).
  assert (launching s2 !! n = Some {| l_type := t; l_cont := KKill |}) as Hl2.
  { rewrite Hs2. simpl. by rewrite list_lookup_middle. }
  destruct (launchSucceeds_replacement cfg n t KKill s2 HI2 Hq2 Hl2
              (or_introl eq_refl)) as [E3 C3].
  cbn [run foldl step]. set (s3 := launchSucceeds cfg n s2) in *.
  assert (Inv cfg s3) as HI3 by by apply Inv_launchSucceeds.
  assert (items (taskQueue s3) = []) as Hq3 by (by rewrite E3).
  assert (launching s3 !! n = Some {| l_type := t; l_cont := KCrash |}) as Hl3.
  { rewrite E3. simpl. rewrite Hs2. simpl.
    assert (delete n (launching s ++ [{| l_type := t; l_cont := KKill |};
                                      {| l_type := t; l_cont := KCrash |}])
            = launching s ++ [{| l_type := t; l_cont := KCrash |}]) as ->.
    { unfold n. clear. induction (launching s) as [|x l IH]; [done|].
      simpl. by rewrite IH. }
    by rewrite list_lookup_middle. }
  destruct (launchSucceeds_replacement cfg n t KCrash s3 HI3 Hq3 Hl3
              (or_intror eq_refl)) as [_ C4].
  rewrite C4, C3.
  assert (countOfType t s2 = countOfType t s0) as -> by (by rewrite Hs2).
  rewrite Hc0. lia.
Qed.

Lemma kill_replenishes_twice_witness :
  let t := typeOf 0 s_idle_two in
  let n := List.length (launching s_idle_two) in
  let s1 := killBrowser cfg_two 0 true None s_idle_two in
  let s2 := step cfg_two s1 (EvDisconnected 0) in
  (0%nat ∉ browsers s1)
  /\ closeCalls s1 = 0%nat :: closeCalls s_idle_two
  /\ S (countOfType t s1) = countOfType t s_idle_two
  /\ launching s1 = launching s_idle_two ++ [{| l_type := t; l_cont := KKill |}]
  /\ browsers s2 = browsers s1
  /\ launching s2 = launching s_idle_two
                    ++ [{| l_type := t; l_cont := KKill |};
                        {| l_type := t; l_cont := KCrash |}]
  /\ countOfType t (run cfg_two s2 [EvLaunchOk n; EvLaunchOk n])
     = S (countOfType t s_idle_two).
Proof.
  apply (kill_replenishes_twice cfg_two s_idle_two 0).
  - apply reachable_run, reachable_init. reflexivity.
  - vm_compute. left.
  - reflexivity.
  - reflexivity.
  - vm_compute. lia.
Defined.

(** Two browsers configured, three on the roster after the kill. *)
Example kill_replenishes_twice_stats :
  let s1 := killBrowser cfg_two 0 true None s_idle_two in
  pool_size_default cfg_two = 2%nat
  /\ defaultBrowsers
       (getStats (run cfg_two s1 [EvDisconnected 0; EvLaunchOk 0; EvLaunchOk 0]))
     = 3%nat.
Proof. split; reflexivity. Qed.

(** X13.  A browser of the roster crashes while the pool is not shutting
    down and no task is queued: the handler takes it off the roster without
    calling [close()], the class has one browser less, and if the class was
    not above its configured size exactly one replacement launch of the same
    class is started; when that launch succeeds the class is back at its
    previous size.  Queue, dispatches and promises are untouched: a task
    that was running on the crashed browser is left to its own outcome or to
    the timer. *)
Theorem crash_replenishes cfg s h :
  reachable cfg s -> h ∈ browsers s -> shuttingDown s = false ->
  items (taskQueue s) = [] ->
  let t := typeOf h s in
  let s' := step cfg s (EvDisconnected h) in
  (h ∉ browsers s')
  /\ isConnected h s' = false
  /\ closeCalls s' = closeCalls s
  /\ S (countOfType t s') = countOfType t s
  /\ dispatches s' = dispatches s /\ settlements s' = settlements s
  /\ ((countOfType t s <= maxOfType cfg t)%nat ->
      launching s' = launching s ++ [{| l_type := t; l_cont := KCrash |}]
      /\ countOfType t (step cfg s' (EvLaunchOk (List.length (launching s))))
         = countOfType t s)
  /\ ((maxOfType cfg t < countOfType t s)%nat -> launching s' = launching s).
Proof.
  intros Hr Hh Hs Hq t s'.
  pose proof (roster_ok_reachable cfg s Hr) as (Hnd & Hids & Hcon).
  pose proof (Inv_reachable cfg s Hr) as HI.
  destruct (Hcon h Hh) as (bs & Hb & Hc).
  assert (t = b_type bs) as Ht by (unfold t, typeOf; by rewrite Hb).
  set (s0 := set_heap (alter (b_set_connected false) h (heap s)) s).
  set (s1 := set_browsers (remove_first h (browsers s)) s0).
  assert (isConnected h s1 = false) as Hdis.
  { unfold isConnected, lookup_test. simpl. by rewrite lookup_alter_eq, Hb. }
  assert (forall s2, taskQueue s2 = taskQueue s -> _processQueue cfg s2 = s2) as Hpq.
  { intros s2 E. unfold _processQueue, isEmpty. rewrite E, Hq.
    by rewrite orb_true_r. }
  assert (countOfType t s0 = countOfType t s) as Hc0.
  { unfold countOfType. f_equal. apply filter_ext. intros b.
    by apply (lookup_test_alter (fun b => type_eqb (b_type b) t)). }
  assert (S (countOfType t s1) = countOfType t s) as Hcount.
  { assert (typeOf h s0 = t) as Ht0.
    { unfold typeOf. simpl. rewrite lookup_alter_eq, Hb. simpl. done. }
    assert (is_Some (heap s0 !! h)) as Hsome.
    { simpl. rewrite lookup_alter_eq, Hb. by eexists. }
    pose proof (countOfType_removed t h s0 Hh Hsome) as H.
    rewrite Ht0 in H. unfold type_eqb in H.
    rewrite bool_decide_eq_true_2 in H by done.
    change (set_browsers (remove_first h (browsers s0)) s0) with s1 in H. lia. }
  assert (Inv cfg s1) as HI1.
  { destruct HI as (HQ & HT & HB). split; [exact HQ|]. split; [exact HT|].
    eapply InvB_roster; [apply remove_first_subset|]. by apply InvB_connected. }
  assert (s' = if (countOfType t s1 <? maxOfType cfg t)%nat
               then set_launching
                      (launching s ++ [{| l_type := t; l_cont := KCrash |}]) s1
               else s1) as Hs'.
  { unfold s'. cbn [step]. unfold disconnected. rewrite Hb, Hc.
    unfold onDisconnected, _removeBrowserFromPool. fold s0.
    change (set_browsers (remove_first h (browsers s0)) s0) with s1.
    rewrite Hdis. change (shuttingDown s1) with (shuttingDown s). rewrite Hs.
    rewrite <- Ht. destruct (_ <? _)%nat; [|by apply Hpq].
    rewrite Hpq by done.
    unfold _launchBrowser. rewrite Ht, (launch_type_kept cfg s h bs Hr Hb). done. }
  destruct (remove_first_NoDup h _ Hnd) as [_ Hnin].
  destruct (countOfType t s1 <? maxOfType cfg t)%nat eqn:Ec; rewrite Hs'.
  - apply Nat.ltb_lt in Ec. repeat (split; [done|]). split; [|lia].
    intros _. split; [done|]. cbn [step].
    pose proof (replacement_launched cfg t KCrash s1 HI1 (or_intror eq_refl)) as H.
    cbn zeta in H. change (launching s1) with (launching s) in H. rewrite H. lia.
  - apply Nat.ltb_ge in Ec. repeat (split; [done|]). split; [lia|done].
Qed.

Lemma crash_replenishes_witness :
  let t := typeOf 0 s_idle_two in
  let s' := step cfg_two s_idle_two (EvDisconnected 0) in
  (0%nat ∉ browsers s')
  /\ isConnected 0 s' = false
  /\ closeCalls s' = closeCalls s_idle_two
  /\ S (countOfType t s') = countOfType t s_idle_two
  /\ dispatches s' = dispatches s_idle_two
  /\ settlements s' = settlements s_idle_two
  /\ ((countOfType t s_idle_two <= maxOfType cfg_two t)%nat ->
      launching s' = launching s_idle_two ++ [{| l_type := t; l_cont := KCrash |}]
      /\ countOfType t
           (step cfg_two s' (EvLaunchOk (List.length (launching s_idle_two))))
         = countOfType t s_idle_two)
  /\ ((maxOfType cfg_two t < countOfType t s_idle_two)%nat ->
      launching s' = launching s_idle_two).
Proof.
  apply (crash_replenishes cfg_two s_idle_two 0).
  - apply reachable_run, reachable_init. reflexivity.
  - vm_compute. left.
  - reflexivity.
  - reflexivity.
Defined.

(** ** The retry loop of the task functions *)

Section Retry.
Context (backoff : Z -> Z) (max_retries : Z) (body : Z -> AttemptResult).

(** [n] attempts in a row fail and are retried. *)
Lemma retryLoop_failures n fuel a sl :
  (forall j, a < j <= a + Z.of_nat n -> exists e, body j = AttemptErr e) ->
  a + Z.of_nat n <= max_retries ->
  retryLoop backoff max_retries body (n + fuel) a sl
  = retryLoop backoff max_retries body fuel (a + Z.of_nat n)
      (sl + backoff_sum backoff a n).
Proof.
  revert a sl. induction n as [|n IH]; intros a sl Hfail Hle.
  - simpl. by rewrite !Z.add_0_r.
  - cbn [Nat.add retryLoop].
    assert ((a <=? max_retries) = true) as -> by (apply Z.leb_le; lia).
    destruct (Hfail (a + 1)) as [e ->]; [lia|].
    assert ((a + 1 >? max_retries) = false) as ->
      by (rewrite Z.gtb_ltb; apply Z.ltb_ge; lia).
    rewrite IH; [|intros j Hj; apply Hfail; lia|lia].
    cbn [backoff_sum]. f_equal; lia.
Qed.

Lemma retryLoop_bounds fuel a sl :
  a <= max_retries -> (Z.to_nat (max_retries - a) < fuel)%nat ->
  exists run, retryLoop backoff max_retries body fuel a sl = Some run
              /\ tr_outcome run <> TaskUnknownError
              /\ a < tr_attempts run <= max_retries + 1.
Proof.
  revert a sl. induction fuel as [|fuel IH]; intros a sl Ha Hf; [lia|].
  cbn [retryLoop].
  assert ((a <=? max_retries) = true) as -> by (apply Z.leb_le; lia).
  destruct (body (a + 1)) as [r|e].
  - eexists. split; [done|]. simpl. split; [done|lia].
  - destruct (a + 1 >? max_retries) eqn:E.
    + eexists. split; [done|]. simpl. split; [done|lia].
    + rewrite Z.gtb_ltb in E. apply Z.ltb_ge in E.
      destruct (IH (a + 1) (sl + backoff (a + 1))) as (run & Hr & Ho & Hb);
        [lia|lia|]. exists run. split; [done|]. split; [done|lia].
Qed.

End Retry.

(** X14.  The task function returns the buffer of the first attempt that
    succeeds: if attempts 1 to [k - 1] throw, attempt [k] returns and
    [k <= max_retries + 1], the call returns that buffer after exactly [k]
    attempts, having slept the back-offs of the [k - 1] failed attempts and
    nothing more. *)
Theorem retry_first_success backoff max_retries body (k : nat) buffer :
  (forall j, 1 <= j <= Z.of_nat k -> exists e, body j = AttemptErr e) ->
  body (Z.of_nat k + 1) = AttemptOk buffer ->
  Z.of_nat k <= max_retries ->
  taskFnRun backoff max_retries body
  = Some {| tr_outcome := TaskReturned buffer;
            tr_attempts := Z.of_nat k + 1;
            tr_slept := backoff_sum backoff 0 k |}.
Proof.
  intros Hfail Hok Hle. unfold taskFnRun.
  replace (S (Z.to_nat (max_retries + 1)))
    with (k + S (Z.to_nat (max_retries + 1) - k))%nat by lia.
  rewrite retryLoop_failures; [|intros j Hj; apply Hfail; lia|lia].
  cbn [retryLoop].
  assert ((0 + Z.of_nat k <=? max_retries) = true) as -> by (apply Z.leb_le; lia).
  rewrite !Z.add_0_l, Hok. done.
Qed.

Lemma retry_first_success_witness :
  taskFnRun screenshot_backoff 3
    (fun j => if j <? 3 then AttemptErr "net::ERR_TIMED_OUT" else AttemptOk "png")
  = Some {| tr_outcome := TaskReturned "png";
            tr_attempts := Z.of_nat 2 + 1;
            tr_slept := backoff_sum screenshot_backoff 0 2 |}.
Proof.
  apply (retry_first_success screenshot_backoff 3
           (fun j => if j <? 3 then AttemptErr "net::ERR_TIMED_OUT"
                     else AttemptOk "png") 2 "png").
  - intros j Hj. exists "net::ERR_TIMED_OUT"%string.
    assert ((j <? 3) = true) as -> by (apply Z.ltb_lt; lia). reflexivity.
  - reflexivity.
  - simpl. lia.
Defined.

(** X15.  When all [max_retries + 1] attempts throw ([max_retries >= 0]),
    the task function throws the error of the last attempt, not the
    "Unknown error" that follows the loop; it has made exactly
    [max_retries + 1] attempts and slept after each of the first
    [max_retries] only: there is no back-off after the final failure. *)
Theorem retry_exhausted backoff max_retries body (error : Z -> string) :
  0 <= max_retries ->
  (forall j, 1 <= j <= max_retries + 1 -> body j = AttemptErr (error j)) ->
  taskFnRun backoff max_retries body
  = Some {| tr_outcome := TaskThrew (error (max_retries + 1));
            tr_attempts := max_retries + 1;
            tr_slept := backoff_sum backoff 0 (Z.to_nat max_retries) |}.
Proof.
  intros Hm Hfail. unfold taskFnRun.
  replace (S (Z.to_nat (max_retries + 1)))
    with (Z.to_nat max_retries + 2)%nat by lia.
  rewrite retryLoop_failures; [|intros j Hj; eexists; apply Hfail; lia|lia].
  cbn [retryLoop]. rewrite Z.add_0_l, Z2Nat.id by done.
  assert ((max_retries <=? max_retries) = true) as -> by (apply Z.leb_le; lia).
  rewrite Hfail by lia.
  assert ((max_retries + 1 >? max_retries) = true) as ->
    by (rewrite Z.gtb_ltb; apply Z.ltb_lt; lia).
  done.
Qed.

Lemma retry_exhausted_witness :
  taskFnRun screencast_backoff 2 (fun j => AttemptErr "Device not found")
  = Some {| tr_outcome := TaskThrew "Device not found";
            tr_attempts := 2 + 1;
            tr_slept := backoff_sum screencast_backoff 0 (Z.to_nat 2) |}.
Proof.
  apply (retry_exhausted screencast_backoff 2
           (fun j => AttemptErr "Device not found") (fun _ => "Device not found"%string)).
  - lia.
  - reflexivity.
Defined.

(** X16.  Whatever the attempts do, the task function terminates; it makes
    at most [max_retries + 1] attempts (none when [max_retries] is
    negative), and it ends with the "Unknown error" that follows the loop
    exactly when [max_retries] is negative, in which case no attempt was
    made at all. *)
Theorem retry_bounds backoff max_retries body :
  exists run,
    taskFnRun backoff max_retries body = Some run
    /\ 0 <= tr_attempts run <= Z.max 0 (max_retries + 1)
    /\ (tr_outcome run = TaskUnknownError <-> max_retries < 0)
    /\ (max_retries < 0 -> tr_attempts run = 0 /\ tr_slept run = 0).
Proof.
  unfold taskFnRun. destruct (Z.ltb_spec max_retries 0) as [Hneg|Hpos].
  - cbn [retryLoop].
    assert ((0 <=? max_retries) = false) as -> by (apply Z.leb_gt; lia).
    eexists. split; [done|]. simpl. split; [lia|]. split; [done|done].
  - destruct (retryLoop_bounds backoff max_retries body
                (S (Z.to_nat (max_retries + 1))) 0 0) as (run & Hr & Ho & Hb);
      [lia|lia|].
    exists run. split; [done|]. split; [lia|]. split; [|lia].
    split; [done|lia].
Qed.

(** X17.  The back-off times add up as follows.  A screenshot task sleeps
    [1000 * k] ms after its [k]-th failed attempt, [500 * n * (n + 1)] ms
    over [n] failures in a row; a screencast task sleeps 1000 ms after the
    first failure and [2000 * k] ms after the [k]-th one from then on,
    [1000 * n * (n + 1) - 1000] ms over [n >= 1] failures. *)
Theorem backoff_totals (n : nat) :
  backoff_sum screenshot_backoff 0 n = 500 * Z.of_nat n * (Z.of_nat n + 1)
  /\ backoff_sum screencast_backoff 0 n
     = if Nat.eqb n 0 then 0 else 1000 * Z.of_nat n * (Z.of_nat n + 1) - 1000.
Proof.
  assert (forall a m, backoff_sum screenshot_backoff a m
            = 1000 * a * Z.of_nat m + 500 * Z.of_nat m * (Z.of_nat m + 1)) as H1.
  { intros a m. revert a. induction m as [|m IH]; intros a; [simpl; lia|].
    cbn [backoff_sum]. rewrite IH. unfold screenshot_backoff.
    rewrite Nat2Z.inj_succ. unfold Z.succ. ring. }
  assert (forall a m, 1 <= a -> backoff_sum screencast_backoff a m
            = 2000 * a * Z.of_nat m + 1000 * Z.of_nat m * (Z.of_nat m + 1)) as H2.
  { intros a m. revert a. induction m as [|m IH]; intros a Ha; [simpl; lia|].
    cbn [backoff_sum]. rewrite IH by lia. unfold screencast_backoff.
    assert ((a + 1 >? 1) = true) as -> by (rewrite Z.gtb_ltb; apply Z.ltb_lt; lia).
    rewrite Nat2Z.inj_succ. unfold Z.succ. ring. }
  split; [rewrite H1; ring|].
  destruct n as [|n]; [done|]. cbn [backoff_sum Nat.eqb].
  rewrite H2 by lia. unfold screencast_backoff.
  change (0 + 1 >? 1) with false. cbv iota.
  rewrite Nat2Z.inj_succ. unfold Z.succ. ring.
Qed.

(** ** Queueing a task made by a factory *)

Lemma queueTask_accepted cfg s name r p :
  shuttingDown s = false ->
  (use_adblock r = true ->
   path_truthy (adblockExtensionPath cfg) = true
   /\ pool_size_adblock cfg <> 0%nat) ->
  let id := taskIdCounter (taskQueue s) in
  let res := queueTaskWithRequirements cfg (JsFunction name) r p s in
  res.1 = Pending id
  /\ taskIdCounter (taskQueue res.2) = S id
  /\ (queued res.2 id \/ dispatched res.2 id)
  /\ settlements res.2 = settlements s
  /\ (forall b, items (taskQueue s) = [] ->
        _findSuitableBrowser cfg r s = Some b ->
        dispatched res.2 id /\ items (taskQueue res.2) = []
        /\ lookup_test busy res.2 b = lookup_test (fun _ => true) s b).
Proof.
  intros Hs Hcfg id res. subst res. unfold queueTaskWithRequirements.
  rewrite Hs.
  assert (use_adblock r && negb (path_truthy (adblockExtensionPath cfg)) = false)
    as ->.
  { destruct (use_adblock r); [|done]. destruct Hcfg as [-> _]; done. }
  assert (use_adblock r && Nat.eqb (pool_size_adblock cfg) 0 = false) as ->.
  { destruct (use_adblock r); [|done]. destruct Hcfg as [_ H]; [done|].
    simpl. by apply Nat.eqb_neq. }
  unfold enqueue. fold id. cbn [fst snd].
  set (item := {| q_task := name; q_priority := p; q_requirements := r;
                  q_id := id |}).
  set (q := {| items := js_sort by_priority (items (taskQueue s) ++ [item]);
               taskIdCounter := S id |}).
  set (s1 := set_taskQueue q s).
  assert (item ∈ items (taskQueue s1)) as Hin.
  { simpl. apply elem_of_js_sort, elem_of_app. right. by left. }
  split; [done|]. rewrite settlements__processQueue.
  split; [|split; [|split; [done|]]].
  - destruct (processQueue_cases cfg s1) as [(-> & _)|(x & rest & a & _ & E & _ & ->)];
      done.
  - destruct (processQueue_cases cfg s1)
      as [(Eq & _)|(x & rest & a & _ & E & _ & ->)].
    + left. unfold queued. rewrite Eq. by apply (list_elem_of_fmap_2 q_id) in Hin.
    + rewrite E in Hin. apply elem_of_cons in Hin as [<-|Hin].
      * right. unfold dispatched, dispatch. simpl. by left.
      * left. unfold queued, dispatch. simpl.
        by apply (list_elem_of_fmap_2 q_id) in Hin.
  - intros b He Hf. unfold _processQueue.
    assert (items (taskQueue s1) = [item]) as Hq by (simpl; by rewrite He).
    assert (shuttingDown s1 = false) as -> by done.
    unfold isEmpty, dequeue. rewrite Hq. cbn [orb].
    assert (_findSuitableBrowser cfg (q_requirements item) s1 = Some b) as ->
      by exact Hf.
    split; [unfold dispatched, dispatch; simpl; by left|]. split; [done|].
    unfold dispatch, lookup_test. simpl.
    rewrite lookup_alter_eq.
    apply findSuitable_Some in Hf as (_ & bs & -> & _). done.
Qed.

(** X18.  A task object made by [createScreenshotTask] or
    [createScreencastTask] for a string url passes the validation of either
    facade.  On a pool that is not shutting down and whose configuration
    can serve the task's [use_adblock], the facade returns a pending promise
    for a fresh id (the queue's counter, which moves on by one), settles
    nothing, and leaves the task either queued or handed to a browser; when
    the queue was empty and a suitable browser exists, the task is handed to
    that browser within the call and the queue is empty again. *)
Theorem created_task_is_queued cfg s o u priority create queue :
  (create = createScreenshotTask \/ create = createScreencastTask) ->
  (queue = queueScreenshotTask \/ queue = queueScreencastTask) ->
  opt_url o = Some u ->
  accept_cookie_banners o && selectors_missing o = false ->
  shuttingDown s = false ->
  (opt_use_adblock o = true ->
   path_truthy (adblockExtensionPath cfg) = true
   /\ pool_size_adblock cfg <> 0%nat) ->
  let id := taskIdCounter (taskQueue s) in
  exists task s',
    create o = Made task
    /\ queue cfg (Some task) priority s = (Forwarded (Pending id), s')
    /\ s' = (queueTaskWithRequirements cfg (JsFunction u)
               {| use_adblock := opt_use_adblock o |} priority s).2
    /\ taskIdCounter (taskQueue s') = S id
    /\ (queued s' id \/ dispatched s' id)
    /\ settlements s' = settlements s
    /\ (forall b, items (taskQueue s) = [] ->
          _findSuitableBrowser cfg {| use_adblock := opt_use_adblock o |} s = Some b ->
          dispatched s' id /\ items (taskQueue s') = []
          /\ lookup_test busy s' b = true).
Proof.
  intros Hc Hq Hu Hsel Hs Hcfg id.
  pose proof (queueTask_accepted cfg s u {| use_adblock := opt_use_adblock o |}
                priority Hs Hcfg) as (H1 & H2 & H3 & H4 & H5).
  fold id in H1, H2, H3, H5.
  destruct (queueTaskWithRequirements cfg (JsFunction u)
              {| use_adblock := opt_use_adblock o |} priority s) as [p s'] eqn:E.
  cbn [fst snd] in *. subst p.
  exists {| taskFn := JsFunction u;
            requirements := Some {| use_adblock := opt_use_adblock o |};
            originalUrl := Some u |}, s'.
  split.
  { destruct Hc as [-> | ->];
      unfold createScreenshotTask, createScreencastTask; by rewrite Hsel, Hu. }
  split.
  { destruct Hq as [-> | ->];
      unfold queueScreenshotTask, queueScreencastTask; cbn; by rewrite E. }
  split; [done|]. split; [done|]. split; [done|]. split; [done|].
  intros b He Hf. destruct (H5 b He Hf) as (Hd & Hi & Hb).
  split; [done|]. split; [done|]. rewrite Hb.
  apply findSuitable_Some in Hf as (_ & bs & Hbs & _).
  unfold lookup_test. by rewrite Hbs.
Qed.

Lemma created_task_is_queued_witness :
  let id := taskIdCounter (taskQueue s_idle_two) in
  exists task s',
    createScreenshotTask o_page = Made task
    /\ queueScreencastTask cfg_two (Some task) 5 s_idle_two
       = (Forwarded (Pending id), s')
    /\ s' = (queueTaskWithRequirements cfg_two (JsFunction "https://example.com")
               {| use_adblock := opt_use_adblock o_page |} 5 s_idle_two).2
    /\ taskIdCounter (taskQueue s') = S id
    /\ (queued s' id \/ dispatched s' id)
    /\ settlements s' = settlements s_idle_two
    /\ (forall b, items (taskQueue s_idle_two) = [] ->
          _findSuitableBrowser cfg_two {| use_adblock := opt_use_adblock o_page |}
            s_idle_two = Some b ->
          dispatched s' id /\ items (taskQueue s') = []
          /\ lookup_test busy s' b = true).
Proof.
  apply (created_task_is_queued cfg_two s_idle_two o_page "https://example.com" 5
           createScreenshotTask queueScreencastTask).
  - by left.
  - by right.
  - reflexivity.
  - reflexivity.
  - reflexivity.
  - discriminate.
Defined.

(** X19.  The factories do not look at [url]; the facades do.  A task
    object made by either factory is rejected by either facade with the
    invalid-task-object error exactly when the factory was given no string
    url, and then the pool is left as it is, whether it is shutting down or
    not; with a string url the facade returns what
    [queueTaskWithRequirements] returns for the task function and
    [{ use_adblock }]. *)
Theorem facade_checks_url cfg s o task priority create queue :
  (create = createScreenshotTask \/ create = createScreencastTask) ->
  (queue = queueScreenshotTask \/ queue = queueScreencastTask) ->
  create o = Made task ->
  (opt_url o = None <-> (queue cfg (Some task) priority s).1 = InvalidTaskObject)
  /\ (opt_url o = None -> queue cfg (Some task) priority s = (InvalidTaskObject, s))
  /\ (forall u, opt_url o = Some u ->
        queue cfg (Some task) priority s
        = (Forwarded (queueTaskWithRequirements cfg (JsFunction u)
                        {| use_adblock := opt_use_adblock o |} priority s).1,
           (queueTaskWithRequirements cfg (JsFunction u)
              {| use_adblock := opt_use_adblock o |} priority s).2)).
Proof.
  intros Hc Hq Hm.
  assert (task = {| taskFn := JsFunction (default "undefined"%string (opt_url o));
                    requirements := Some {| use_adblock := opt_use_adblock o |};
                    originalUrl := opt_url o |}) as ->.
  { destruct Hc as [-> | ->];
      unfold createScreenshotTask, createScreencastTask in Hm;
      destruct (accept_cookie_banners o && selectors_missing o); congruence. }
  assert (queue cfg = queueScreenshotTask cfg) as ->.
  { by destruct Hq as [-> | ->]. }
  unfold queueScreenshotTask. cbn [taskFn requirements originalUrl].
  destruct (opt_url o) as [u|]; cbn [default from_option id].
  - split; [split; [done|]|split; [done|]].
    + by destruct (queueTaskWithRequirements cfg (JsFunction u) _ priority s).
    + intros u0 [= <-].
      by destruct (queueTaskWithRequirements cfg (JsFunction u) _ priority s).
  - split; [done|]. split; done.
Qed.

Lemma facade_checks_url_witness :
  (opt_url o_page = None
   <-> (queueScreenshotTask cfg_two
          (Some {| taskFn := JsFunction "https://example.com";
                   requirements := Some plain;
                   originalUrl := Some "https://example.com"%string |})
          0 s_idle_two).1 = InvalidTaskObject)
  /\ (opt_url o_page = None ->
      queueScreenshotTask cfg_two
        (Some {| taskFn := JsFunction "https://example.com";
                 requirements := Some plain;
                 originalUrl := Some "https://example.com"%string |})
        0 s_idle_two = (InvalidTaskObject, s_idle_two))
  /\ (forall u, opt_url o_page = Some u ->
        queueScreenshotTask cfg_two
          (Some {| taskFn := JsFunction "https://example.com";
                   requirements := Some plain;
                   originalUrl := Some "https://example.com"%string |})
          0 s_idle_two
        = (Forwarded (queueTaskWithRequirements cfg_two (JsFunction u)
                        {| use_adblock := opt_use_adblock o_page |} 0 s_idle_two).1,
           (queueTaskWithRequirements cfg_two (JsFunction u)
              {| use_adblock := opt_use_adblock o_page |} 0 s_idle_two).2)).
Proof.
  apply (facade_checks_url cfg_two s_idle_two o_page _ 0
           createScreencastTask queueScreenshotTask).
  - by right.
  - by left.
  - reflexivity.
Defined.

(** ** [shutdown] when no launch is in flight *)

Section Calls.
Context (cfg : Config).

Lemma same_calls_refl s : same_calls s s.
Proof. by split. Qed.

Lemma same_calls_trans s1 s2 s3 :
  same_calls s1 s2 -> same_calls s2 s3 -> same_calls s1 s3.
Proof. intros [H1 H2] [H3 H4]. split; congruence. Qed.

Lemma same_calls__processQueue s : same_calls s (_processQueue cfg s).
Proof.
  unfold _processQueue. destruct (shuttingDown s) eqn:E; simpl; [by split|].
  repeat case_match; by split.
Qed.

Lemma same_calls__removeBrowserFromPool id s :
  same_calls s (_removeBrowserFromPool id s).
Proof. unfold _removeBrowserFromPool. by case_match. Qed.

Lemma same_calls_raceSettle d o g s :
  same_calls s (raceSettle d o (update_dispatch (d_tid d) g s)).
Proof. unfold raceSettle. by destruct o. Qed.

Lemma same_calls_execSettles tid o s : same_calls s (execSettles tid o s).
Proof.
  unfold execSettles. destruct (find_dispatch tid s) as [d|] eqn:F; [|by split].
  apply find_dispatch_Some in F as [_ <-].
  repeat case_match; first [by split|apply same_calls_raceSettle].
Qed.

Lemma same_calls_timerFires tid s : same_calls s (timerFires tid s).
Proof.
  unfold timerFires. destruct (find_dispatch tid s) as [d|] eqn:F; [|by split].
  apply find_dispatch_Some in F as [_ <-].
  repeat case_match; first [by split|apply same_calls_raceSettle].
Qed.

Lemma same_calls_finallyRuns tid s : same_calls s (finallyRuns cfg tid s).
Proof.
  unfold finallyRuns. repeat case_match; try by split.
  eapply same_calls_trans; [|apply same_calls__processQueue]. by split.
Qed.

Lemma same_calls_disconnected id s : same_calls s (disconnected cfg id s).
Proof.
  unfold disconnected, onDisconnected.
  repeat case_match; try apply same_calls_refl;
    (eapply same_calls_trans;
     [|apply same_calls__processQueue || apply same_calls_refl]);
    try (eapply same_calls_trans; [|apply same_calls__removeBrowserFromPool]);
    by split.
Qed.

Lemma same_calls_queueTaskWithRequirements f r p s :
  same_calls s (queueTaskWithRequirements cfg f r p s).2.
Proof.
  unfold queueTaskWithRequirements.
  destruct (shuttingDown s) eqn:E; [by split|].
  repeat case_match; simpl; try by split.
  eapply same_calls_trans; [|apply same_calls__processQueue]. by split.
Qed.

Lemma same_calls_killBrowser h r t s : same_calls s (killBrowser cfg h r t s).
Proof.
  unfold killBrowser.
  repeat case_match;
    first [apply same_calls_refl
          |apply same_calls__removeBrowserFromPool
          |by split
          |eapply same_calls_trans;
           [apply same_calls__removeBrowserFromPool|by split]].
Qed.

Lemma same_calls_launchSucceeds i s : same_calls s (launchSucceeds cfg i s).
Proof.
  unfold launchSucceeds. destruct (launching s !! i) as [l|]; [|by split].
  destruct (l_cont l); repeat case_match; try by split.
  - eapply same_calls_trans; [|apply same_calls__processQueue]. by split.
  - eapply same_calls_trans; [|apply same_calls__processQueue]. by split.
Qed.

(** While the gate is open no [shutdown] is suspended. *)
Lemma no_calls_before_shutdown s :
  reachable cfg s -> shuttingDown s = false -> shutdownCalls s = [].
Proof.
  induction 1 as [s Hinit|s e Hr IH]; intros Hs.
  - unfold getBrowserPool in Hinit. destruct (_ && negb _); [done|].
    injection Hinit as <-.
    assert (forall n t k s0, shutdownCalls (Nat.iter n (_launchBrowser cfg t k) s0)
                             = shutdownCalls s0) as Hiter.
    { intros n t k s0. by induction n. }
    repeat case_match; simpl; rewrite ?Hiter; done.
  - assert (shuttingDown s = false) as Hs0.
    { destruct (shuttingDown s) eqn:E; [|done].
      by rewrite (gate_stays cfg s e E) in Hs. }
    specialize (IH Hs0).
    assert (forall s', same_calls s s' -> shutdownCalls s' = []) as Hsame
      by (intros s' [-> _]; done).
    destruct e; simpl in *.
    + apply Hsame, same_calls_launchSucceeds.
    + revert Hs. unfold launchFails. destruct (launching s !! i) as [l|]; [|done].
      destruct (l_cont l); try done. by destruct (phase _).
    + apply Hsame, same_calls_disconnected.
    + apply Hsame, same_calls_execSettles.
    + apply Hsame, same_calls_execSettles.
    + apply Hsame, same_calls_timerFires.
    + destruct (returned s); [|done].
      apply Hsame, same_calls_queueTaskWithRequirements.
    + destruct (returned s); [|done]. apply Hsame, same_calls_killBrowser.
    + destruct (returned s); done.
    + unfold closeSettles. by rewrite IH.
    + unfold shutdownDone. by rewrite IH.
    + apply Hsame, same_calls_execSettles.
    + apply Hsame, same_calls_finallyRuns.
Qed.

Lemma shrinking_step s e :
  Inv cfg s -> shuttingDown s = true -> launching s = [] ->
  shrinking s (step cfg s e).
Proof.
  intros HI Hs Hl. apply step_moves_ind; [done|by split|].
  intros s1 s2 _ (H1 & H2 & H3 & H4) Hm. unfold shrinking.
  destruct Hm as [t k Hn _|i l Hi|i l Hi|id|l|id bs Hb Hc|name p r Hn|x rest a Hn E F
                 |d g Hd Hset Hg|d g o Hd Hun Hg Ho
                 |d Hd Hun|d Hd Hset Hun| | | |];
    try congruence; try (by rewrite H2 in Hi); try done.
  - simpl. split; [done|]. split; [done|]. split; [|done].
    intros b Hb. by eapply H3, remove_first_subset.
  - simpl. split; [done|]. split; [done|]. split; [done|].
    intros b Hb. apply elem_of_app. right. by apply H4.
  - simpl. split; [done|]. split; [done|]. split; [|done].
    intros b Hin. by eapply H3, remove_first_subset.
Qed.

Lemma removed_by_close b (ok : bool) s :
  roster_ok s ->
  b ∉ browsers (if ok then disconnected cfg b s else _removeBrowserFromPool b s).
Proof.
  intros (Hnd & _ & Hcon).
  assert (b ∉ remove_first b (browsers s)) as Hrem
    by by apply remove_first_NoDup.
  assert (b ∉ browsers (_removeBrowserFromPool b s)) as Hrm.
  { unfold _removeBrowserFromPool. by case_match. }
  destruct ok; [|done].
  unfold disconnected. destruct (heap s !! b) as [bs|] eqn:Hb.
  - destruct (connected bs) eqn:Hc.
    + unfold onDisconnected.
      set (s0 := set_heap (alter (b_set_connected false) b (heap s)) s).
      assert (b ∉ browsers (_removeBrowserFromPool b s0)) as Hrm0.
      { unfold _removeBrowserFromPool. by case_match. }
      destruct (shuttingDown (_removeBrowserFromPool b s0)); [done|].
      assert (forall s', browsers (_processQueue cfg s') = browsers s') as Hpq.
      { intros s'. unfold _processQueue.
        repeat case_match; try done. }
      rewrite Hpq. by case_match.
    + intros Hin. destruct (Hcon b Hin) as (bs' & Hb' & Hc'). congruence.
  - intros Hin. destruct (Hcon b Hin) as (bs' & Hb' & _). congruence.
Qed.

Lemma closing_step closed resolved s e :
  reachable cfg s -> closing closed resolved s ->
  closing closed resolved (step cfg s e).
Proof.
  intros Hr (Hs & Hl & Hp & Hc & Hz).
  pose proof (Inv_reachable cfg s Hr) as HI.
  pose proof (roster_ok_reachable cfg s Hr) as Hok.
  destruct (shrinking_step s e HI Hs Hl) as (S1 & S2 & S3 & S4).
  assert (forall c b, c ∈ shutdownCalls s -> b ∈ browsers (step cfg s e) ->
                      b ∈ sd_pending c) as Hp' by (intros c b ? ?; auto).
  assert ((resolved < shutdownsResolved s)%nat -> browsers (step cfg s e) = [])
    as Hz'.
  { intros Hlt. specialize (Hz Hlt).
    destruct (browsers (step cfg s e)) as [|x l] eqn:E; [done|].
    assert (x ∈ browsers s) as Hx by (apply S3; left). rewrite Hz in Hx.
    by apply elem_of_nil in Hx. }
  assert (same_calls s (step cfg s e) -> closing closed resolved (step cfg s e))
    as Hsame.
  { intros [E1 E2]. unfold closing. rewrite E1, E2.
    split; [done|]. split; [done|]. split; [done|]. split; [auto|done]. }
  split; [done|]. split; [done|].
  destruct e; try (by apply Hsame); simpl in *.
  - apply Hsame, same_calls_launchSucceeds.
  - unfold launchFails in *. rewrite Hl in *. simpl in *.
    split; [done|]. split; [auto|done].
  - apply Hsame, same_calls_disconnected.
  - apply Hsame, same_calls_execSettles.
  - apply Hsame, same_calls_execSettles.
  - apply Hsame, same_calls_timerFires.
  - destruct (returned s); [|by split; [|split; auto]].
    apply Hsame, same_calls_queueTaskWithRequirements.
  - destruct (returned s); [|by split; [|split; auto]].
    apply Hsame, same_calls_killBrowser.
  - (* another shutdown *)
    destruct (returned s); [|by split; [|split; auto]].
    simpl in *. split; [|split; [auto|done]].
    intros c b [Hin|Hin]%elem_of_app Hb; [auto|].
    apply list_elem_of_singleton in Hin as ->. done.
  - (* a close settles *)
    unfold closeSettles in *.
    destruct (shutdownCalls s !! k) as [c|] eqn:Ek;
      [|by split; [|split; auto]].
    destruct (bool_decide (b ∈ sd_pending c)); [|by split; [|split; auto]].
    set (c' := {| sd_pending := remove_first b (sd_pending c);
                  sd_from_init := sd_from_init c |}) in *.
    set (s1 := set_shutdownCalls (<[k:=c']> (shutdownCalls s)) s) in *.
    set (s' := if ok then disconnected cfg b s1 else _removeBrowserFromPool b s1)
      in *.
    assert (same_calls s1 s') as [E1 E2].
    { subst s'. destruct ok;
        [apply same_calls_disconnected|apply same_calls__removeBrowserFromPool]. }
    assert (b ∉ browsers s') as Hnb by by apply removed_by_close.
    rewrite E1, E2. simpl. split; [|split; [auto|done]].
    intros c0 x Hc0 Hx.
    apply list_elem_of_lookup in Hc0 as [j Hj].
    apply list_lookup_insert_Some in Hj as [(-> & <- & _)|(_ & Hj)].
    + simpl. apply remove_first_other.
      * apply (Hp c x); [by eapply list_elem_of_lookup_2|by apply S3].
      * intros ->. done.
    + apply (Hp c0 x); [by eapply list_elem_of_lookup_2|by apply S3].
  - (* a shutdown call resolves *)
    unfold shutdownDone in *.
    destruct (shutdownCalls s !! k) as [c|] eqn:Ek;
      [|by split; [|split; auto]].
    destruct (sd_pending c) as [|x l] eqn:Ep; [|by split; [|split; auto]].
    assert (browsers s = []) as Hnil.
    { assert (forall x, x ∉ browsers s) as Hno.
      { intros x Hx. apply (Hp c x) in Hx; [|by eapply list_elem_of_lookup_2].
        rewrite Ep in Hx. by apply elem_of_nil in Hx. }
      destruct (browsers s) as [|x l]; [done|]. exfalso. apply (Hno x). left. }
    assert (forall s', browsers s' = browsers s ->
              closeCalls s' = closeCalls s ->
              shutdownCalls s' = delete k (shutdownCalls s) ->
              (forall c0 b0, c0 ∈ shutdownCalls s' -> b0 ∈ browsers s' ->
                             b0 ∈ sd_pending c0)
              /\ (forall b0, b0 ∈ closed -> b0 ∈ closeCalls s')
              /\ ((resolved < shutdownsResolved s')%nat -> browsers s' = []))
      as Hfin.
    { intros s' -> -> _. rewrite Hnil. split; [|split; [auto|done]].
      intros c0 b0 _ Hb0. by apply elem_of_nil in Hb0. }
    destruct (sd_from_init c); by apply Hfin.
  - apply Hsame, same_calls_execSettles.
  - apply Hsame, same_calls_finallyRuns.
Qed.

End Calls.

(** X20.  When [shutdown()] is called on a pool with no [chromium.launch]
    in flight, it tears the pool down completely: [close()] has been called
    on every browser that was on the roster, no launch is started
    afterwards, and from the moment a shutdown call has resolved the roster
    is empty and stays empty ([getStats().totalBrowsers] is 0), whatever
    happens in between and afterwards (crashes, tasks and timers settling,
    [killBrowser], further [shutdown] calls, failing [close()]s). *)
Theorem shutdown_closes_roster cfg s es :
  reachable cfg s -> returned s = true ->
  shuttingDown s = false -> launching s = [] ->
  let s' := run cfg (step cfg s EvShutdown) es in
  shuttingDown s' = true
  /\ launching s' = []
  /\ (forall b, b ∈ browsers s -> b ∈ closeCalls s')
  /\ ((shutdownsResolved s < shutdownsResolved s')%nat ->
      browsers s' = [] /\ totalBrowsers (getStats s') = 0%nat).
Proof.
  intros Hr Hret Hs Hl s'.
  assert (closing (browsers s) (shutdownsResolved s) s') as (K1 & K2 & _ & K4 & K5).
  { subst s'.
    assert (reachable cfg (step cfg s EvShutdown)) as Hr1 by by constructor.
    assert (closing (browsers s) (shutdownsResolved s) (step cfg s EvShutdown))
      as HK.
    { simpl. rewrite Hret. unfold closing. simpl.
      rewrite (no_calls_before_shutdown cfg s Hr Hs). simpl.
      split; [done|]. split; [done|]. split; [|split; [|lia]].
      - intros c b Hc Hb. apply list_elem_of_singleton in Hc as ->. done.
      - intros b Hb. apply elem_of_app. left.
        apply list_elem_of_In. apply -> in_rev. by apply list_elem_of_In. }
    revert Hr1 HK. generalize (step cfg s EvShutdown). clear.
    induction es as [|e es IH]; intros s1 Hr1 HK; [done|].
    simpl. apply IH; [by constructor|by apply closing_step]. }
  split; [done|]. split; [done|]. split; [done|].
  intros Hlt. specialize (K5 Hlt). split; [done|].
  unfold getStats. simpl. by rewrite K5.
Qed.

Lemma shutdown_closes_roster_witness :
  let s' := run cfg_two (step cfg_two s_idle_two EvShutdown) closing_turns in
  shuttingDown s' = true
  /\ launching s' = []
  /\ (forall b, b ∈ browsers s_idle_two -> b ∈ closeCalls s')
  /\ ((shutdownsResolved s_idle_two < shutdownsResolved s')%nat ->
      browsers s' = [] /\ totalBrowsers (getStats s') = 0%nat).
Proof.
  apply (shutdown_closes_roster cfg_two s_idle_two closing_turns).
  - apply reachable_run, reachable_init. reflexivity.
  - reflexivity.
  - reflexivity.
  - reflexivity.
Defined.

Example closing_turns_resolve :
  browsers s_idle_two = [0; 1]%nat
  /\ shutdownsResolved s_idle_two = 0%nat
  /\ shutdownsResolved
       (run cfg_two (step cfg_two s_idle_two EvShutdown) closing_turns) = 1%nat.
Proof. by vm_compute. Qed.

(** ** Which browser a task runs on *)

Lemma typed_alter (f : BrowserState -> BrowserState) a s (ds : list Dispatch) :
  (forall bs, b_type (f bs) = b_type bs) ->
  (forall d, d ∈ ds ->
     exists bs, heap s !! d_browser d = Some bs
                /\ b_type bs = requiredType (q_requirements (d_item d))) ->
  forall d, d ∈ ds ->
    exists bs, alter f a (heap s) !! d_browser d = Some bs
               /\ b_type bs = requiredType (q_requirements (d_item d)).
Proof.
  intros Hf H d Hd. destruct (H d Hd) as (bs & Hb & Ht).
  destruct (decide (d_browser d = a)) as [Heq|Hne].
  - exists (f bs). rewrite <- Heq, lookup_alter_eq, Hb. split; [done|].
    by rewrite Hf.
  - exists bs. by rewrite lookup_alter_ne.
Qed.

Lemma typed_upd f tid s :
  flag_update f -> typed_dispatches s ->
  typed_dispatches (update_dispatch tid f s).
Proof.
  intros Hf H d' (d & Hd & ->)%elem_of_upd. simpl.
  destruct (H d Hd) as (bs & Hb & Ht). exists bs.
  destruct (Nat.eqb (d_tid d) tid); [|done].
  by rewrite (fu_browser f Hf), (fu_item f Hf).
Qed.

Lemma typed_move cfg s s' :
  Inv cfg s -> typed_dispatches s -> move cfg s s' -> typed_dispatches s'.
Proof.
  intros (_ & _ & HB) HP Hm.
  destruct Hm as [t k _ _|i l _|i l _|id|l|id bs Hb Hc|name p r _|x rest a _ E F
                 |d g Hd Hset Hg|d g o Hd Hun Hg Ho
                 |d Hd Hun|d Hd Hset Hun| | | |]; try exact HP.
  - (* a launch completes: the new browser has a fresh id *)
    intros d Hd. simpl in *. destruct (HP d Hd) as (bs & Hb & Ht).
    exists bs. split; [|done]. rewrite lookup_insert_ne; [done|].
    intros Heq. assert (is_Some (heap s !! d_browser d)) as Hs by eauto.
    apply (b_heap_lt _ _ _ _ _ HB) in Hs. lia.
  - (* a browser disconnects *)
    intros d Hd. by apply (typed_alter (b_set_connected false) id s (dispatches s)).
  - (* a dispatch *)
    apply findSuitable_Some in F as (_ & bs & Hb & Hs).
    apply suitable_spec in Hs as (_ & _ & Ht & _).
    intros d [->|Hd]%elem_of_cons.
    + simpl. exists (b_acquire bs). by rewrite lookup_alter_eq, Hb.
    + by apply (typed_alter b_acquire a s (dispatches s)).
  - (* a late settlement *)
    apply typed_upd; [|done].
    destruct Hg as [-> | ->]; [apply fu_execSettled|apply fu_timerFired].
  - (* a settlement *)
    assert (flag_update g) as Hfu
      by (destruct Hg as [-> | ->]; [apply fu_execSettled|apply fu_timerFired]).
    exact (typed_upd d_set_completed (d_tid d) _ fu_completed
             (typed_upd g (d_tid d) s Hfu HP)).
  - (* the handler throws *)
    exact (typed_upd d_set_completed (d_tid d) _ fu_completed
             (typed_upd d_set_execSettled (d_tid d) s fu_execSettled HP)).
  - (* release *)
    pose proof (typed_upd d_set_released (d_tid d) s fu_released HP) as H.
    intros d0 Hd0. unfold release in *. simpl in *.
    by apply (typed_alter b_release (d_browser d) s
                (upd (d_tid d) d_set_released (dispatches s))).
Qed.

(** X21.  In every reachable state each task that has been handed to a
    browser was handed to a browser of the type its requirements ask for:
    a task with [use_adblock] to an adblock browser, any other task to a
    default browser, and the type of that browser has not changed since. *)
Theorem task_runs_on_required_type cfg s d :
  reachable cfg s -> d ∈ dispatches s ->
  typeOf (d_browser d) s
  = (if use_adblock (q_requirements (d_item d)) then TAdblock else TDefault)
  /\ is_Some (heap s !! d_browser d).
Proof.
  intros Hr Hd.
  assert (typed_dispatches s) as H.
  { clear Hd. revert s Hr. apply reachable_moves_ind; [|apply typed_move].
    by intros d' ?%elem_of_nil. }
  destruct (H d Hd) as (bs & Hb & Ht).
  unfold typeOf. rewrite Hb. simpl. split; [|eauto].
  by rewrite Ht.
Qed.

Lemma task_runs_on_required_type_witness :
  typeOf (d_browser d_running) s_queued
  = (if use_adblock (q_requirements (d_item d_running)) then TAdblock else TDefault)
  /\ is_Some (heap s_queued !! d_browser d_running).
Proof.
  apply (task_runs_on_required_type cfg_one s_queued d_running).
  - apply reachable_run, reachable_init. reflexivity.
  - vm_compute. left.
Defined.
